(** * ModelDAG: a shallow embedding of [modeldag/modeldag.py]

    The development follows the Python module top-down:
    - Python values, insertion-ordered dicts and the model document;
    - the reference syntax ["@name"] of kwargs values;
    - the exploded model table ([get_modeldf]) and the closures
      [get_backward_entries] / [get_forward_entries];
    - the store of document objects, [get_model] and [change_model];
    - the function resolver [_parse_input_func], [draw_param], [_draw],
      [draw] and [redraw_from].

    Everything the module obtains from outside (the attributes of the
    owner and those the engine has beyond its properties and
    [change_model], [eval], [inspect], the sampling callables, numpy's
    cell types and its random choice) is a field of the record [env].  The
    properties come after the definitions, the claims C1 to C10 among
    them. *)

From Stdlib Require Import ZArith String Ascii List Bool Lia.
From stdpp Require Import base list.
Import ListNotations.
Local Open Scope string_scope.
Local Open Scope list_scope.

(** ** Python values *)

(** The values that occur in a model document, in call arguments and in
    table cells.  [VFun] is a callable object from outside the module,
    known by its identity; [VSeq] is any sequence (list, tuple, ndarray);
    [VNaN] is the float NaN that pandas uses for missing cells; [VDict]
    is a dict with string keys; [VChangeModel] is the bound method
    [self.change_model] of the engine itself, which the function
    resolver obtains from the name ["change_model"]. *)
#[warnings="-register-all"]
Inductive value : Type :=
| VNone
| VNaN
| VInt (z : Z)
| VStr (s : string)
| VFun (f : nat)
| VSeq (l : list value)
| VDict (d : list (string * value))
| VChangeModel.

(** [callable(v)] *)
Definition callable (v : value) : bool :=
  match v with VFun _ | VChangeModel => true | _ => false end.

(** Python exceptions raised by the modelled code. *)
Inductive exn : Type :=
| KeyError (k : string)
| TypeError
| ValueError (msg : string).

(** Outcome of a call: a value, an exception, or [Diverge] when the fuel
    given to an unbounded [while] loop ran out. *)
Inductive outcome (A : Type) : Type :=
| Ret (a : A)
| Raise (e : exn)
| Diverge.
Arguments Ret {A} a.
Arguments Raise {A} e.
Arguments Diverge {A}.

(** ** Insertion-ordered dicts *)

Module Dict.
Section Dict.
Context {V : Type}.

Definition t := list (string * V).

(** [d.get(k)] *)
Fixpoint get (k : string) (d : t) : option V :=
  match d with
  | [] => None
  | (k', v) :: d' => if String.eqb k k' then Some v else get k d'
  end.

(** [d[k] = v]: an existing key keeps its position, a new key goes last. *)
Fixpoint set (k : string) (v : V) (d : t) : t :=
  match d with
  | [] => [(k, v)]
  | (k', v') :: d' =>
      if String.eqb k k' then (k, v) :: d' else (k', v') :: set k v d'
  end.

(** [{**d, **upd}] *)
Definition merge (d upd : t) : t :=
  fold_left (fun acc kv => set (fst kv) (snd kv) acc) upd d.

(** [k in d] *)
Definition mem (k : string) (d : t) : bool :=
  match get k d with Some _ => true | None => false end.

(** the dict without key [k] *)
Definition remove (k : string) (d : t) : t :=
  List.filter (fun kv => negb (String.eqb k (fst kv))) d.
End Dict.
Arguments t : clear implicits.
End Dict.

(** [x in l] for a list of strings *)
Definition mem_str (x : string) (l : list string) : bool :=
  existsb (String.eqb x) l.

(** ** The model document *)

(** The ["kwargs"] field of an entry: the key may be missing, hold [None],
    or hold a dict. *)
Inductive kwargs_field : Type :=
| KwAbsent
| KwNone
| KwDict (d : Dict.t value).

(** The ["as"] field of an entry: missing, [None], one name, or a list of
    names.  A list is kept non-empty: pandas explodes an empty list to a
    NaN label, which is outside this development. *)
Inductive as_field : Type :=
| AsAbsent
| AsNone
| AsStr (s : string)
| AsList (a : string) (l : list string).

(** One entry.  [func] is [VNone] when the key is missing: the module only
    ever reads it through [.get("func", None)]. *)
Record entry : Type := Entry {
  func : value;
  kwargs : kwargs_field;
  alias : as_field
}.

(** The model document: entry name to entry, in insertion order. *)
Definition document := Dict.t entry.

(** ** References in kwargs values *)

(** [c in s] for a one-character string [c] *)
Fixpoint contains_char (c : ascii) (s : string) : bool :=
  match s with
  | EmptyString => false
  | String c' s' => if Ascii.eqb c' c then true else contains_char c s'
  end.

(** [s.split(sep)] for a one-character separator *)
Fixpoint split (sep : ascii) (s : string) : list string :=
  match s with
  | EmptyString => [EmptyString]
  | String c s' =>
      if Ascii.eqb c sep then EmptyString :: split sep s'
      else match split sep s' with
           | [] => [String c EmptyString]
           | h :: t => String c h :: t
           end
  end.

(** [type(v) is str and "@" in v] *)
Definition is_reference (v : value) : bool :=
  match v with
  | VStr s => contains_char "@" s
  | _ => false
  end.

(** [v.split("@")[-1].split(" ")[0]] *)
Definition ref_name (s : string) : string :=
  hd EmptyString (split " " (List.last (split "@" s) EmptyString)).

(** The reading of the same rule with the token ended by any whitespace
    character (Python's [str.isspace] on ASCII): space, tab, line feed,
    vertical tab, form feed, carriage return. *)
Definition is_whitespace (c : ascii) : bool :=
  let n := nat_of_ascii c in
  Nat.eqb n 32 || (Nat.leb 9 n && Nat.leb n 13).

Fixpoint take_until (p : ascii -> bool) (s : string) : string :=
  match s with
  | EmptyString => EmptyString
  | String c s' => if p c then EmptyString else String c (take_until p s')
  end.

Definition whitespace_ref_name (s : string) : string :=
  take_until is_whitespace (List.last (split "@" s) EmptyString).

(** the input ["@a<TAB>b"] *)
Definition tab_reference : string :=
  String "@" (String "a" (String (ascii_of_nat 9) (String "b" EmptyString))).

(** The entry a kwargs value refers to, if it is a reference. *)
Definition reference_target (v : value) : option string :=
  match v with
  | VStr s => if contains_char "@" s then Some (ref_name s) else None
  | _ => None
  end.

(** ** The exploded model table *)

(** One row of [get_modeldf()]: the index label ["entry"] and the column
    ["input"], which is [None] where pandas has NaN. *)
Definition modeldf_row : Type := (string * option string)%type.

(** The column ["entry"] of [modeldict_to_modeldf]: the alias, with the
    entry name where the alias is missing or [None]; [explode("entry")]
    turns a list of aliases into one label per row. *)
Definition entry_labels (model_name : string) (e : entry) : list string :=
  match alias e with
  | AsAbsent | AsNone => [model_name]
  | AsStr s => [s]
  | AsList a l => a :: l
  end.

(** The column ["input"]:
    [[] if type(x) is not dict else
     [l.split("@")[-1].split(" ")[0] for l in x.values()
      if type(l) is str and "@" in l]] *)
Definition entry_inputs (e : entry) : list string :=
  match kwargs e with
  | KwDict d => omap (fun kv => reference_target (snd kv)) d
  | _ => []
  end.

(** [explode("input")]: an empty list becomes one NaN row. *)
Definition explode_input (l : list string) : list (option string) :=
  match l with
  | [] => [None]
  | _ :: _ => map Some l
  end.

(** Whether some entry has the key ["kwargs"]: only then does the data
    frame built from the entries have a column of that name. *)
Definition has_kwargs_column (model : document) : bool :=
  existsb (fun ke => match kwargs (snd ke) with
                     | KwAbsent => false
                     | _ => true
                     end) model.

(** [get_modeldf(explode=True)], projected on its index and on ["input"].
    [modeldf["kwargs"]] raises [KeyError] when the column is missing. *)
Definition get_modeldf (model : document) : outcome (list modeldf_row) :=
  if has_kwargs_column model then
    Ret (flat_map (fun ke =>
           flat_map (fun lbl =>
             map (fun i => (lbl, i)) (explode_input (entry_inputs (snd ke))))
             (entry_labels (fst ke) (snd ke)))
           model)
  else Raise (KeyError "kwargs").

(** [self.entries]: the index of the model table, de-duplicated in order
    of first occurrence. *)
Fixpoint unique_in_order (seen l : list string) : list string :=
  match l with
  | [] => []
  | x :: l' =>
      if mem_str x seen then unique_in_order seen l'
      else x :: unique_in_order (x :: seen) l'
  end.

Definition entries (model : document) : outcome (list string) :=
  match get_modeldf model with
  | Ret rows => Ret (unique_in_order [] (map fst rows))
  | Raise e => Raise e
  | Diverge => Diverge
  end.

(** [self.entry_dependencies.dropna()]: index [entry], value [input]. *)
Definition depends_on (rows : list modeldf_row) : list (string * string) :=
  omap (fun r => match snd r with
                 | Some i => Some (fst r, i)
                 | None => None
                 end) rows.

(** [self.entry_inputof]: index [input], value [entry]. *)
Definition entry_inputof (rows : list modeldf_row) : list (string * string) :=
  map (fun p => (snd p, fst p)) (depends_on rows).

(** ** Closures over the dependency index *)

(** The argument [name] of the closure methods and of [redraw_from]: one
    name or a list of names. *)
Inductive name_arg : Type :=
| One (s : string)
| Many (l : list string).

(** [np.atleast_1d(name)] *)
Definition atleast_1d (n : name_arg) : list string :=
  match n with
  | One s => [s]
  | Many l => l
  end.

(** [series.loc[series.index.isin(names)].values] for a series given by
    its (index, value) pairs. *)
Definition loc_isin (series : list (string * string)) (names : list string)
  : list string :=
  map snd (List.filter (fun p => mem_str (fst p) names) series).

(** The [while len(leads_to_changing) > 0] loop shared by both closure
    methods: append the frontier, then replace it by the values indexed by
    it.  The loop has no bound in the source, hence the fuel. *)
Fixpoint expand (fuel : nat) (series : list (string * string))
  (leads_to_changing acc : list string) : outcome (list string) :=
  match leads_to_changing with
  | [] => Ret acc
  | _ :: _ =>
      match fuel with
      | O => Diverge
      | S fuel' =>
          expand fuel' series (loc_isin series leads_to_changing)
                 (acc ++ leads_to_changing)
      end
  end.

(** The frontier after [k] further turns of the loop. *)
Fixpoint frontier (series : list (string * string)) (k : nat)
  (leads_to_changing : list string) : list string :=
  match k with
  | O => leads_to_changing
  | S k' => frontier series k' (loc_isin series leads_to_changing)
  end.

(** Body of [get_backward_entries] on the model document. *)
Definition backward_entries (fuel : nat) (model : document)
  (name : name_arg) (incl_input : bool) : outcome (list string) :=
  match get_modeldf model with
  | Ret rows =>
      let names := atleast_1d name in
      expand fuel (depends_on rows) (loc_isin (depends_on rows) names)
             (if incl_input then names else [])
  | Raise e => Raise e
  | Diverge => Diverge
  end.

(** Body of [get_forward_entries] on the model document. *)
Definition forward_entries (fuel : nat) (model : document)
  (name : name_arg) (incl_input : bool) : outcome (list string) :=
  match get_modeldf model with
  | Ret rows =>
      let names := atleast_1d name in
      expand fuel (entry_inputof rows) (loc_isin (entry_inputof rows) names)
             (if incl_input then names else [])
  | Raise e => Raise e
  | Diverge => Diverge
  end.

(** The reference graph of a document, read off the entries themselves:
    output label [b] refers to [a] when the entry that produces [b] has a
    kwargs value ["@a ..."]. *)
Definition refers_to (model : document) (b a : string) : Prop :=
  exists name e, In (name, e) model /\ In b (entry_labels name e)
                 /\ In a (entry_inputs e).

(** [chain R x p]: [p] lists the successive nodes of a path that leaves
    [x] along [R]. *)
Fixpoint chain (R : string -> string -> Prop) (x : string)
  (p : list string) : Prop :=
  match p with
  | [] => True
  | y :: p' => R x y /\ chain R y p'
  end.

(** [b] is reached from [a] by a non-empty path along [R]. *)
Definition reaches (R : string -> string -> Prop) (a b : string) : Prop :=
  exists p, p <> [] /\ chain R a p /\ List.last p a = b.

(** No entry refers, directly or through others, to itself. *)
Definition acyclic (model : document) : Prop :=
  forall x, ~ reaches (refers_to model) x x.

(** ** Tables *)

(** A column label.  [LNone] is the label [None], which
    [pandas.DataFrame(columns=[None])] accepts. *)
Inductive label : Type :=
| LNone
| LStr (s : string).

(** The fragment of [pandas.DataFrame] the engine uses: a row count (the
    length of the index) and the columns in order.  Index labels, dtypes
    and duplicated column labels are not modelled. *)
Record DataFrame : Type := Frame {
  nrows : nat;
  columns : list (label * list value)
}.

(** [pandas.DataFrame()] *)
Definition empty_frame : DataFrame := Frame 0 [].

(** [pandas.DataFrame(columns=cols)] *)
Definition frame_of_columns (cols : list label) : DataFrame :=
  Frame 0 (map (fun c => (c, [])) cols).

Definition label_eqb (a b : label) : bool :=
  match a, b with
  | LNone, LNone => true
  | LStr x, LStr y => String.eqb x y
  | _, _ => false
  end.

(** the cells of column [c], if the table has it *)
Fixpoint column (c : label) (cols : list (label * list value))
  : option (list value) :=
  match cols with
  | [] => None
  | (c', cells) :: cols' =>
      if label_eqb c c' then Some cells else column c cols'
  end.

(** [data[key].values] *)
Definition frame_values (key : string) (data : DataFrame) : outcome value :=
  match column (LStr key) (columns data) with
  | Some cells => Ret (VSeq cells)
  | None => Raise (KeyError key)
  end.

(** replace the cells of column [c] in place, or add the column last *)
Fixpoint put_column (c : label) (cells : list value)
  (cols : list (label * list value)) : list (label * list value) :=
  match cols with
  | [] => [(c, cells)]
  | (c', old) :: cols' =>
      if label_eqb c c' then (c, cells) :: cols'
      else (c', old) :: put_column c cells cols'
  end.

Definition is_seq (v : value) : bool :=
  match v with VSeq _ => true | _ => false end.

(** The shape of [np.asarray(v)]: 0-d, 1-d, or 2-d given by its rows. *)
Inductive ndarray : Type :=
| Arr0 (v : value)
| Arr1 (l : list value)
| Arr2 (rows : list (list value)).

Definition row_of (n : nat) (v : value) : option (list value) :=
  match v with
  | VSeq l =>
      if forallb (fun x => negb (is_seq x)) l && Nat.eqb (length l) n
      then Some l else None
  | _ => None
  end.

(** [np.asarray(v)], for arrays of rank at most two.  A ragged or deeper
    nesting raises [ValueError] (numpy refuses an inhomogeneous shape;
    rank three and more is not modelled).  numpy gives all the cells one
    type: [cell leaves x] is what the cell [x] becomes in an array made
    of [leaves] (an integer beyond 64 bits next to a negative one
    becomes a float, a number next to a string becomes a string). *)
Definition asarray (cell : list value -> value -> value) (v : value)
  : outcome ndarray :=
  match v with
  | VSeq l =>
      if forallb (fun x => negb (is_seq x)) l then Ret (Arr1 (map (cell l) l))
      else match l with
           | VSeq r0 :: _ =>
               match mapM (row_of (length r0)) l with
               | Some rows =>
                   Ret (Arr2 (map (map (cell (concat rows))) rows))
               | None => Raise (ValueError "inhomogeneous shape")
               end
           | _ => Raise (ValueError "inhomogeneous shape")
           end
  | _ => Ret (Arr0 (cell [v] v))
  end.

(** [data[key] = cells] for a 1-d array.  A table without rows takes the
    length of the array, and pandas fills the columns it already has with
    NaN; otherwise the lengths must agree. *)
Definition set_vector (key : string) (cells : list value) (data : DataFrame)
  : outcome DataFrame :=
  if Nat.eqb (nrows data) 0 && negb (Nat.eqb (length cells) 0) then
    Ret (Frame (length cells)
           (put_column (LStr key) cells
              (map (fun c => (fst c, repeat VNaN (length cells)))
                   (columns data))))
  else if Nat.eqb (length cells) (nrows data) then
    Ret (Frame (nrows data) (put_column (LStr key) cells (columns data)))
  else Raise (ValueError "Length of values does not match length of index").

(** [data[key] = v] for a scalar: one copy per row. *)
Definition set_scalar (key : string) (v : value) (data : DataFrame)
  : DataFrame :=
  Frame (nrows data)
        (put_column (LStr key) (repeat v (nrows data)) (columns data)).

(** [data[key] = samples.T] for one output name.  Of a 2-d array pandas
    accepts the block of exactly one column, which [samples.T] is when
    [samples] has one row: its length must be that of the index, and a
    table without index refuses it. *)
Definition setitem (key : string) (samples : ndarray) (data : DataFrame)
  : outcome DataFrame :=
  match samples with
  | Arr0 v => Ret (set_scalar key v data)
  | Arr1 l => set_vector key l data
  | Arr2 [row] =>
      if Nat.eqb (length row) (nrows data) then
        Ret (Frame (nrows data) (put_column (LStr key) row (columns data)))
      else Raise (ValueError "Length of values does not match length of index")
  | Arr2 _ => Raise (ValueError "Expected a 1D array")
  end.

(** [for i, col in enumerate(keys): data[col] = item(i)] *)
Fixpoint setitem_each {A : Type}
  (assign : string -> A -> DataFrame -> outcome DataFrame)
  (keys : list string) (items : list A) (data : DataFrame)
  : outcome DataFrame :=
  match keys, items with
  | k :: keys', x :: items' =>
      match assign k x data with
      | Ret data' => setitem_each assign keys' items' data'
      | Raise e => Raise e
      | Diverge => Diverge
      end
  | _, _ => Ret data
  end.

(** [data[keys] = samples.T] for a list of output names: a scalar goes to
    every column; otherwise the last axis of [samples.T] must have one
    item per name, and column [i] receives item [i]. *)
Definition setitem_list (keys : list string) (samples : ndarray)
  (data : DataFrame) : outcome DataFrame :=
  match samples with
  | Arr0 v =>
      setitem_each (fun k x d => Ret (set_scalar k x d))
                   keys (repeat v (length keys)) data
  | Arr1 l =>
      if Nat.eqb (length l) (length keys) then
        setitem_each (fun k x d => Ret (set_scalar k x d)) keys l data
      else Raise (ValueError "Columns must be same length as key")
  | Arr2 rows =>
      if Nat.eqb (length rows) (length keys) then
        setitem_each set_vector keys rows data
      else Raise (ValueError "Columns must be same length as key")
  end.

(** [np.unique] on names: sorted, without repetitions. *)
Fixpoint insert_unique (x : string) (l : list string) : list string :=
  match l with
  | [] => [x]
  | y :: l' =>
      match String.compare x y with
      | Eq => l
      | Lt => x :: l
      | Gt => y :: insert_unique x l'
      end
  end.

Definition np_unique (l : list string) : list string :=
  fold_right insert_unique [] l.

(** ** The engine and what surrounds it *)

(** What the module takes from its surroundings.
    - [self_attr a] is [getattr(self, a)] for the attributes of the
      engine that are not modelled here (its other methods, what a
      subclass or [object] provides, [self.obj]), and [obj_attr a] is
      [getattr(self.obj, a)]: [inr None] when [hasattr] is false,
      [inl e] when the lookup runs a property that raises [e], which
      [hasattr] lets through; a lookup comes to an end and changes
      nothing;
    - [py_eval name src] is [eval(src)] inside [_parse_input_func] called
      for entry [name], [None] when it raises;
    - [argspec f] is [inspect.getfullargspec(f).args], [None] when it
      raises;
    - [invoke f kw w] runs the callable [f] on the keyword arguments
      [kw] in the world [w] (random generators and whatever else the
      callable touches); these callables come from outside the module
      and do not reach into the engine's documents, unlike the engine's
      own [change_model], which [call] runs by its definition;
    - [eval_r src] is [eval(f"np.r_[{src}]")];
    - [np_cell leaves x] is the cell that [np.asarray] makes of [x] in
      an array built from [leaves];
    - [weighted_choice pdf xx size w] is the numpy part of
      [draw_from_pdf]. *)
Record env : Type := Env {
  world : Type;
  self_attr : string -> exn + option value;
  obj_attr : string -> exn + option value;
  py_eval : string -> string -> option value;
  argspec : value -> option (list string);
  invoke : value -> Dict.t value -> world -> outcome value * world;
  eval_r : string -> outcome value;
  np_cell : list value -> value -> value;
  weighted_choice : value -> value -> value -> world -> outcome value * world
}.

(** The state a method call runs in: the store of document objects
    (addresses are positions in [heap]), the address held by
    [self.model], the log of the callables invoked so far with their
    keyword arguments, and the world.  A document is held by value:
    the documents covered are those in which every name has an entry
    dict of its own and every entry a kwargs dict of its own (no dict
    object is reachable twice), and whose callables are functions,
    builtins or classes, which [copy.deepcopy] returns as they are. *)
Record state (W : Type) : Type := State {
  heap : list document;
  self_model : nat;
  calls : list (value * Dict.t value);
  outside : W
}.
Arguments State {W}.
Arguments heap {W}.
Arguments self_model {W}.
Arguments calls {W}.
Arguments outside {W}.

(** the document object at address [r] *)
Definition object_at {W : Type} (r : nat) (s : state W) : document :=
  default [] (heap s !! r).

(** the document [self.model] points to *)
Definition stored {W : Type} (s : state W) : document :=
  object_at (self_model s) s.

Definition is_none (v : value) : bool :=
  match v with VNone => true | _ => false end.

(** [f"{func}"] for the values that reach the error message *)
Definition show (v : value) : string :=
  match v with
  | VStr s => s
  | _ => "None"
  end.

Definition resolution_error (name : string) (func : value) : exn :=
  ValueError ("Cannot parse the input function " ++ name ++ ":" ++ show func).

Definition redraw_error : exn :=
  ValueError "At least on of the input name have at least one other given as forward entry. This is not supported by this method.".

(** [[v.get("as", name) for name, v in model.items()]], flattened by
    [np.hstack]: a missing ["as"] gives the entry name, any other value is
    taken as it is. *)
Definition hstack_labels (name : string) (e : entry) : list label :=
  match alias e with
  | AsAbsent => [LStr name]
  | AsNone => [LNone]
  | AsStr s => [LStr s]
  | AsList a l => map LStr (a :: l)
  end.

Section Engine.
Context (E : env).

(** Computations of the engine: state passing with exceptions; the
    state reached when an exception is raised is kept. *)
Definition M (A : Type) : Type :=
  state (world E) -> outcome A * state (world E).

Definition ret {A : Type} (a : A) : M A := fun s => (Ret a, s).

Definition raise {A : Type} (e : exn) : M A := fun s => (Raise e, s).

Definition bind {A B : Type} (m : M A) (k : A -> M B) : M B :=
  fun s =>
    match m s with
    | (Ret a, s') => k a s'
    | (Raise e, s') => (Raise e, s')
    | (Diverge, s') => (Diverge, s')
    end.

Definition lift {A : Type} (o : outcome A) : M A := fun s => (o, s).

Notation "x <- m ;; k" := (bind m (fun x => k))
  (at level 100, m at next level, right associativity).

(** the document at address [r] *)
Definition read (r : nat) : M document :=
  fun s => (Ret (object_at r s), s).

(** [deepcopy(<document at r>)]: a new object with the same content
    (for the documents described at [state]) *)
Definition deepcopy (r : nat) : M nat :=
  fun s =>
    (Ret (length (heap s)),
     State (heap s ++ [object_at r s])
           (self_model s) (calls s) (outside s)).

(** [model[name]["kwargs"] = d] on the document at address [r], and
    likewise every assignment into that kwargs dict *)
Definition write_kwargs (r : nat) (name : string) (d : Dict.t value)
  : M unit :=
  fun s =>
    let doc := object_at r s in
    let doc' :=
      match Dict.get name doc with
      | Some e => Dict.set name (Entry (func e) (KwDict d) (alias e)) doc
      | None => doc
      end in
    (Ret tt, State (<[r := doc']> (heap s))
                   (self_model s) (calls s) (outside s)).

(** [self.model = <document at r>] *)
Definition assign_self_model (r : nat) : M unit :=
  fun s => (Ret tt, State (heap s) r (calls s) (outside s)).

Definition get_self_model : M nat := fun s => (Ret (self_model s), s).

(** *** Model registry *)

(** The loop of [get_model]:
    [model[k]["kwargs"] = {**model[k].get("kwargs", {}), **v}].
    The right-hand side is evaluated from left to right: [model[k]]
    raises [KeyError], unpacking a kwargs that is [None] raises
    [TypeError], and so does unpacking a [v] that is not a mapping. *)
Fixpoint merge_overrides (r : nat)
  (overrides : list (string * value)) : M unit :=
  match overrides with
  | [] => ret tt
  | (k, v) :: rest =>
      model <- read r ;;
      match Dict.get k model with
      | None => raise (KeyError k)
      | Some e =>
          match kwargs e, v with
          | KwNone, _ => raise TypeError
          | KwAbsent, VDict d' =>
              _ <- write_kwargs r k (Dict.merge [] d') ;;
              merge_overrides r rest
          | KwDict d, VDict d' =>
              _ <- write_kwargs r k (Dict.merge d d') ;;
              merge_overrides r rest
          | _, _ => raise TypeError
          end
      end
  end.

(** Body of [get_model(funcs, **kwargs)], with [funcs] and [kwargs] as
    the call has bound them; the body never reads [funcs]. *)
Definition get_model (funcs : value)
  (overrides : list (string * value)) : M nat :=
  m <- get_self_model ;;
  model <- deepcopy m ;;
  _ <- merge_overrides model overrides ;;
  ret model.

(** The call [self.get_model( **kwargs)] made by [change_model] and by
    [draw]: a key ["funcs"] of [kwargs] binds the parameter [funcs] and
    does not reach the loop; without it [funcs] is its default [{}]. *)
Definition get_model_call (kwargs : Dict.t value) : M nat :=
  get_model (default (VDict []) (Dict.get "funcs" kwargs))
            (Dict.remove "funcs" kwargs).

(** [change_model( **kwargs)] *)
Definition change_model (kwargs : Dict.t value) : M unit :=
  model <- get_model_call kwargs ;;
  assign_self_model model.

(** the call of [f] on the keyword arguments [kw], logged first.  The
    engine's own [change_model] runs as defined above and returns
    [None]; any other callable runs in the world; calling what is not
    callable is a [TypeError] *)
Definition call (f : value) (kw : Dict.t value) : M value :=
  match f with
  | VChangeModel =>
      fun s =>
        match change_model kw
                (State (heap s) (self_model s) (calls s ++ [(f, kw)])
                       (outside s)) with
        | (Ret _, s') => (Ret VNone, s')
        | (Raise e, s') => (Raise e, s')
        | (Diverge, s') => (Diverge, s')
        end
  | _ =>
      fun s =>
        if callable f then
          let (r, w) := invoke E f kw (outside s) in
          (r, State (heap s) (self_model s) (calls s ++ [(f, kw)]) w)
        else (Raise TypeError, s)
  end.

(** *** Closures as methods *)

Definition get_backward_entries (fuel : nat) (name : name_arg)
  (incl_input : bool) : M (list string) :=
  m <- get_self_model ;;
  model <- read m ;;
  lift (backward_entries fuel model name incl_input).

Definition get_forward_entries (fuel : nat) (name : name_arg)
  (incl_input : bool) : M (list string) :=
  m <- get_self_model ;;
  model <- read m ;;
  lift (forward_entries fuel model name incl_input).

(** *** Function resolver *)

(** [getattr(self, a)] on the engine whose [self.model] is [model]:
    [Ret None] stands for the [AttributeError] that makes [hasattr]
    false, [Raise e] for any other exception, which [hasattr] lets
    through.  The properties [entries], [entry_dependencies] and
    [entry_inputof] build the model table first (an array or a series is
    given by its values); ["change_model"] is the bound method; the
    other attributes come from [self_attr]. *)
Definition engine_attr (model : document) (a : string)
  : outcome (option value) :=
  if String.eqb a "entries" then
    match entries model with
    | Ret names => Ret (Some (VSeq (map VStr names)))
    | Raise e => Raise e
    | Diverge => Diverge
    end
  else if String.eqb a "entry_dependencies" then
    match get_modeldf model with
    | Ret rows =>
        Ret (Some (VSeq (map (fun r => match snd r with
                                       | Some i => VStr i
                                       | None => VNaN
                                       end) rows)))
    | Raise e => Raise e
    | Diverge => Diverge
    end
  else if String.eqb a "entry_inputof" then
    match get_modeldf model with
    | Ret rows => Ret (Some (VSeq (map (fun p => VStr (snd p))
                                       (entry_inputof rows))))
    | Raise e => Raise e
    | Diverge => Diverge
    end
  else if String.eqb a "change_model" then Ret (Some VChangeModel)
  else match self_attr E a with
       | inl e => Raise e
       | inr o => Ret o
       end.

(** [getattr(self.obj, a)], likewise *)
Definition owner_attr (a : string) : outcome (option value) :=
  match obj_attr E a with
  | inl e => Raise e
  | inr o => Ret o
  end.

(** [hasattr(o, func)] followed by [getattr(o, func)], guarded by
    [func is not None]; an attribute name that is not a string is a
    [TypeError]. *)
Definition attribute (attr : string -> outcome (option value))
  (func : value) : outcome (option value) :=
  match func with
  | VNone => Ret None
  | VStr s => attr s
  | _ => Raise TypeError
  end.

(** [_parse_input_func(name, func)] on the engine whose [self.model] is
    [model].  An exception raised while an attribute is looked up leaves
    the method as it is; only a failing [eval] is turned into the
    [ValueError]. *)
Definition _parse_input_func (model : document) (name : string)
  (func : value) : outcome value :=
  if callable func then Ret func
  else
    match attribute (engine_attr model) func with
    | Ret (Some m) => Ret m
    | Ret None =>
        match attribute owner_attr func with
        | Ret (Some m) => Ret m
        | Ret None =>
            match engine_attr model ("draw_" ++ name) with
            | Ret (Some m) => Ret m
            | Ret None =>
                match owner_attr ("draw_" ++ name) with
                | Ret (Some m) => Ret m
                | Ret None =>
                    match func with
                    | VStr src =>
                        match py_eval E name src with
                        | Some v => Ret v
                        | None => Raise (resolution_error name func)
                        end
                    | _ => Raise (resolution_error name func)
                    end
                | Raise e => Raise e
                | Diverge => Diverge
                end
            | Raise e => Raise e
            | Diverge => Diverge
            end
        | Raise e => Raise e
        | Diverge => Diverge
        end
    | Raise e => Raise e
    | Diverge => Diverge
    end.

(** *** Single-entry draw *)

(** [draw_from_pdf(pdf, xx, size)] *)
Definition draw_from_pdf (pdf xx size : value) : M value :=
  xx' <- match xx with
         | VStr src => lift (eval_r E src)
         | _ => ret xx
         end ;;
  fun s =>
    let (r, w) := weighted_choice E pdf xx' size (outside s) in
    (r, State (heap s) (self_model s) (calls s) w).

(** [draw_param(name, **prop)].  The keys ["func"], ["size"] and ["xx"]
    of [prop] bind the parameters of that name, the others are the
    keyword arguments of the call; a key ["name"] or ["self"] clashes
    with the positional arguments.  The result of a callable that
    declares [xx] is unpacked into two items. *)
Definition draw_param (name : string) (prop : Dict.t value) : M value :=
  if Dict.mem "name" prop || Dict.mem "self" prop then raise TypeError
  else
    let size := default VNone (Dict.get "size" prop) in
    let xx := default VNone (Dict.get "xx" prop) in
    let kw := Dict.remove "xx" (Dict.remove "size"
                (Dict.remove "func" prop)) in
    m <- get_self_model ;;
    model <- read m ;;
    f <- lift (_parse_input_func model name
                 (default VNone (Dict.get "func" prop))) ;;
    let func_arguments :=
      match argspec E f with Some a => a | None => ["size"] end in
    let prop1 := if mem_str "size" func_arguments
                 then [("size", size)] else [] in
    let prop2 := if mem_str "func" func_arguments && negb (is_none f)
                 then Dict.set "func" f prop1 else prop1 in
    prop3 <- (if mem_str "xx" func_arguments && negb (is_none xx) then
                xx' <- match xx with
                       | VStr src => lift (eval_r E src)
                       | _ => ret xx
                       end ;;
                ret (Dict.set "xx" xx' prop2)
              else ret prop2) ;;
    draw_ <- call f (Dict.merge prop3 kw) ;;
    if mem_str "xx" func_arguments then
      match draw_ with
      | VSeq [xx_; pdf_] => draw_from_pdf pdf_ xx_ size
      | VStr (String a (String b EmptyString)) =>
          draw_from_pdf (VStr (String b EmptyString))
                        (VStr (String a EmptyString)) size
      | VSeq _ | VStr _ => raise (ValueError "cannot unpack")
      | _ => raise TypeError
      end
    else ret draw_.

(** *** The draw loop *)

(** The loop [for k, v in inprop.items()] of [_draw], over the items
    [items] still to visit.  [shared] tells whether [inprop] is the
    kwargs dict of the entry (then every assignment is also a write to
    the document at [r]) or a fresh [{}]. *)
Fixpoint resolve_references (shared : bool) (r : nat) (name : string)
  (data : DataFrame) (items : list (string * value))
  (inprop : Dict.t value) (size : value) : M (Dict.t value * value) :=
  match items with
  | [] => ret (inprop, size)
  | (k, v) :: rest =>
      match reference_target v with
      | Some key =>
          cells <- lift (frame_values key data) ;;
          let inprop' := Dict.set k cells inprop in
          _ <- (if shared then write_kwargs r name inprop' else ret tt) ;;
          resolve_references shared r name data rest inprop' VNone
      | None => resolve_references shared r name data rest inprop size
      end
  end.

(** [data[output_name] = samples.T] *)
Definition feed (name : string) (e : entry) (samples : ndarray)
  (data : DataFrame) : outcome DataFrame :=
  match alias e with
  | AsAbsent | AsNone => setitem name samples data
  | AsStr s => setitem s samples data
  | AsList a l => setitem_list (a :: l) samples data
  end.

(** One turn of the loop [for param_name, param_model in model.items()]
    for an entry that is not skipped. *)
Definition draw_entry (r : nat) (size : value) (param_name : string)
  (param_model : entry) (data : DataFrame) : M DataFrame :=
  let shared := match kwargs param_model with
                | KwDict _ => true
                | _ => false
                end in
  let inprop0 := match kwargs param_model with
                 | KwDict d => d
                 | _ => []
                 end in
  ps <- resolve_references shared r param_name data inprop0 inprop0 size ;;
  let inprop := Dict.set "func" (func param_model) (fst ps) in
  _ <- (if shared then write_kwargs r param_name inprop else ret tt) ;;
  let prop := Dict.merge [("size", snd ps)] inprop in
  draw_ <- draw_param param_name prop ;;
  samples <- lift (asarray (np_cell E) draw_) ;;
  lift (feed param_name param_model samples data).

Fixpoint draw_loop (r : nat) (size : value)
  (limit_to_entries : option (list string))
  (items : list (string * entry)) (data : DataFrame) : M DataFrame :=
  match items with
  | [] => ret data
  | (param_name, param_model) :: rest =>
      let skip := match limit_to_entries with
                  | Some l => negb (mem_str param_name l)
                  | None => false
                  end in
      if skip then draw_loop r size limit_to_entries rest data
      else
        data' <- draw_entry r size param_name param_model data ;;
        draw_loop r size limit_to_entries rest data'
  end.

(** [size == 0] *)
Definition is_zero (size : value) : bool :=
  match size with VInt 0 => true | _ => false end.

(** [_draw(model, size, limit_to_entries, data)]; [np.hstack] of an
    empty list raises [ValueError]. *)
Definition _draw (model : nat) (size : value)
  (limit_to_entries : option (list string)) (data : option DataFrame)
  : M DataFrame :=
  r <- deepcopy model ;;
  doc <- read r ;;
  if is_zero size then
    match doc with
    | [] => raise (ValueError "need at least one array to concatenate")
    | _ :: _ =>
        ret (frame_of_columns
               (flat_map (fun ke => hstack_labels (fst ke) (snd ke)) doc))
    end
  else
    draw_loop r size limit_to_entries doc
              (match data with Some d => d | None => empty_frame end).

(** [draw(size, limit_to_entries, data, **kwargs)] *)
Definition draw (size : value) (limit_to_entries : option (list string))
  (data : option DataFrame) (kwargs : Dict.t value)
  : M DataFrame :=
  model <- get_model_call kwargs ;;
  _draw model size limit_to_entries data.

(** [[self.get_forward_entries(name_, incl_input=False)
     for name_ in name]] *)
Fixpoint forward_closures (fuel : nat) (names : list string)
  : M (list (list string)) :=
  match names with
  | [] => ret []
  | n :: names' =>
      c <- get_forward_entries fuel (One n) false ;;
      cs <- forward_closures fuel names' ;;
      ret (c :: cs)
  end.

(** [redraw_from(name, data, incl_name, size, **kwargs)]; the keyword
    arguments are not handed on to [draw].  [np.concatenate] joins the
    closures, which are lists of names. *)
Definition redraw_from (fuel : nat) (name : name_arg) (data : DataFrame)
  (incl_name : bool) (size : value)
  (kwargs : Dict.t value) : M DataFrame :=
  let names := atleast_1d name in
  limit_to_entries <-
    (if Nat.ltb 1 (length names) then
       cs <- forward_closures fuel names ;;
       let lim := np_unique (concat cs) in
       if existsb (fun n => mem_str n lim) names then raise redraw_error
       else ret (if incl_name then lim ++ names else lim)
     else get_forward_entries fuel name incl_name) ;;
  draw size (Some limit_to_entries) (Some data) [].

End Engine.

(** ** Footprint of a computation *)

(** [untouched n s s']: going from [s] to [s'] the engine still points to
    the same address, no object has disappeared, and the objects at the
    first [n] addresses are what they were. *)
Definition untouched {W : Type} (n : nat) (s s' : state W) : Prop :=
  self_model s' = self_model s
  /\ length (heap s) <= length (heap s')
  /\ forall i, i < n -> heap s' !! i = heap s !! i.

(** Calls among which the engine's own [change_model] does not occur. *)
Definition no_commit (new : list (value * Dict.t value)) : Prop :=
  Forall (fun c => fst c <> VChangeModel) new.

(** [keeps E n m Q]: started with at least [n] objects, [m] removes no
    object and only adds to the log of calls; unless one of the calls it
    adds is the engine's own [change_model], it leaves the first [n]
    objects untouched; and a value it returns satisfies [Q]. *)
Definition keeps (E : env) {A : Type} (n : nat) (m : M E A)
  (Q : A -> Prop) : Prop :=
  forall s, n <= length (heap s) ->
    length (heap s) <= length (heap (snd (m s)))
    /\ (exists new, calls (snd (m s)) = calls s ++ new
                    /\ (no_commit new -> untouched n s (snd (m s))))
    /\ match fst (m s) with Ret a => Q a | _ => True end.

(** ** The override merge, on documents *)

(** One turn of the loop of [get_model] on the document itself. *)
Definition apply_override (doc : document) (k : string) (v : value)
  : outcome document :=
  match Dict.get k doc with
  | None => Raise (KeyError k)
  | Some e =>
      match kwargs e, v with
      | KwNone, _ => Raise TypeError
      | KwAbsent, VDict d' =>
          Ret (Dict.set k (Entry (func e) (KwDict (Dict.merge [] d'))
                                 (alias e)) doc)
      | KwDict d, VDict d' =>
          Ret (Dict.set k (Entry (func e) (KwDict (Dict.merge d d'))
                                 (alias e)) doc)
      | _, _ => Raise TypeError
      end
  end.

Fixpoint apply_overrides (doc : document)
  (overrides : list (string * value)) : outcome document :=
  match overrides with
  | [] => Ret doc
  | (k, v) :: rest =>
      match apply_override doc k v with
      | Ret doc' => apply_overrides doc' rest
      | Raise e => Raise e
      | Diverge => Diverge
      end
  end.

(** ** The resolver's rules, as the specification lists them *)



(** ** Reading the dependency graph forwards *)

(** [feeds model a b]: output [b] is computed from output [a]. *)
Definition feeds (model : document) (a b : string) : Prop :=
  refers_to model b a.

Arguments ret {E A} a.
Arguments raise {E A} e.
Arguments bind {E A B} m k.
Arguments lift {E A} o.

(** ** A concrete engine, for evaluating the model *)

Module Demo.

(** A callable draws from a counter that stands for the random
    generator: with an integer [size] it returns that many copies of the
    counter, with an array under ["loc"] one copy per cell of the array,
    otherwise a scalar; every call advances the counter. *)
Definition sample (f : value) (kw : Dict.t value) (w : nat)
  : outcome value * nat :=
  let x := VInt (Z.of_nat w) in
  match Dict.get "size" kw, Dict.get "loc" kw with
  | Some (VInt k), _ => (Ret (VSeq (repeat x (Z.to_nat k))), S w)
  | _, Some (VSeq l) => (Ret (VSeq (map (fun _ => x) l)), S w)
  | _, _ => (Ret x, S w)
  end.

(** The engine has no attribute of its own beyond those of the class;
    its owner has [draw_t0]; ["np.random.uniform"] evaluates to
    callable 1; [inspect] knows the arguments of callable 2 and those of
    the bound method [change_model], which are [["self"]]. *)
Definition E : env :=
  {| world := nat;
     self_attr := fun _ => inr None;
     obj_attr := fun a => if String.eqb a "draw_t0" then inr (Some (VFun 7))
                          else inr None;
     py_eval := fun _ src => if String.eqb src "np.random.uniform"
                             then Some (VFun 1) else None;
     argspec := fun f => match f with
                         | VFun 2 => Some ["loc"; "scale"; "size"]
                         | VChangeModel => Some ["self"]
                         | _ => None
                         end;
     invoke := sample;
     eval_r := fun _ => Raise (ValueError "np.r_");
     np_cell := fun _ x => x;
     weighted_choice := fun _ _ _ w => (Raise (ValueError "choice"), w) |}.

(** The engine holding [model] as its only document. *)
Definition engine (model : document) : state nat :=
  State [model] 0 [] 0.

(** [{"a": {"func": f1, "kwargs": {"low": 0, "high": 1}}}] *)
Definition model_a : document :=
  [("a", Entry (VFun 1) (KwDict [("low", VInt 0); ("high", VInt 1)])
               AsAbsent)].

(** [{"a": {"func": f1, "kwargs": {}, "as": "x"}}] *)
Definition model_alias : document :=
  [("a", Entry (VFun 1) (KwDict []) (AsStr "x"))].

(** [{"a": {"func": f1, "as": None}}] *)
Definition model_as_none : document :=
  [("a", Entry (VFun 1) KwAbsent AsNone)].

(** [{"a": {"func": f1}}] *)
Definition model_plain : document :=
  [("a", Entry (VFun 1) KwAbsent AsAbsent)].

(** [{"a": {"func": f1, "kwargs": {}},
      "b": {"func": f2, "kwargs": {"loc": "@a", "scale": 1}},
      "c": {"func": f2, "kwargs": {"loc": "@b"}}}] *)
Definition model_abc : document :=
  [("a", Entry (VFun 1) (KwDict []) AsAbsent);
   ("b", Entry (VFun 2) (KwDict [("loc", VStr "@a"); ("scale", VInt 1)])
               AsAbsent);
   ("c", Entry (VFun 2) (KwDict [("loc", VStr "@b")]) AsAbsent)].

(** a table with the single column ["x"] holding 7, 7, 7 *)
Definition data_x : DataFrame :=
  Frame 3 [(LStr "x", [VInt 7; VInt 7; VInt 7])].

(** a table with columns [a], [b] and [c] and three rows *)
Definition data_abc : DataFrame :=
  Frame 3 [(LStr "a", [VInt 7; VInt 7; VInt 7]);
           (LStr "b", [VInt 8; VInt 8; VInt 8]);
           (LStr "c", [VInt 9; VInt 9; VInt 9])].

(** the position of the entries of [model_abc] *)
Definition rank_abc (x : string) : nat :=
  if String.eqb x "a" then 0 else if String.eqb x "b" then 1 else 2.

End Demo.

(** ** Inspection of the entries' functions *)

(** What [get_func_parameters] records for one entry: the argument names
    of its function, or [valdefault] when inspection fails. *)
Inductive inspection : Type :=
| Args (names : list string)
| Unknown (valdefault : value).

(** The loop of [get_func_parameters]:
    [func = self._parse_input_func(name=k, func=m.get("func", None))],
    then the argument names or [valdefault], stored under [k]. *)
Fixpoint inspect_entries (E : env) (model : document) (valdefault : value)
  (items : list (string * entry)) (inspected : Dict.t inspection)
  : outcome (Dict.t inspection) :=
  match items with
  | [] => Ret inspected
  | (k, m) :: rest =>
      match _parse_input_func E model k (func m) with
      | Ret f =>
          inspect_entries E model valdefault rest
            (Dict.set k (match argspec E f with
                         | Some a => Args a
                         | None => Unknown valdefault
                         end) inspected)
      | Raise e => Raise e
      | Diverge => Diverge
      end
  end.

(** [get_func_parameters(valdefault)] *)
Definition get_func_parameters (E : env) (valdefault : value)
  : M E (Dict.t inspection) :=
  bind (get_self_model E) (fun m =>
  bind (read E m) (fun model =>
  lift (inspect_entries E model valdefault model []))).

(** ** Export to a graph library *)

(** The object [to_graph] builds: [nx.Graph()] or
    [pgv.AGraph(directed=True, strict=True)]. *)
Inductive graph_kind : Type :=
| Networkx
| Graphviz.

(** The calls [to_graph] makes on that object, in order. *)
Inductive graph_call : Type :=
| AddNode (name : string)
| AddEdge (name to_name : string).

(** Body of [to_graph(engine)] on the model document: the kind of graph
    and the calls made on it ([inr]), or the message of the
    [NotImplementedError] for an engine it does not know ([inl]).  The
    nodes are [self.entries], the edges the items of
    [self.entry_inputof]. *)
Definition to_graph (engine : string) (model : document)
  : string + outcome (graph_kind * list graph_call) :=
  let kind :=
    if String.eqb engine "networkx" then Some Networkx
    else if mem_str engine ["graphviz"; "pygraphviz"] then Some Graphviz
    else None in
  match kind with
  | None =>
      inl ("engine " ++ engine
           ++ " is not implemented. networkx and graphviz are")%string
  | Some k =>
      inr (match entries model with
           | Ret names =>
               match get_modeldf model with
               | Ret rows =>
                   Ret (k, map AddNode names
                           ++ map (fun p => AddEdge (fst p) (snd p))
                                  (entry_inputof rows))
               | Raise e => Raise e
               | Diverge => Diverge
               end
           | Raise e => Raise e
           | Diverge => Diverge
           end)
  end.

(** ** Documents as Python has them *)

(** The keys of a dict are pairwise different. *)
Definition unique_keys {V : Type} (d : Dict.t V) : Prop :=
  List.NoDup (map fst d).

(** A document whose entry names, and the parameter names of each
    kwargs, are pairwise different. *)
Definition well_keyed (model : document) : Prop :=
  unique_keys model
  /\ forall name e d, In (name, e) model -> kwargs e = KwDict d ->
                      unique_keys d.

(** A document in which every entry gives its function as a callable
    from outside the module, not as a name to resolve. *)
Definition given_callables (model : document) : Prop :=
  forall name e, In (name, e) model -> exists f, func e = VFun f.

(** ** What a computation shows to the outside *)

(** Two states with the same log of calls and the same world. *)
Definition same_outside {W : Type} (s1 s2 : state W) : Prop :=
  calls s1 = calls s2 /\ outside s1 = outside s2.

(** [alike E m1 m2]: run from states with the same log and world, [m1]
    and [m2] end with the same outcome, log and world, whatever the
    store holds. *)
Definition alike (E : env) {A : Type} (m1 m2 : M E A) : Prop :=
  forall s1 s2, same_outside s1 s2 ->
    fst (m1 s1) = fst (m2 s2)
    /\ same_outside (snd (m1 s1)) (snd (m2 s2)).

(** ** Further example documents *)

Module Examples.

(** [{"a": {"func": f1, "kwargs": {"loc": "@b"}},
      "b": {"func": f1, "kwargs": {"loc": "@a"}}}] *)
Definition model_loop : document :=
  [("a", Entry (VFun 1) (KwDict [("loc", VStr "@b")]) AsAbsent);
   ("b", Entry (VFun 1) (KwDict [("loc", VStr "@a")]) AsAbsent)].

(** [{"a": {"func": f1, "kwargs": {}},
      "b": {"func": f2, "kwargs": {"loc": "@a"}},
      "c": {"func": f2, "kwargs": {"loc": "@a"}},
      "d": {"func": f2, "kwargs": {"loc": "@b", "scale": "@c"}}}] *)
Definition model_diamond : document :=
  [("a", Entry (VFun 1) (KwDict []) AsAbsent);
   ("b", Entry (VFun 2) (KwDict [("loc", VStr "@a")]) AsAbsent);
   ("c", Entry (VFun 2) (KwDict [("loc", VStr "@a")]) AsAbsent);
   ("d", Entry (VFun 2) (KwDict [("loc", VStr "@b"); ("scale", VStr "@c")])
               AsAbsent)].

(** [{"t0": {"kwargs": {}}, "u": {"func": "np.random.uniform"}}] *)
Definition model_named : document :=
  [("t0", Entry VNone (KwDict []) AsAbsent);
   ("u", Entry (VStr "np.random.uniform") KwAbsent AsAbsent)].

(** [{"a": {"func": "nowhere", "kwargs": {}}}] *)
Definition model_unresolved : document :=
  [("a", Entry (VStr "nowhere") (KwDict []) AsAbsent)].

(** [{"xy": {"func": f1, "kwargs": {}, "as": ["x", "y"]},
      "z": {"func": f2, "kwargs": {"loc": "@y"}, "as": "x"}}] *)
Definition model_shared_alias : document :=
  [("xy", Entry (VFun 1) (KwDict []) (AsList "x" ["y"]));
   ("z", Entry (VFun 2) (KwDict [("loc", VStr "@y")]) (AsStr "x"))].


(** [{"a": {"func": f1}, "b": {"func": f1}}] *)
Definition model_independent : document :=
  [("a", Entry (VFun 1) KwAbsent AsAbsent);
   ("b", Entry (VFun 1) KwAbsent AsAbsent)].

(** [{"a": {"func": "entries"}}] *)
Definition model_by_name : document :=
  [("a", Entry (VStr "entries") KwAbsent AsAbsent)].

(** [{"a": {"func": f1, "kwargs": None}}] *)
Definition model_kwargs_none : document :=
  [("a", Entry (VFun 1) KwNone AsAbsent)].

End Examples.

(** * Properties *)

(** ** The reference syntax *)

Section ReferenceFacts.

Lemma contains_char_decompose (c : ascii) (s : string) :
  contains_char c s = true <->
  exists pre post, s = (pre ++ String c post)%string.
Proof.
  induction s as [|a s IH]; simpl.
  - split; [discriminate|].
    intros [[|? ?] [post H]]; discriminate.
  - destruct (Ascii.eqb_spec a c) as [->|Hne].
    + split; [|reflexivity].
      intros _. exists EmptyString, s. reflexivity.
    + rewrite IH. split.
      * intros (pre & post & ->). exists (String a pre), post. reflexivity.
      * intros ([|b pre] & post & H); simpl in H; inversion H; subst.
        -- congruence.
        -- eauto.
Qed.

Lemma contains_char_append (c : ascii) (s t : string) :
  contains_char c (s ++ t)%string = contains_char c s || contains_char c t.
Proof.
  induction s as [|a s IH]; simpl; [reflexivity|].
  destruct (Ascii.eqb a c); auto.
Qed.

Lemma split_not_nil (sep : ascii) (s : string) : split sep s <> [].
Proof.
  destruct s as [|a s]; simpl; [discriminate|].
  destruct (Ascii.eqb a sep); [discriminate|].
  destruct (split sep s); discriminate.
Qed.

Lemma split_without_sep (sep : ascii) (s : string) :
  contains_char sep s = false -> split sep s = [s].
Proof.
  induction s as [|a s IH]; simpl; [reflexivity|].
  destruct (Ascii.eqb a sep); [discriminate|].
  intros H. rewrite (IH H). reflexivity.
Qed.

(** Splitting at a separator that is known to occur: the pieces after the
    separator are those of the remainder. *)
Lemma split_at_sep (sep : ascii) (pre t : string) :
  exists l, l <> []
            /\ split sep (pre ++ String sep t)%string = l ++ split sep t.
Proof.
  induction pre as [|a pre (l & Hl & IH)]; simpl.
  - rewrite Ascii.eqb_refl. exists [EmptyString].
    split; [discriminate|reflexivity].
  - destruct (Ascii.eqb a sep).
    + exists (EmptyString :: l). split; [discriminate|].
      rewrite IH. reflexivity.
    + rewrite IH. destruct l as [|h l]; [congruence|].
      exists (String a h :: l). split; [discriminate|reflexivity].
Qed.

Lemma last_split_after (sep : ascii) (pre t : string) :
  List.last (split sep (pre ++ String sep t)%string) EmptyString =
  List.last (split sep t) EmptyString.
Proof.
  destruct (split_at_sep sep pre t) as (l & _ & ->).
  pose proof (split_not_nil sep t) as Hne.
  induction l as [|x l IH]; [reflexivity|].
  simpl. destruct (l ++ split sep t) eqn:Heq; [|exact IH].
  destruct l; simpl in Heq; congruence.
Qed.

Lemma split_first_piece (sep : ascii) (tok r : string) :
  contains_char sep tok = false ->
  split sep (tok ++ String sep r)%string = tok :: split sep r.
Proof.
  induction tok as [|a tok IH]; simpl.
  - intros _. rewrite Ascii.eqb_refl. reflexivity.
  - destruct (Ascii.eqb a sep); [discriminate|].
    intros H. rewrite (IH H). reflexivity.
Qed.

Lemma append_empty_r (s : string) : (s ++ EmptyString)%string = s.
Proof. induction s as [|a s IH]; simpl; congruence. Qed.

(** The name taken from a reference string: the text after the last ["@"]
    up to the first space. *)
Lemma ref_name_token (pre tok rest : string) :
  contains_char "@" tok = false ->
  contains_char " " tok = false ->
  contains_char "@" rest = false ->
  (rest = EmptyString \/ exists r, rest = String " " r) ->
  ref_name (pre ++ String "@" (tok ++ rest))%string = tok.
Proof.
  intros Htok Hsp Hrest Hshape. unfold ref_name.
  assert (Hfree : contains_char "@" (tok ++ rest)%string = false)
    by (rewrite contains_char_append, Htok, Hrest; reflexivity).
  rewrite last_split_after, (split_without_sep _ _ Hfree).
  simpl. destruct Hshape as [->|[r ->]].
  - rewrite append_empty_r, split_without_sep by assumption. reflexivity.
  - rewrite split_first_piece by assumption. reflexivity.
Qed.

End ReferenceFacts.

(** C4, as amended.  A kwargs value is a dependency reference exactly when
    it is a string in which ["@"] occurs.  The referenced name is the text
    after the last ["@"] up to the first space character (a tab or a line
    break does not end it): for a string [pre @ tok rest] in which [tok]
    has neither ["@"] nor a space, and [rest] is empty or begins with a
    space and has no ["@"], the name is [tok].  Any other value is a
    literal: it refers to nothing, and the draw loop passes over it
    without touching the entry's arguments. *)
Theorem reference_rule (E : env) (v : value) (pre tok rest : string) :
  contains_char "@" tok = false ->
  contains_char " " tok = false ->
  contains_char "@" rest = false ->
  (rest = EmptyString \/ exists r, rest = String " " r) ->
  (is_reference v = true <->
   exists s p q, v = VStr s /\ s = (p ++ String "@" q)%string)
  /\ (is_reference v = true ->
      exists s, v = VStr s /\ reference_target v = Some (ref_name s))
  /\ reference_target (VStr (pre ++ String "@" (tok ++ rest))) = Some tok
  /\ (is_reference v = false ->
      reference_target v = None
      /\ forall shared r name data k items inprop size,
          resolve_references E shared r name data ((k, v) :: items)
                             inprop size
          = resolve_references E shared r name data items inprop size).
Proof.
  intros Htok Hsp Hrest Hshape. repeat split.
  - destruct v; simpl; try discriminate.
    intros H. apply contains_char_decompose in H as (p & q & ->). eauto.
  - intros (s & p & q & -> & ->). simpl.
    apply contains_char_decompose. eauto.
  - destruct v; simpl; try discriminate.
    intros H. rewrite H. eauto.
  - simpl.
    assert (Hin : contains_char "@" (pre ++ String "@" (tok ++ rest)) = true)
      by (apply contains_char_decompose; eauto).
    rewrite Hin, ref_name_token by assumption. reflexivity.
  - destruct v; simpl in *; try reflexivity. rewrite H. reflexivity.
  - intros. assert (Hnone : reference_target v = None)
      by (destruct v; simpl in *; try reflexivity; rewrite H; reflexivity).
    simpl. rewrite Hnone. reflexivity.
Qed.

(** The reference ["x@a b"] names [a]; the number 5 is a literal. *)
Lemma reference_rule_witness :
  reference_target (VStr "x@a b") = Some "a"
  /\ reference_target (VInt 5) = None.
Proof.
  pose proof (reference_rule Demo.E (VInt 5) "x" "a" " b"
                eq_refl eq_refl eq_refl (or_intror (ex_intro _ "b" eq_refl)))
    as (_ & _ & Hname & Hlit).
  split; [exact Hname | exact (proj1 (Hlit eq_refl))].
Defined.

(** C4, as first stated, fails: in ["@a<TAB>b"] the tab does not end the
    name.  The code extracts ["a<TAB>b"], where ending the token at the
    first whitespace character gives ["a"]. *)
Lemma reference_name_not_ended_by_tab :
  is_reference (VStr tab_reference) = true
  /\ reference_target (VStr tab_reference)
     = Some (String "a" (String (ascii_of_nat 9) (String "b" EmptyString)))
  /\ whitespace_ref_name tab_reference = "a"
  /\ reference_target (VStr tab_reference)
     <> Some (whitespace_ref_name tab_reference).
Proof. repeat split; discriminate. Qed.

(** ** The function resolver *)






(** ** The frontier expansion of the closure methods *)

Section ExpandFacts.
Variable series : list (string * string).

(** the edge relation of a series: index to value *)
Let edge (a b : string) : Prop := In (a, b) series.

Lemma mem_str_In (x : string) (l : list string) :
  mem_str x l = true <-> In x l.
Proof.
  unfold mem_str. rewrite existsb_exists. split.
  - intros (y & Hy & Heq). apply String.eqb_eq in Heq. subst. exact Hy.
  - intros H. exists x. split; [exact H | apply String.eqb_refl].
Qed.

Lemma loc_isin_In (names : list string) (y : string) :
  In y (loc_isin series names) <-> exists x, In x names /\ edge x y.
Proof.
  unfold loc_isin, edge. rewrite in_map_iff. split.
  - intros ([x y'] & Hy & Hin). simpl in Hy. subst y'.
    apply filter_In in Hin as [Hin Hmem]. simpl in Hmem.
    apply mem_str_In in Hmem. eauto.
  - intros (x & Hx & Hin). exists (x, y). split; [reflexivity|].
    apply filter_In. split; [exact Hin|]. simpl. apply mem_str_In, Hx.
Qed.

Lemma loc_isin_nil : loc_isin series [] = [].
Proof.
  unfold loc_isin. induction series as [|p l IH]; simpl; [reflexivity|].
  exact IH.
Qed.

Lemma frontier_nil (k : nat) : frontier series k [] = [].
Proof.
  induction k as [|k IH]; simpl; [reflexivity|].
  rewrite loc_isin_nil. exact IH.
Qed.

Lemma frontier_plus (j k : nat) (S : list string) :
  frontier series (j + k) S = frontier series k (frontier series j S).
Proof.
  revert S. induction j as [|j IH]; intros S; simpl; [reflexivity|].
  apply IH.
Qed.

Lemma frontier_mono (k : nat) (S S' : list string) :
  incl S S' -> incl (frontier series k S) (frontier series k S').
Proof.
  revert S S'. induction k as [|k IH]; intros S S' Hincl; simpl; [exact Hincl|].
  apply IH. intros y Hy. apply loc_isin_In in Hy as (x & Hx & He).
  apply loc_isin_In. eauto.
Qed.

(** Once the frontier is empty it stays empty. *)
Lemma frontier_empty_later (n m : nat) (S : list string) :
  frontier series n S = [] -> n <= m -> frontier series m S = [].
Proof.
  intros Hn Hle. replace m with (n + (m - n)) by lia.
  rewrite frontier_plus, Hn. apply frontier_nil.
Qed.

(** What the loop returns: the start list, followed by every frontier. *)
Lemma expand_In (fuel : nat) (leads acc l : list string) :
  expand fuel series leads acc = Ret l ->
  forall x, In x l <-> In x acc \/ exists k, In x (frontier series k leads).
Proof.
  revert leads acc. induction fuel as [|fuel IH]; intros leads acc Hret x.
  - destruct leads; simpl in Hret; [|discriminate].
    inversion Hret; subst. split; [auto|].
    intros [H|[k H]]; [exact H|]. rewrite frontier_nil in H. destruct H.
  - destruct leads as [|y leads]; simpl in Hret.
    + inversion Hret; subst. split; [auto|].
      intros [H|[k H]]; [exact H|]. rewrite frontier_nil in H. destruct H.
    + rewrite (IH _ _ Hret x), in_app_iff. split.
      * intros [[H|H]|[k H]]; [auto | right; exists 0; exact H
                               | right; exists (S k); exact H].
      * intros [H|[[|k] H]]; [auto | auto | right; exists k; exact H].
Qed.

(** The loop returns only after the frontier has become empty. *)
Lemma expand_ret_empty (fuel : nat) (leads acc l : list string) :
  expand fuel series leads acc = Ret l ->
  exists n, n <= fuel /\ frontier series n leads = [].
Proof.
  revert leads acc. induction fuel as [|fuel IH]; intros leads acc Hret.
  - destruct leads; [|discriminate]. exists 0. split; [lia|reflexivity].
  - destruct leads as [|y leads].
    + exists 0. split; [lia|reflexivity].
    + simpl in Hret. apply IH in Hret as (n & Hn & He).
      exists (S n). split; [lia|exact He].
Qed.

(** With fuel for every non-empty frontier the loop returns. *)
Lemma expand_returns (fuel n : nat) (leads acc : list string) :
  frontier series n leads = [] -> n <= fuel ->
  exists l, expand fuel series leads acc = Ret l.
Proof.
  revert n leads acc. induction fuel as [|fuel IH]; intros n leads acc He Hle.
  - assert (n = 0) by lia. subst. simpl in He. subst. simpl. eauto.
  - destruct leads as [|y leads]; simpl; [eauto|].
    destruct n as [|n]; [discriminate|]. simpl in He.
    apply (IH n); [exact He|lia].
Qed.

(** A name that comes back in one of its own frontiers keeps coming back:
    the loop started from it never returns. *)
Lemma frontier_recurs (x : string) (j : nat) :
  In x (frontier series j [x]) ->
  forall m, In x (frontier series (m * j) [x]).
Proof.
  intros Hx. induction m as [|m IH]; simpl; [auto|].
  rewrite frontier_plus.
  apply (frontier_mono (m * j) [x]); [|exact IH].
  intros y [<-|[]]. exact Hx.
Qed.

Lemma not_in_own_closure (fuel : nat) (x : string) (l : list string) :
  expand fuel series (loc_isin series [x]) [] = Ret l -> ~ In x l.
Proof.
  intros Hret Hin.
  apply (expand_In _ _ _ _ Hret) in Hin as [[]|[k Hk]].
  apply expand_ret_empty in Hret as (n & _ & Hn).
  change (In x (frontier series (S k) [x])) in Hk.
  pose proof (frontier_recurs x (S k) Hk (S n)) as Hrec.
  rewrite (frontier_empty_later (S n) (S n * S k) [x]) in Hrec.
  - destruct Hrec.
  - exact Hn.
  - nia.
Qed.

End ExpandFacts.

(** ** Paths in the reference graph *)

Lemma last_cons (a d : string) (l : list string) :
  List.last (a :: l) d = List.last l a.
Proof.
  destruct l as [|b l]; [reflexivity|].
  change (List.last (b :: l) d = List.last (b :: l) a).
  revert b. induction l as [|c l IH]; intros b; [reflexivity|].
  change (List.last (c :: l) d = List.last (c :: l) a). apply IH.
Qed.

Lemma chain_app (R : string -> string -> Prop) (x : string)
  (p q : list string) :
  chain R x (p ++ q) <-> chain R x p /\ chain R (List.last p x) q.
Proof.
  revert x. induction p as [|y p IH]; intros x.
  - simpl. tauto.
  - rewrite last_cons. simpl. rewrite IH. tauto.
Qed.

Section ChainFacts.
Variable R : string -> string -> Prop.

Lemma chain_ext (R' : string -> string -> Prop) (x : string)
  (p : list string) :
  (forall a b, R a b -> R' a b) -> chain R x p -> chain R' x p.
Proof.
  intros Hsub. revert x. induction p as [|y p IH]; intros x; simpl; [auto|].
  intros [Hxy Hp]. auto.
Qed.

(** A path read backwards is a path of the converse relation. *)
Lemma chain_reverse (x y : string) (p : list string) :
  chain R x p -> List.last p x = y ->
  exists q, length q = length p
            /\ chain (fun a b => R b a) y q /\ List.last q y = x.
Proof.
  revert x. induction p as [|z p IH]; intros x Hp Hlast.
  - simpl in Hlast. subst. exists []. simpl. auto.
  - rewrite last_cons in Hlast. destruct Hp as [Hxz Hp].
    destruct (IH z Hp Hlast) as (q & Hlen & Hq & Hz).
    exists (q ++ [x]). split; [|split].
    + rewrite length_app. simpl. lia.
    + apply chain_app. split; [exact Hq|]. rewrite Hz. simpl. auto.
    + apply last_last.
Qed.

Lemma reaches_reverse (x y : string) :
  reaches R x y -> reaches (fun a b => R b a) y x.
Proof.
  intros (p & Hne & Hp & Hlast).
  destruct (chain_reverse x y p Hp Hlast) as (q & Hlen & Hq & Hx).
  exists q. split; [|auto].
  destruct q; [|discriminate]. destruct p; [congruence|discriminate].
Qed.

(** Without cycles a path never visits a node twice. *)
Lemma chain_NoDup (x : string) (p : list string) :
  (forall z, ~ reaches R z z) -> chain R x p -> List.NoDup p.
Proof.
  intros Hacyc. revert x. induction p as [|y p IH]; intros x Hp.
  - apply List.NoDup_nil.
  - destruct Hp as [_ Hp]. apply List.NoDup_cons; [|exact (IH y Hp)].
    intros Hin. apply in_split in Hin as (p1 & p2 & ->).
    apply (Hacyc y). exists (p1 ++ [y]). split; [|split].
    + destruct p1; discriminate.
    + change (p1 ++ y :: p2) with (p1 ++ [y] ++ p2) in Hp.
      rewrite app_assoc in Hp. apply chain_app in Hp. tauto.
    + apply last_last.
Qed.

End ChainFacts.

Section SeriesPaths.
Variable series : list (string * string).

Let edge (a b : string) : Prop := In (a, b) series.

(** The frontier after [k] turns holds the ends of the paths of [k]
    edges that leave the start names. *)
Lemma frontier_chain (k : nat) (S : list string) (y : string) :
  In y (frontier series k S) <->
  exists x p, In x S /\ length p = k /\ chain edge x p
              /\ List.last p x = y.
Proof.
  revert S. induction k as [|k IH]; intros S; simpl.
  - split.
    + intros H. exists y, []. simpl. auto.
    + intros (x & p & Hx & Hlen & _ & Hlast).
      destruct p; [|discriminate]. simpl in Hlast. subst. exact Hx.
  - rewrite IH. split.
    + intros (x' & p & Hx' & Hlen & Hp & Hlast).
      apply loc_isin_In in Hx' as (x & Hx & He).
      exists x, (x' :: p). rewrite last_cons. simpl. auto.
    + intros (x & p & Hx & Hlen & Hp & Hlast).
      destruct p as [|x' p]; [discriminate|].
      rewrite last_cons in Hlast. destruct Hp as [He Hp].
      exists x', p. split; [|auto].
      apply loc_isin_In. eauto.
Qed.

Lemma chain_targets (x : string) (p : list string) :
  chain edge x p -> incl p (map snd series).
Proof.
  revert x. induction p as [|y p IH]; intros x Hp z Hz; [destruct Hz|].
  destruct Hp as [He Hp]. destruct Hz as [<-|Hz].
  - apply in_map_iff. exists (x, y). auto.
  - exact (IH y Hp z Hz).
Qed.

(** In a series without cycles no path has more edges than the series
    has rows, so the frontier is empty after that many turns. *)
Lemma frontier_exhausted (S : list string) :
  (forall z, ~ reaches edge z z) ->
  frontier series (Datatypes.S (length series)) S = [].
Proof.
  intros Hacyc.
  destruct (frontier series (Datatypes.S (length series)) S) as [|y l] eqn:Hf;
    [reflexivity|].
  assert (Hin : In y (frontier series (Datatypes.S (length series)) S))
    by (rewrite Hf; left; reflexivity).
  apply frontier_chain in Hin as (x & p & _ & Hlen & Hp & _).
  pose proof (List.NoDup_incl_length (chain_NoDup edge x p Hacyc Hp)
                (chain_targets x p Hp)) as Hle.
  rewrite length_map in Hle. lia.
Qed.

End SeriesPaths.

(** ** The dependency index against the document *)

Lemma In_omap {A B : Type} (f : A -> option B) (l : list A) (y : B) :
  In y (omap f l) <-> exists x, In x l /\ f x = Some y.
Proof.
  rewrite <- list_elem_of_In, list_elem_of_omap.
  split; intros (x & Hx & Hf); exists x; split; try exact Hf;
    apply list_elem_of_In; exact Hx.
Qed.

Lemma explode_input_In (l : list string) (i : string) :
  In (Some i) (explode_input l) <-> In i l.
Proof.
  destruct l as [|x l]; simpl.
  - split; [intros [H|[]]; discriminate | tauto].
  - split.
    + intros [H|H]; [inversion H; auto|].
      apply in_map_iff in H as (z & Hz & Hin). inversion Hz; subst. auto.
    + intros [->|H]; [auto|]. right. apply in_map_iff. eauto.
Qed.

(** The rows of [entry_dependencies.dropna()] are the references of the
    document: label [b] has input [a] exactly when [b] refers to [a]. *)
Lemma depends_on_refers_to (model : document) (rows : list modeldf_row)
  (b a : string) :
  get_modeldf model = Ret rows ->
  In (b, a) (depends_on rows) <-> refers_to model b a.
Proof.
  unfold get_modeldf. destruct (has_kwargs_column model); [|discriminate].
  intros Hrows. inversion Hrows; subst rows; clear Hrows.
  unfold depends_on, refers_to. rewrite In_omap. split.
  - intros ([b' [i|]] & Hin & Hsome); simpl in Hsome; [|discriminate].
    inversion Hsome; subst; clear Hsome.
    apply in_flat_map in Hin as ([name e] & Hmodel & Hin). simpl in Hin.
    apply in_flat_map in Hin as (lbl & Hlbl & Hin).
    apply in_map_iff in Hin as (i & Heq & Hi). inversion Heq; subst.
    apply explode_input_In in Hi. eauto.
  - intros (name & e & Hmodel & Hlbl & Hin).
    exists (b, Some a). split; [|reflexivity].
    apply in_flat_map. exists (name, e). split; [exact Hmodel|]. simpl.
    apply in_flat_map. exists b. split; [exact Hlbl|].
    apply in_map_iff. exists (Some a). split; [reflexivity|].
    apply explode_input_In, Hin.
Qed.

(** The rows of [entry_inputof] are the same references read forwards. *)
Lemma entry_inputof_feeds (model : document) (rows : list modeldf_row)
  (a b : string) :
  get_modeldf model = Ret rows ->
  In (a, b) (entry_inputof rows) <-> feeds model a b.
Proof.
  intros Hrows. unfold entry_inputof, feeds.
  rewrite <- (depends_on_refers_to model rows b a Hrows), in_map_iff. split.
  - intros ([b' a'] & Heq & Hin). simpl in Heq. inversion Heq; subst. exact Hin.
  - intros Hin. exists (b, a). auto.
Qed.

Lemma acyclic_feeds (model : document) :
  acyclic model -> forall z, ~ reaches (feeds model) z z.
Proof.
  intros Hacyc z Hz. apply (Hacyc z).
  apply (reaches_reverse (feeds model) z z Hz).
Qed.

(** What a closure method returns when started from one name, over any
    series whose rows are the edges of [R]: the name itself (when asked
    for) and the names reached from it. *)
Lemma expand_reaches (series : list (string * string))
  (R : string -> string -> Prop) (fuel : nat) (a : string)
  (acc l : list string) :
  (forall x y, In (x, y) series <-> R x y) ->
  expand fuel series (loc_isin series [a]) acc = Ret l ->
  forall b, In b l <-> In b acc \/ reaches R a b.
Proof.
  intros Hedge Hret b. rewrite (expand_In series _ _ _ _ Hret b).
  apply or_iff_compat_l. split.
  - intros [k Hk]. change (In b (frontier series (S k) [a])) in Hk.
    apply frontier_chain in Hk as (x & p & [<-|[]] & Hlen & Hp & Hlast).
    exists p. split; [destruct p; discriminate|]. split; [|exact Hlast].
    apply (chain_ext _ R a p) in Hp; [exact Hp|]. intros; apply Hedge; auto.
  - intros (p & Hne & Hp & Hlast).
    destruct p as [|y p]; [congruence|]. exists (length p).
    change (In b (frontier series (S (length p)) [a])).
    apply frontier_chain. exists a, (y :: p).
    split; [left; reflexivity|]. split; [reflexivity|]. split; [|exact Hlast].
    apply (chain_ext R); [|exact Hp]. intros; apply Hedge; auto.
Qed.

(** For an acyclic document that has a kwargs column, both closure
    methods return once the fuel exceeds the number of references, and
    they return the start name together with exactly the names reached
    from it: forwards through the entries that consume it, backwards
    through the entries it refers to. *)
Theorem closures_of_acyclic_document (model : document) (a : string) :
  has_kwargs_column model = true ->
  acyclic model ->
  exists fuel, forall fuel', fuel <= fuel' ->
    (exists l, forward_entries fuel' model (One a) true = Ret l
               /\ forall b, In b l <-> b = a \/ reaches (feeds model) a b)
    /\ (exists l, backward_entries fuel' model (One a) true = Ret l
                  /\ forall b, In b l
                               <-> b = a \/ reaches (refers_to model) a b).
Proof.
  intros Hcol Hacyc.
  destruct (get_modeldf model) as [rows| |] eqn:Hrows;
    try (unfold get_modeldf in Hrows; rewrite Hcol in Hrows; discriminate).
  exists (S (length (depends_on rows))). intros fuel' Hfuel.
  unfold forward_entries, backward_entries. rewrite Hrows. simpl. split.
  - destruct (expand_returns (entry_inputof rows) fuel'
                (S (length (entry_inputof rows)))
                (loc_isin (entry_inputof rows) [a]) [a]) as [l Hl].
    + apply frontier_exhausted. intros z Hz.
      apply (acyclic_feeds model Hacyc z).
      destruct Hz as (p & Hne & Hp & Hlast). exists p. split; [exact Hne|].
      split; [|exact Hlast].
      apply (chain_ext _ (feeds model) z p) in Hp; [exact Hp|].
      intros x y. apply (entry_inputof_feeds model rows x y Hrows).
    + unfold entry_inputof. rewrite length_map. exact Hfuel.
    + exists l. split; [exact Hl|]. intros b.
      rewrite (expand_reaches _ (feeds model) _ _ _ _
                 (fun x y => entry_inputof_feeds model rows x y Hrows) Hl b).
      simpl. intuition congruence.
  - destruct (expand_returns (depends_on rows) fuel'
                (S (length (depends_on rows)))
                (loc_isin (depends_on rows) [a]) [a]) as [l Hl].
    + apply frontier_exhausted. intros z Hz. apply (Hacyc z).
      destruct Hz as (p & Hne & Hp & Hlast). exists p. split; [exact Hne|].
      split; [|exact Hlast].
      apply (chain_ext _ (refers_to model) z p) in Hp; [exact Hp|].
      intros x y. apply (depends_on_refers_to model rows x y Hrows).
    + exact Hfuel.
    + exists l. split; [exact Hl|]. intros b.
      rewrite (expand_reaches _ (refers_to model) _ _ _ _
                 (fun x y => depends_on_refers_to model rows x y Hrows) Hl b).
      simpl. intuition congruence.
Qed.

(** ** What the methods write *)

Section Footprint.
Context (E : env).

Lemma untouched_refl {W : Type} (n : nat) (s : state W) : untouched n s s.
Proof. unfold untouched. auto. Qed.


Lemma untouched_trans {W : Type} (n : nat) (s1 s2 s3 : state W) :
  untouched n s1 s2 -> untouched n s2 s3 -> untouched n s1 s3.
Proof.
  intros (Hm1 & Hl1 & Hp1) (Hm2 & Hl2 & Hp2). split; [congruence|].
  split; [lia|]. intros i Hi. rewrite Hp2, Hp1 by assumption. reflexivity.
Qed.

(** A computation that leaves the log alone and the first [n] objects
    untouched. *)
Lemma keeps_quiet {A : Type} (n : nat) (m : M E A) (Q : A -> Prop) :
  (forall s, n <= length (heap s) ->
     calls (snd (m s)) = calls s
     /\ untouched n s (snd (m s))
     /\ match fst (m s) with Ret a => Q a | _ => True end) ->
  keeps E n m Q.
Proof.
  intros H s Hs. destruct (H s Hs) as (Hc & Hu & HQ).
  split; [exact (proj1 (proj2 Hu))|]. split; [|exact HQ].
  exists []. rewrite app_nil_r. auto.
Qed.

Lemma keeps_ret {A : Type} (n : nat) (a : A) (Q : A -> Prop) :
  Q a -> keeps E n (ret a) Q.
Proof.
  intros HQ. apply keeps_quiet. intros s _. simpl.
  split; [reflexivity|]. split; [apply untouched_refl | exact HQ].
Qed.

Lemma keeps_raise {A : Type} (n : nat) (e : exn) (Q : A -> Prop) :
  keeps E n (raise e) Q.
Proof.
  apply keeps_quiet. intros s _. simpl.
  split; [reflexivity|]. split; [apply untouched_refl | exact I].
Qed.


Lemma keeps_weaken {A : Type} (n : nat) (m : M E A) (Q Q' : A -> Prop) :
  keeps E n m Q -> (forall a, Q a -> Q' a) -> keeps E n m Q'.
Proof.
  intros Hm Himp s Hs. destruct (Hm s Hs) as (Hl & Hu & HQ).
  split; [exact Hl|]. split; [exact Hu|].
  destruct (fst (m s)); auto.
Qed.

Lemma keeps_bind {A B : Type} (n : nat) (m : M E A) (k : A -> M E B)
  (Q : A -> Prop) (Q' : B -> Prop) :
  keeps E n m Q -> (forall a, Q a -> keeps E n (k a) Q') ->
  keeps E n (bind m k) Q'.
Proof.
  intros Hm Hk s Hs. destruct (Hm s Hs) as (Hl & Hu & HQ). unfold bind.
  destruct (m s) as [[a|e|] s1]; simpl in *;
    try (split; [exact Hl|]; split; [exact Hu|exact I]).
  assert (Hs1 : n <= length (heap s1)) by lia.
  destruct (Hk a HQ s1 Hs1) as (Hl' & Hu' & HQ').
  split; [lia|]. split; [|exact HQ'].
  destruct Hu as (new1 & Hc1 & Hu1), Hu' as (new2 & Hc2 & Hu2).
  exists (new1 ++ new2). split; [rewrite Hc2, Hc1, app_assoc; reflexivity|].
  intros Hno. apply Forall_app in Hno. destruct Hno as [Hno1 Hno2].
  exact (untouched_trans n s s1 _ (Hu1 Hno1) (Hu2 Hno2)).
Qed.

Lemma keeps_read (n r : nat) : keeps E n (read E r) (fun _ => True).
Proof.
  apply keeps_quiet. intros s _. simpl.
  split; [reflexivity|]. split; [apply untouched_refl | exact I].
Qed.

Lemma keeps_get_self_model (n : nat) :
  keeps E n (get_self_model E) (fun _ => True).
Proof.
  apply keeps_quiet. intros s _. simpl.
  split; [reflexivity|]. split; [apply untouched_refl | exact I].
Qed.

(** A copy is a new object: its address is past every existing one. *)
Lemma keeps_deepcopy (n r : nat) :
  keeps E n (deepcopy E r) (fun r' => n <= r').
Proof.
  apply keeps_quiet. intros s Hs. simpl.
  split; [reflexivity|]. split; [|exact Hs].
  split; [reflexivity|]. simpl. split; [rewrite length_app; lia|].
  intros i Hi. apply lookup_app_l. lia.
Qed.

(** A write at address [r] leaves the objects below [r] alone. *)
Lemma keeps_write_kwargs (n r : nat) (name : string) (d : Dict.t value) :
  n <= r -> keeps E n (write_kwargs E r name d) (fun _ => True).
Proof.
  intros Hr. apply keeps_quiet. intros s Hs. simpl.
  split; [reflexivity|]. split; [|exact I].
  split; [reflexivity|]. simpl. split; [rewrite length_insert; lia|].
  intros i Hi. apply list_lookup_insert_ne. lia.
Qed.

Lemma keeps_merge_overrides (n r : nat)
  (overrides : list (string * value)) :
  n <= r -> keeps E n (merge_overrides E r overrides) (fun _ => True).
Proof.
  intros Hr. induction overrides as [|[k v] rest IH]; simpl.
  - apply keeps_ret. exact I.
  - apply (keeps_bind n _ _ (fun _ => True)); [apply keeps_read|].
    intros model _. destruct (Dict.get k model) as [e|];
      [|apply keeps_raise].
    destruct (kwargs e), v; try apply keeps_raise;
      (apply (keeps_bind n _ _ (fun _ => True));
       [apply keeps_write_kwargs; exact Hr | intros _ _; exact IH]).
Qed.

Lemma keeps_get_model (n : nat) (funcs : value)
  (overrides : list (string * value)) :
  keeps E n (get_model E funcs overrides) (fun r => n <= r).
Proof.
  unfold get_model.
  apply (keeps_bind n _ _ (fun _ => True)); [apply keeps_get_self_model|].
  intros m _. apply (keeps_bind n _ _ (fun r => n <= r));
    [apply keeps_deepcopy|].
  intros r Hr. apply (keeps_bind n _ _ (fun _ => True));
    [apply keeps_merge_overrides; exact Hr|].
  intros _ _. apply keeps_ret. exact Hr.
Qed.









(** The stored document is read through an address that exists, so it is
    among the objects a footprint of the whole heap protects. *)
Lemma untouched_stored {W : Type} (s s' : state W) :
  self_model s < length (heap s) ->
  untouched (length (heap s)) s s' ->
  self_model s' = self_model s /\ stored s' = stored s.
Proof.
  intros Hvalid (Hm & _ & Hp). split; [exact Hm|].
  unfold stored, object_at. rewrite Hm. f_equal. exact (Hp _ Hvalid).
Qed.

End Footprint.

(** ** Dicts *)

Section DictFacts.
Context {V : Type}.

Lemma get_set_eq (k : string) (v : V) (d : Dict.t V) :
  Dict.get k (Dict.set k v d) = Some v.
Proof.
  induction d as [|[k' v'] d IH]; simpl.
  - rewrite String.eqb_refl. reflexivity.
  - destruct (String.eqb k k') eqn:Hk; simpl.
    + rewrite String.eqb_refl. reflexivity.
    + rewrite Hk. exact IH.
Qed.

Lemma get_set_ne (k k' : string) (v : V) (d : Dict.t V) :
  k <> k' -> Dict.get k' (Dict.set k v d) = Dict.get k' d.
Proof.
  intros Hne. induction d as [|[k0 v0] d IH]; simpl.
  - destruct (String.eqb_spec k' k); [congruence|reflexivity].
  - destruct (String.eqb_spec k k0) as [->|Hk]; simpl.
    + destruct (String.eqb_spec k' k0); [congruence|reflexivity].
    + destruct (String.eqb k' k0); [reflexivity|exact IH].
Qed.

Lemma get_app (k : string) (d d' : Dict.t V) :
  Dict.get k (d ++ d') = match Dict.get k d with
                         | Some v => Some v
                         | None => Dict.get k d'
                         end.
Proof.
  induction d as [|[k0 v0] d IH]; simpl; [reflexivity|].
  destruct (String.eqb k k0); [reflexivity|exact IH].
Qed.

(** [{**d, **upd}] read at key [k]: the last binding of [k] in [upd] if
    there is one, the binding in [d] otherwise. *)
Lemma get_merge (k : string) (d upd : Dict.t V) :
  Dict.get k (Dict.merge d upd) = match Dict.get k (rev upd) with
                                  | Some v => Some v
                                  | None => Dict.get k d
                                  end.
Proof.
  unfold Dict.merge. revert d.
  induction upd as [|[k0 v0] upd IH]; intros d; simpl; [reflexivity|].
  rewrite IH, get_app. destruct (Dict.get k (rev upd)); [reflexivity|].
  simpl. destruct (String.eqb_spec k k0) as [->|Hne].
  - apply get_set_eq.
  - apply get_set_ne. congruence.
Qed.

End DictFacts.

(** ** The model registry *)

Section Registry.
Context (E : env).

Lemma object_at_insert (r : nat) (doc : document) (s : state (world E))
  (m : nat) (c : list (value * Dict.t value)) (w : world E) :
  r < length (heap s) ->
  object_at r (State (<[r := doc]> (heap s)) m c w) = doc.
Proof.
  intros Hr. unfold object_at. simpl.
  rewrite list_lookup_insert_eq by exact Hr. reflexivity.
Qed.

(** The loop of [get_model], run on the object at [r], does to it what
    [apply_overrides] does to a document. *)
Lemma merge_overrides_spec (r : nat)
  (overrides : list (string * value)) (s : state (world E)) :
  r < length (heap s) ->
  match apply_overrides (object_at r s) overrides with
  | Ret doc' => fst (merge_overrides E r overrides s) = Ret tt
                /\ object_at r (snd (merge_overrides E r overrides s)) = doc'
  | Raise e => fst (merge_overrides E r overrides s) = Raise e
  | Diverge => False
  end.
Proof.
  revert s. induction overrides as [|[k v] rest IH]; intros s Hr; simpl.
  - auto.
  - unfold apply_override, bind, read. simpl.
    destruct (Dict.get k (object_at r s)) as [e|] eqn:Hget; [|reflexivity].
    destruct (kwargs e) eqn:Hkw, v; try reflexivity;
      rewrite Hget;
      match goal with
      | |- context [merge_overrides E r rest ?s1] =>
          specialize (IH s1); simpl in IH;
          rewrite length_insert in IH; specialize (IH Hr);
          rewrite object_at_insert in IH by exact Hr
      end; exact IH.
Qed.

(** [get_model] returns a new object that holds the stored document with
    the overrides merged in; [funcs] plays no part. *)
Lemma get_model_spec (funcs : value)
  (overrides : list (string * value)) (s : state (world E)) :
  match apply_overrides (stored s) overrides with
  | Ret doc' =>
      fst (get_model E funcs overrides s) = Ret (length (heap s))
      /\ object_at (length (heap s)) (snd (get_model E funcs overrides s))
         = doc'
  | Raise e => fst (get_model E funcs overrides s) = Raise e
  | Diverge => False
  end.
Proof.
  unfold get_model, bind, get_self_model, deepcopy.
  set (s1 := State (heap s ++ [object_at (self_model s) s])
                   (self_model s) (calls s) (outside s)).
  assert (Hr : length (heap s) < length (heap s1))
    by (unfold s1; simpl; rewrite length_app; simpl; lia).
  assert (Hobj : object_at (length (heap s)) s1 = stored s).
  { unfold object_at, s1. simpl.
    rewrite lookup_app_r by apply le_n. rewrite Nat.sub_diag. reflexivity. }
  pose proof (merge_overrides_spec (length (heap s)) overrides s1 Hr) as H.
  rewrite Hobj in H.
  destruct (apply_overrides (stored s) overrides) as [doc'|e|];
    [|rewrite (surjective_pairing (merge_overrides E _ overrides s1));
      rewrite H; reflexivity|exact H].
  destruct H as [Hret Hdoc].
  rewrite (surjective_pairing (merge_overrides E _ overrides s1)), Hret.
  simpl. auto.
Qed.

(** [get_model] and [change_model] call nothing and leave the world. *)
Lemma get_model_log (funcs : value)
  (overrides : list (string * value)) (s : state (world E)) :
  same_outside (snd (get_model E funcs overrides s)) s.
Proof.
  unfold get_model, bind, get_self_model, deepcopy.
  match goal with
  | |- context [merge_overrides E ?r overrides ?s1] =>
      assert (H : same_outside (snd (merge_overrides E r overrides s1)) s1);
      [|destruct (merge_overrides E r overrides s1) as [[?| |] s2];
        simpl in *; exact H]
  end.
  match goal with |- same_outside (snd (merge_overrides E ?r _ ?s1)) _ =>
    generalize s1; generalize r end.
  intros r. induction overrides as [|[k v] rest IH]; intros s1; simpl.
  - split; reflexivity.
  - unfold bind, read. simpl.
    destruct (Dict.get k (object_at r s1)) as [e|]; [|split; reflexivity].
    destruct (kwargs e), v; try (split; reflexivity);
      match goal with
      | |- context [merge_overrides E r rest ?s2] =>
          pose proof (IH s2) as H;
          destruct (merge_overrides E r rest s2) as [[?| |] s3];
          simpl in *; exact H
      end.
Qed.

(** [get_model] works on its copy: [self.model] is the same object with
    the same content afterwards. *)
Lemma get_model_keeps_stored (funcs : value)
  (overrides : list (string * value)) (s : state (world E)) :
  self_model s < length (heap s) ->
  self_model (snd (get_model E funcs overrides s)) = self_model s
  /\ stored (snd (get_model E funcs overrides s)) = stored s.
Proof.
  intros Hvalid. apply untouched_stored; [exact Hvalid|].
  destruct (keeps_get_model E (length (heap s)) funcs overrides s
              (le_n _)) as (_ & (new & Hc & Hu) & _).
  apply Hu. pose proof (get_model_log funcs overrides s) as [Hlog _].
  rewrite Hlog in Hc. rewrite <- (app_nil_r (calls s)) in Hc at 1.
  apply app_inv_head in Hc. subst new. constructor.
Qed.

End Registry.

Section RegistryClaims.
Context (E : env).

(** A merge keeps the keys of the document, and an entry that holds
    [None] for its kwargs afterwards held it before. *)
Lemma apply_override_get (doc doc' : document) (k : string)
  (v : value) (k' : string) :
  apply_override doc k v = Ret doc' ->
  (Dict.get k' doc' = None <-> Dict.get k' doc = None)
  /\ (forall e', Dict.get k' doc' = Some e' -> kwargs e' = KwNone ->
      exists e, Dict.get k' doc = Some e /\ kwargs e = KwNone).
Proof.
  unfold apply_override.
  destruct (Dict.get k doc) as [e0|] eqn:Hget; [|discriminate].
  assert (Hkeys : forall e1, Dict.get k' (Dict.set k e1 doc) = None
                             <-> Dict.get k' doc = None).
  { intros e1. destruct (String.eqb_spec k k') as [<-|Hne].
    - rewrite get_set_eq, Hget. split; discriminate.
    - rewrite get_set_ne by exact Hne. reflexivity. }
  assert (Hnone : forall d e',
    Dict.get k' (Dict.set k (Entry (func e0) (KwDict d) (alias e0)) doc)
    = Some e' -> kwargs e' = KwNone ->
    exists e, Dict.get k' doc = Some e /\ kwargs e = KwNone).
  { intros d e'. destruct (String.eqb_spec k k') as [<-|Hne].
    - rewrite get_set_eq. intros H. inversion H. discriminate.
    - rewrite get_set_ne by exact Hne. eauto. }
  destruct (kwargs e0), v; intros H; inversion H; subst;
    (split; [apply Hkeys | apply Hnone]).
Qed.

(** When some override names no entry, the merge raises: the
    [KeyError] of an override that names no entry, or the [TypeError]
    of an override that names an entry whose kwargs is [None] or whose
    own value is no mapping. *)
Lemma apply_overrides_unknown_key (doc : document)
  (overrides : list (string * value)) (k : string) :
  In k (map fst overrides) -> Dict.get k doc = None ->
  (exists k', apply_overrides doc overrides = Raise (KeyError k')
              /\ In k' (map fst overrides) /\ Dict.get k' doc = None)
  \/ (apply_overrides doc overrides = Raise TypeError
      /\ exists k' v, In (k', v) overrides
           /\ ((exists e, Dict.get k' doc = Some e /\ kwargs e = KwNone)
               \/ forall d, v <> VDict d)).
Proof.
  revert doc. induction overrides as [|[k0 v] rest IH];
    intros doc Hin Hk; [destruct Hin|].
  simpl. destruct (apply_override doc k0 v) as [doc'|e|] eqn:Hstep.
  - destruct (apply_override_get doc doc' k0 v k Hstep) as [Hkeys _].
    destruct Hin as [Heq|Hin].
    + simpl in Heq. subst k0. unfold apply_override in Hstep.
      rewrite Hk in Hstep. discriminate.
    + destruct (IH doc' Hin (proj2 Hkeys Hk))
        as [(k' & Hraise & Hin' & Hk')
           |(Hraise & k' & v' & Hin' & Hwhy)].
      * left. exists k'. split; [exact Hraise|]. split; [right; exact Hin'|].
        apply (apply_override_get doc doc' k0 v k' Hstep), Hk'.
      * right. split; [exact Hraise|]. exists k', v'.
        split; [right; exact Hin'|].
        destruct Hwhy as [(e' & Hget' & Hnone)|Hnodict]; [left|right; auto].
        exact (proj2 (apply_override_get doc doc' k0 v k' Hstep)
                     e' Hget' Hnone).
  - unfold apply_override in Hstep.
    destruct (Dict.get k0 doc) as [e0|] eqn:Hget.
    + assert (He : e = TypeError)
        by (destruct (kwargs e0), v; inversion Hstep; reflexivity).
      subst e. right. split; [reflexivity|]. exists k0, v.
      split; [left; reflexivity|].
      destruct (kwargs e0) eqn:Hkw.
      * right. intros d ->. discriminate.
      * left. eauto.
      * right. intros d' ->. discriminate.
    + inversion Hstep; subst. left. exists k0. simpl. auto.
  - unfold apply_override in Hstep.
    destruct (Dict.get k0 doc) as [e0|]; [|discriminate].
    destruct (kwargs e0), v; discriminate.
Qed.

Lemma In_remove {V : Type} (k k' : string) (v : V) (d : Dict.t V) :
  In (k', v) (Dict.remove k d) <-> In (k', v) d /\ k' <> k.
Proof.
  unfold Dict.remove. rewrite List.filter_In. simpl.
  rewrite negb_true_iff. split; intros [Hin Hne]; (split; [exact Hin|]).
  - intros ->. rewrite String.eqb_refl in Hne. discriminate.
  - apply String.eqb_neq. congruence.
Qed.


(** C10, as amended.  When a key of the keyword arguments other than
    ["funcs"] names no entry of the stored document, [change_model] raises, and
    the engine still points to the same, unchanged document.  The
    exception is the [KeyError] of such a key, unless the merge stopped
    before with the [TypeError] of an override that names an entry whose
    kwargs is [None], or whose own value is no mapping. *)
Theorem change_model_unknown_key (s : state (world E))
  (overrides : Dict.t value) (k : string) :
  self_model s < length (heap s) ->
  k <> "funcs" ->
  In k (map fst overrides) ->
  Dict.get k (stored s) = None ->
  exists e s',
    change_model E overrides s = (Raise e, s')
    /\ ((exists k', e = KeyError k' /\ k' <> "funcs"
                    /\ In k' (map fst overrides)
                    /\ Dict.get k' (stored s) = None)
        \/ (e = TypeError
            /\ exists k' v, In (k', v) overrides /\ k' <> "funcs"
                 /\ ((exists ent, Dict.get k' (stored s) = Some ent
                                  /\ kwargs ent = KwNone)
                     \/ forall d, v <> VDict d)))
    /\ self_model s' = self_model s
    /\ stored s' = stored s.
Proof.
  intros Hvalid Hfuncs Hin Hk.
  set (funcs := default (VDict []) (Dict.get "funcs" overrides)).
  set (rest := Dict.remove "funcs" overrides).
  assert (Hin' : In k (map fst rest)).
  { apply in_map_iff in Hin. destruct Hin as ([k0 v] & Hk0 & Hin).
    simpl in Hk0. subst k0. apply in_map_iff. exists (k, v).
    split; [reflexivity|]. apply In_remove. auto. }
  pose proof (get_model_spec E funcs rest s) as Hspec.
  pose proof (get_model_keeps_stored E funcs rest s Hvalid) as Hsame.
  assert (Hrun : forall e, fst (get_model E funcs rest s) = Raise e ->
            change_model E overrides s
            = (Raise e, snd (get_model E funcs rest s))).
  { intros e He. unfold change_model, get_model_call, bind.
    fold funcs rest.
    destruct (get_model E funcs rest s) as [o s1]. simpl in He.
    subst o. reflexivity. }
  destruct (apply_overrides_unknown_key (stored s) rest k Hin' Hk)
    as [(k' & Hraise & Hink' & Hk')|(Hraise & k' & v & Hink' & Hwhy)];
    rewrite Hraise in Hspec.
  - exists (KeyError k'), (snd (get_model E funcs rest s)).
    split; [exact (Hrun _ Hspec)|]. split; [|exact Hsame].
    left. exists k'. split; [reflexivity|].
    apply in_map_iff in Hink'. destruct Hink' as ([k0 v] & Hk0 & Hink').
    simpl in Hk0. subst k0. apply In_remove in Hink'.
    destruct Hink' as [Hink' Hne]. split; [exact Hne|].
    split; [|exact Hk']. apply in_map_iff. exists (k', v). auto.
  - exists TypeError, (snd (get_model E funcs rest s)).
    split; [exact (Hrun _ Hspec)|]. split; [|exact Hsame].
    right. split; [reflexivity|]. exists k', v.
    apply In_remove in Hink'. tauto.
Qed.

End RegistryClaims.



(** [change_model(zz={"low": 0})] on the engine that holds [model_a]. *)
Lemma change_model_unknown_key_witness :
  exists e s',
    change_model Demo.E [("zz", VDict [("low", VInt 0)])]
                 (Demo.engine Demo.model_a)
    = (Raise e, s')
    /\ e = KeyError "zz"
    /\ self_model s' = 0
    /\ stored s' = Demo.model_a.
Proof.
  destruct (change_model_unknown_key Demo.E (Demo.engine Demo.model_a)
              [("zz", VDict [("low", VInt 0)])] "zz")
    as (e & s' & Hrun & Hwhy & Hm & Hs).
  - simpl. lia.
  - discriminate.
  - simpl. auto.
  - reflexivity.
  - exists e, s'. split; [exact Hrun|]. split; [|split; assumption].
    vm_compute in Hrun. inversion Hrun. reflexivity.
Defined.

(** C10, as first stated, fails.  Two calls with a key that names no
    entry and no [KeyError]:
    [change_model(funcs={})] on [model_a] binds the parameter [funcs] of
    [get_model], raises nothing and makes [self.model] another object;
    [change_model(a={}, zz={})] on [{"a": {"func": f1, "kwargs": None}}]
    stops with [TypeError] at [a], before [zz] is looked at. *)
Lemma change_model_without_key_error :
  Dict.get "funcs" Demo.model_a = None
  /\ (exists s',
        change_model Demo.E [("funcs", VDict [])] (Demo.engine Demo.model_a)
        = (Ret tt, s')
        /\ self_model s' <> self_model (Demo.engine Demo.model_a))
  /\ Dict.get "zz" Examples.model_kwargs_none = None
  /\ fst (change_model Demo.E [("a", VDict []); ("zz", VDict [])]
                       (Demo.engine Examples.model_kwargs_none))
     = Raise TypeError.
Proof.
  split; [reflexivity|]. split; [|split; reflexivity].
  eexists. split; [reflexivity|]. simpl. discriminate.
Qed.

(** ** Redrawing from several names *)

Lemma insert_unique_In (x y : string) (l : list string) :
  In y (insert_unique x l) <-> y = x \/ In y l.
Proof.
  induction l as [|z l IH]; simpl.
  - intuition congruence.
  - destruct (String.compare x z) eqn:Hcmp; simpl.
    + apply String.compare_eq_iff in Hcmp. subst. intuition congruence.
    + intuition congruence.
    + rewrite IH. intuition congruence.
Qed.

(** [np.unique] keeps exactly the names it is given. *)
Lemma np_unique_In (y : string) (l : list string) :
  In y (np_unique l) <-> In y l.
Proof.
  induction l as [|x l IH]; simpl; [tauto|].
  rewrite insert_unique_In, IH. intuition congruence.
Qed.

Section RedrawClaims.
Context (E : env).

Lemma get_forward_entries_run (fuel : nat) (name : name_arg)
  (incl_input : bool) (s : state (world E)) :
  get_forward_entries E fuel name incl_input s
  = (forward_entries fuel (stored s) name incl_input, s).
Proof. reflexivity. Qed.

Lemma forward_closures_run (fuel : nat) (names : list string)
  (cs : list (list string)) (s : state (world E)) :
  Forall2 (fun n c => forward_entries fuel (stored s) (One n) false = Ret c)
          names cs ->
  forward_closures E fuel names s = (Ret cs, s).
Proof.
  induction 1 as [|n c names cs Hn _ IH]; simpl; [reflexivity|].
  unfold bind. rewrite get_forward_entries_run, Hn, IH. reflexivity.
Qed.

(** Given more than one name, and whenever the forward closure
    (without the name itself) of each is returned: if a requested name
    lies in the closure of another requested name, [redraw_from] raises
    its error in the state it was called in, so nothing has been drawn
    and no table is made; otherwise it is [draw] limited to the names of
    all these closures, together with the requested names when
    [incl_name] holds. *)
Theorem redraw_from_several (fuel : nat) (names : list string)
  (data : DataFrame) (incl_name : bool) (size : value)
  (overrides : Dict.t value) (s : state (world E))
  (cs : list (list string)) :
  1 < length names ->
  Forall2 (fun n c => forward_entries fuel (stored s) (One n) false = Ret c)
          names cs ->
  let clash :=
    exists n m c, In n names /\ In m names /\ n <> m
                  /\ forward_entries fuel (stored s) (One m) false = Ret c
                  /\ In n c in
  (clash ->
   redraw_from E fuel (Many names) data incl_name size overrides s
   = (Raise redraw_error, s))
  /\ (~ clash ->
      exists limit,
        (forall x, In x limit <->
                   (exists m c, In m names
                      /\ forward_entries fuel (stored s) (One m) false = Ret c
                      /\ In x c)
                   \/ (incl_name = true /\ In x names))
        /\ redraw_from E fuel (Many names) data incl_name size overrides s
           = draw E size (Some limit) (Some data) [] s).
Proof.
  intros Hlen Hcs clash.
  assert (Hlim : forall x, In x (np_unique (concat cs)) <->
            exists m c, In m names
              /\ forward_entries fuel (stored s) (One m) false = Ret c
              /\ In x c).
  { intros x. rewrite np_unique_In, in_concat. split.
    - intros (c & Hc & Hx).
      clear Hlen clash. induction Hcs as [|n c' names cs Hn _ IH];
        [destruct Hc|].
      destruct Hc as [->|Hc].
      + exists n, c. simpl. auto.
      + destruct (IH Hc) as (m & c0 & Hm & Hfw & Hx0).
        exists m, c0. simpl. auto.
    - intros (m & c & Hm & Hfw & Hx).
      clear Hlen clash. induction Hcs as [|n c' names cs Hn _ IH];
        [destruct Hm|].
      destruct Hm as [->|Hm].
      + exists c. split; [left; congruence|exact Hx].
      + destruct (IH Hm) as (c0 & Hc0 & Hx0). exists c0. simpl. auto. }
  assert (Hcheck : existsb (fun n => mem_str n (np_unique (concat cs))) names
                   = true <-> clash).
  { rewrite existsb_exists. split.
    - intros (n & Hn & Hmem). apply mem_str_In, Hlim in Hmem.
      destruct Hmem as (m & c & Hm & Hfw & Hx).
      exists n, m, c. repeat split; try assumption.
      intros ->. unfold forward_entries in Hfw.
      destruct (get_modeldf (stored s)) as [rows| |]; try discriminate.
      exact (not_in_own_closure _ _ _ _ Hfw Hx).
    - intros (n & m & c & Hn & Hm & _ & Hfw & Hx).
      exists n. split; [exact Hn|]. apply mem_str_In, Hlim. eauto. }
  assert (Hrun : redraw_from E fuel (Many names) data incl_name size
                   overrides s
    = if existsb (fun n => mem_str n (np_unique (concat cs))) names
      then (Raise redraw_error, s)
      else draw E size
             (Some (if incl_name then np_unique (concat cs) ++ names
                    else np_unique (concat cs)))
             (Some data) [] s).
  { unfold redraw_from. simpl atleast_1d.
    apply Nat.ltb_lt in Hlen. rewrite Hlen. unfold bind at 1 2.
    rewrite (forward_closures_run fuel names cs s Hcs).
    destruct (existsb _ names); reflexivity. }
  split.
  - intros Hclash. apply Hcheck in Hclash. rewrite Hrun, Hclash. reflexivity.
  - intros Hno.
    destruct (existsb (fun n => mem_str n (np_unique (concat cs))) names)
      eqn:Hex; [exfalso; apply Hno, Hcheck; reflexivity|].
    exists (if incl_name then np_unique (concat cs) ++ names
            else np_unique (concat cs)).
    split; [|exact Hrun].
    intros x. destruct incl_name.
    + rewrite in_app_iff, Hlim. intuition.
    + rewrite Hlim. intuition discriminate.
Qed.

End RedrawClaims.

(** In [model_abc], [b] lies in the forward closure of [a]: redrawing
    from both is refused, in the state of the call. *)
Lemma redraw_from_several_witness :
  redraw_from Demo.E 5 (Many ["a"; "b"]) Demo.data_x true VNone []
              (Demo.engine Demo.model_abc)
  = (Raise redraw_error, Demo.engine Demo.model_abc).
Proof.
  apply (proj1 (redraw_from_several Demo.E 5 ["a"; "b"] Demo.data_x true
                  VNone [] (Demo.engine Demo.model_abc)
                  [["b"; "c"]; ["c"]]
                  ltac:(simpl; lia)
                  ltac:(repeat constructor))).
  exists "b", "a", ["b"; "c"].
  repeat split; simpl; auto; discriminate.
Defined.

(** C7 (code bug).  On [{"a": {"func": f1}, "b": {"func": f1}}] no
    entry has kwargs, so no name lies in the forward closure of another, and
    [draw] limited to [a] and [b] returns a table.  Yet
    [redraw_from(["a", "b"], data)] raises [KeyError("kwargs")] while it
    computes the first closure, however many turns the loop may take:
    it neither raises the error for dependent names nor draws. *)
Theorem redraw_from_several_needs_kwargs (fuel : nat) (incl_name : bool) :
  (forall name e, In (name, e) Examples.model_independent ->
                  entry_inputs e = [])
  /\ redraw_from Demo.E fuel (Many ["a"; "b"]) Demo.data_x incl_name VNone []
                 (Demo.engine Examples.model_independent)
     = (Raise (KeyError "kwargs"), Demo.engine Examples.model_independent)
  /\ exists out s',
       draw Demo.E VNone (Some ["a"; "b"]) (Some Demo.data_x) []
            (Demo.engine Examples.model_independent)
       = (Ret out, s').
Proof.
  split; [|split].
  - intros name e [H|[H|[]]]; inversion H; reflexivity.
  - reflexivity.
  - vm_compute. eexists. eexists. reflexivity.
Qed.

(** ** The claims the code does not meet *)

(** [get_model] never looks at [funcs]. *)
Lemma get_model_funcs_unused (E : env) (funcs funcs' : value)
  (overrides : list (string * value)) :
  get_model E funcs overrides = get_model E funcs' overrides.
Proof. reflexivity. Qed.

(** What [get_model] does for one override of an entry that has kwargs:
    the copy holds, under that entry, the merged kwargs: every listed
    parameter with its new value, every other parameter as before. *)
Lemma get_model_override_one (E : env) (funcs : value)
  (k : string) (v : Dict.t value) (e : entry) (d : Dict.t value)
  (s : state (world E)) :
  Dict.get k (stored s) = Some e -> kwargs e = KwDict d ->
  exists r s' e' d',
    get_model E funcs [(k, VDict v)] s = (Ret r, s')
    /\ Dict.get k (object_at r s') = Some e'
    /\ kwargs e' = KwDict d'
    /\ alias e' = alias e
    /\ (forall p x, Dict.get p (rev v) = Some x -> Dict.get p d' = Some x)
    /\ (forall p, Dict.get p (rev v) = None -> Dict.get p d' = Dict.get p d).
Proof.
  intros Hget Hkw.
  pose proof (get_model_spec E funcs [(k, VDict v)] s) as Hspec.
  simpl in Hspec. unfold apply_override in Hspec.
  rewrite Hget, Hkw in Hspec. destruct Hspec as [Hr Hdoc].
  exists (length (heap s)), (snd (get_model E funcs [(k, VDict v)] s)),
         (Entry (func e) (KwDict (Dict.merge d v)) (alias e)),
         (Dict.merge d v).
  split; [rewrite <- Hr; apply surjective_pairing|].
  rewrite Hdoc. split; [apply get_set_eq|].
  split; [reflexivity|]. split; [reflexivity|]. split.
  - intros p x Hp. rewrite get_merge, Hp. reflexivity.
  - intros p Hp. rewrite get_merge, Hp. reflexivity.
Qed.

(** C1 (code bug).  [get_model(funcs={"a": f2})] on the document
    [{"a": {"func": f1, ...}}] returns a copy equal to the document:
    the entry [a] still has [f1], not the replacement [f2]. *)
Theorem get_model_ignores_funcs :
  exists s',
    get_model Demo.E (VDict [("a", VFun 2)]) [] (Demo.engine Demo.model_a)
    = (Ret 1, s')
    /\ object_at 1 s' = Demo.model_a
    /\ option_map func (Dict.get "a" (object_at 1 s')) = Some (VFun 1)
    /\ option_map func (Dict.get "a" (object_at 1 s')) <> Some (VFun 2).
Proof. eexists. repeat split. discriminate. Qed.

(** C2 (code bug).  Entry [a] of [model_alias] writes the column [x].
    With [limit_to_entries = ["x"]] the entry is skipped: nothing is
    called and the table stays empty.  With [limit_to_entries = ["a"]],
    which does not hold its output name, the entry is evaluated. *)
Theorem draw_limit_tests_entry_name :
  entry_labels "a" (Entry (VFun 1) (KwDict []) (AsStr "x")) = ["x"]
  /\ fst (draw Demo.E (VInt 3) (Some ["x"]) None []
               (Demo.engine Demo.model_alias))
     = Ret empty_frame
  /\ calls (snd (draw Demo.E (VInt 3) (Some ["x"]) None []
                      (Demo.engine Demo.model_alias)))
     = []
  /\ fst (draw Demo.E (VInt 3) (Some ["a"]) None []
               (Demo.engine Demo.model_alias))
     = Ret (Frame 3 [(LStr "x", [VInt 0; VInt 0; VInt 0])])
  /\ calls (snd (draw Demo.E (VInt 3) (Some ["a"]) None []
                      (Demo.engine Demo.model_alias)))
     = [(VFun 1, [("size", VInt 3)])].
Proof. repeat split. Qed.

(** C3 (code bug).  For [{"a": {"func": f1, "as": None}}], [draw(size=0)]
    returns a table whose only column is labelled [None], not [a]; the
    draw loop, for a size of 2, does name the column [a]. *)
Theorem draw_size_zero_alias_none :
  draw Demo.E (VInt 0) None None [] (Demo.engine Demo.model_as_none)
  = (Ret (frame_of_columns [LNone]),
     State [Demo.model_as_none; Demo.model_as_none; Demo.model_as_none]
           0 [] 0)
  /\ entry_labels "a" (Entry (VFun 1) KwAbsent AsNone) = ["a"]
  /\ frame_of_columns [LNone] <> frame_of_columns [LStr "a"]
  /\ fst (draw Demo.E (VInt 2) None None []
               (Demo.engine Demo.model_as_none))
     = Ret (Frame 2 [(LStr "a", [VInt 0; VInt 0])]).
Proof. repeat split. discriminate. Qed.

(** C5 (code bug).  In [model_alias] the forward closure of [a] is [a]
    alone, so the column [x] lies outside it; yet [redraw_from("a", data)]
    returns a table in which the column [x] of [data], 7 7 7, has been
    drawn anew. *)
Theorem redraw_from_rewrites_alias_column :
  forward_entries 5 Demo.model_alias (One "a") true = Ret ["a"]
  /\ column (LStr "x") (columns Demo.data_x)
     = Some [VInt 7; VInt 7; VInt 7]
  /\ fst (redraw_from Demo.E 5 (One "a") Demo.data_x true VNone []
                      (Demo.engine Demo.model_alias))
     = Ret (Frame 3 [(LStr "x", [VInt 0; VInt 0; VInt 0])])
  /\ calls (snd (redraw_from Demo.E 5 (One "a") Demo.data_x true VNone []
                             (Demo.engine Demo.model_alias)))
     = [(VFun 1, [("size", VNone)])].
Proof. repeat split. Qed.

(** C9 (code bug).  The document [{"a": {"func": f1}}] is acyclic, yet
    neither closure of [a] is returned: the model table has no column
    ["kwargs"], and both methods raise [KeyError], whatever the fuel. *)
Theorem closures_need_kwargs_column :
  acyclic Demo.model_plain
  /\ (forall fuel,
        get_forward_entries Demo.E fuel (One "a") true
                            (Demo.engine Demo.model_plain)
        = (Raise (KeyError "kwargs"), Demo.engine Demo.model_plain))
  /\ (forall fuel,
        get_backward_entries Demo.E fuel (One "a") true
                             (Demo.engine Demo.model_plain)
        = (Raise (KeyError "kwargs"), Demo.engine Demo.model_plain)).
Proof.
  split; [|split; reflexivity].
  intros x (p & Hne & Hp & _). destruct p as [|y p]; [congruence|].
  destruct Hp as [(name & e & Hin & _ & Hinput) _].
  destruct Hin as [Heq|[]]. inversion Heq; subst. destruct Hinput.
Qed.

(** ** What holds of the draw loop *)

Section DrawFacts.
Context (E : env).

Lemma bind_ret_inv {A B : Type} (m : M E A) (k : A -> M E B)
  (s s' : state (world E)) (b : B) :
  bind m k s = (Ret b, s') ->
  exists a s1, m s = (Ret a, s1) /\ k a s1 = (Ret b, s').
Proof.
  unfold bind. destruct (m s) as [[a|e|] s1]; try discriminate. eauto.
Qed.

Lemma lift_ret_inv {A : Type} (o : outcome A) (s s' : state (world E))
  (a : A) :
  lift (E := E) o s = (Ret a, s') -> o = Ret a.
Proof. unfold lift. intros H. inversion H. reflexivity. Qed.

(** [draw] without overrides copies the stored document twice and runs
    the loop (or the short cut for a size of 0) on the second copy. *)
Lemma draw_run (size : value) (limit_to_entries : option (list string))
  (data : option DataFrame) (s : state (world E)) :
  draw E size limit_to_entries data [] s
  = let s2 := State ((heap s ++ [stored s]) ++ [stored s])
                    (self_model s) (calls s) (outside s) in
    if is_zero size then
      (match stored s with
       | [] => Raise (ValueError "need at least one array to concatenate")
       | _ :: _ =>
           Ret (frame_of_columns
                  (flat_map (fun ke => hstack_labels (fst ke) (snd ke))
                            (stored s)))
       end, s2)
    else draw_loop E (S (length (heap s))) size limit_to_entries (stored s)
                   (match data with Some d => d | None => empty_frame end)
                   s2.
Proof.
  unfold draw, get_model_call, get_model, _draw, bind, get_self_model,
    deepcopy, read, merge_overrides, ret. simpl.
  assert (H1 : object_at (length (heap s))
                 (State (heap s ++ [object_at (self_model s) s])
                        (self_model s) (calls s) (outside s)) = stored s).
  { unfold object_at. simpl. rewrite lookup_app_r by apply le_n.
    rewrite Nat.sub_diag. reflexivity. }
  rewrite H1.
  assert (H2 : object_at (length (heap s ++ [object_at (self_model s) s]))
                 (State ((heap s ++ [object_at (self_model s) s])
                           ++ [stored s])
                        (self_model s) (calls s) (outside s)) = stored s).
  { unfold object_at. simpl. rewrite lookup_app_r by apply le_n.
    rewrite Nat.sub_diag. reflexivity. }
  rewrite H2.
  assert (H3 : length (heap s ++ [object_at (self_model s) s])
               = S (length (heap s)))
    by (rewrite length_app; simpl; lia).
  rewrite H3. fold (stored s).
  destruct (is_zero size); [|reflexivity].
  destruct (stored s); reflexivity.
Qed.

(** Where no alias is [None], the short cut names the columns by the
    exploded output names. *)
Lemma hstack_labels_exploded (name : string) (e : entry) :
  alias e <> AsNone ->
  hstack_labels name e = map LStr (entry_labels name e).
Proof.
  unfold hstack_labels, entry_labels.
  destruct (alias e); [reflexivity|congruence|reflexivity|reflexivity].
Qed.

(** [draw(size=0)] on a document with at least one entry: a table
    without rows, and no callable is invoked (the log of calls and the
    world are as before). *)
Lemma draw_size_zero (limit_to_entries : option (list string))
  (data : option DataFrame) (s : state (world E)) :
  stored s <> [] ->
  exists s',
    draw E (VInt 0) limit_to_entries data [] s
    = (Ret (frame_of_columns
              (flat_map (fun ke => hstack_labels (fst ke) (snd ke))
                        (stored s))), s')
    /\ calls s' = calls s /\ outside s' = outside s
    /\ self_model s' = self_model s.
Proof.
  intros Hne. rewrite draw_run. simpl.
  destruct (stored s); [congruence|]. eauto.
Qed.

(** The loop visits the entries in document order and skips exactly
    those whose name is not in [limit_to_entries]: it is the unlimited
    loop over the entries whose name is in the list. *)
Lemma draw_loop_limit (r : nat) (size : value) (limit : list string)
  (items : list (string * entry)) (data : DataFrame)
  (s : state (world E)) :
  draw_loop E r size (Some limit) items data s
  = draw_loop E r size None
              (List.filter (fun ke => mem_str (fst ke) limit) items) data s.
Proof.
  revert data s. induction items as [|[name e] rest IH]; intros data s;
    [reflexivity|].
  simpl. destruct (mem_str name limit); simpl; [|apply IH].
  unfold bind. destruct (draw_entry E r size name e data s) as [[d| |] s1];
    [apply IH|reflexivity|reflexivity].
Qed.

End DrawFacts.

(** ** Columns a redraw leaves alone *)

Lemma label_eqb_eq (a b : label) : label_eqb a b = true <-> a = b.
Proof.
  destruct a as [|x], b as [|y]; simpl; try (split; congruence).
  rewrite String.eqb_eq. split; congruence.
Qed.

Lemma column_put_other (c c' : label) (cells : list value)
  (cols : list (label * list value)) :
  c <> c' -> column c (put_column c' cells cols) = column c cols.
Proof.
  intros Hne. induction cols as [|[x old] cols IH]; simpl.
  - destruct (label_eqb c c') eqn:Heq; [|reflexivity].
    apply label_eqb_eq in Heq. congruence.
  - destruct (label_eqb c' x) eqn:Hput; simpl.
    + apply label_eqb_eq in Hput. subst x.
      destruct (label_eqb c c') eqn:Heq; [|reflexivity].
      apply label_eqb_eq in Heq. congruence.
    + destruct (label_eqb c x); [reflexivity|exact IH].
Qed.

(** Writing one column of a table that has rows leaves the row count and
    the other columns as they are. *)
Lemma setitem_frame (key : string) (samples : ndarray)
  (data data' : DataFrame) :
  0 < nrows data ->
  setitem key samples data = Ret data' ->
  nrows data' = nrows data
  /\ forall c, c <> LStr key ->
               column c (columns data') = column c (columns data).
Proof.
  intros Hrows. destruct samples as [v|l|[|row [|? ?]]]; simpl;
    try discriminate.
  - intros H. inversion H; subst. simpl. split; [reflexivity|].
    intros c Hc. apply column_put_other, Hc.
  - unfold set_vector.
    destruct (Nat.eqb_spec (nrows data) 0) as [Hz|_]; [lia|]. simpl.
    destruct (Nat.eqb (length l) (nrows data)); [|discriminate].
    intros H. inversion H; subst. simpl. split; [reflexivity|].
    intros c Hc. apply column_put_other, Hc.
  - destruct (Nat.eqb (length row) (nrows data)); [|discriminate].
    intros H. inversion H; subst. simpl. split; [reflexivity|].
    intros c Hc. apply column_put_other, Hc.
Qed.

Section RedrawFrame.
Context (E : env).

Lemma draw_entry_frame (r : nat) (size : value) (name : string) (e : entry)
  (data data' : DataFrame) (s s' : state (world E)) :
  alias e = AsAbsent \/ alias e = AsNone ->
  0 < nrows data ->
  draw_entry E r size name e data s = (Ret data', s') ->
  nrows data' = nrows data
  /\ forall c, c <> LStr name ->
               column c (columns data') = column c (columns data).
Proof.
  intros Halias Hrows Hrun. unfold draw_entry in Hrun.
  apply bind_ret_inv in Hrun as (ps & s1 & _ & Hrun).
  apply bind_ret_inv in Hrun as (u & s2 & _ & Hrun).
  apply bind_ret_inv in Hrun as (draw_ & s3 & _ & Hrun).
  apply bind_ret_inv in Hrun as (samples & s4 & _ & Hrun).
  apply lift_ret_inv in Hrun. unfold feed in Hrun.
  destruct Halias as [Ha|Ha]; rewrite Ha in Hrun;
    exact (setitem_frame name samples data data' Hrows Hrun).
Qed.

(** In a document whose entries write under their own names, the loop
    limited to [limit] leaves every column that is not named in [limit]
    as it was. *)
Lemma draw_loop_frame (r : nat) (size : value) (limit : list string)
  (items : list (string * entry)) (data data' : DataFrame)
  (s s' : state (world E)) :
  (forall name e, In (name, e) items ->
                  alias e = AsAbsent \/ alias e = AsNone) ->
  0 < nrows data ->
  draw_loop E r size (Some limit) items data s = (Ret data', s') ->
  nrows data' = nrows data
  /\ forall c, (forall n, c = LStr n -> ~ In n limit) ->
               column c (columns data') = column c (columns data).
Proof.
  revert data s. induction items as [|[name e] rest IH];
    intros data s Halias Hrows Hrun.
  - inversion Hrun; subst. auto.
  - simpl in Hrun. destruct (mem_str name limit) eqn:Hmem; simpl in Hrun.
    + apply bind_ret_inv in Hrun as (data1 & s1 & Hentry & Hrun).
      destruct (draw_entry_frame r size name e data data1 s s1
                  (Halias name e (or_introl eq_refl)) Hrows Hentry)
        as [Hn1 Hc1].
      destruct (IH data1 s1 (fun n x H => Halias n x (or_intror H))
                  ltac:(lia) Hrun) as [Hn Hc].
      split; [congruence|]. intros c Hout. rewrite (Hc c Hout).
      apply Hc1. intros ->. apply (Hout name eq_refl).
      apply mem_str_In, Hmem.
    + exact (IH data s (fun n x H => Halias n x (or_intror H)) Hrows Hrun).
Qed.

(** For a document whose entries write under their own names, a table
    with rows and a size other than 0: the table [redraw_from(a, data)]
    returns agrees with [data] on every column outside the forward
    closure of [a] (the closure including [a]). *)
Theorem redraw_from_frame (fuel : nat) (a : string) (data data' : DataFrame)
  (size : value) (overrides : Dict.t value)
  (s s' : state (world E)) :
  (forall name e, In (name, e) (stored s) ->
                  alias e = AsAbsent \/ alias e = AsNone) ->
  0 < nrows data ->
  is_zero size = false ->
  redraw_from E fuel (One a) data true size overrides s = (Ret data', s') ->
  exists closure,
    forward_entries fuel (stored s) (One a) true = Ret closure
    /\ nrows data' = nrows data
    /\ forall c, (forall n, c = LStr n -> ~ In n closure) ->
                 column c (columns data') = column c (columns data).
Proof.
  intros Halias Hrows Hsize Hrun. unfold redraw_from in Hrun. simpl in Hrun.
  apply bind_ret_inv in Hrun as (closure & s1 & Hfw & Hrun).
  rewrite get_forward_entries_run in Hfw. inversion Hfw; subst s1.
  exists closure. split; [assumption|].
  rewrite draw_run, Hsize in Hrun. simpl in Hrun.
  exact (draw_loop_frame _ size closure (stored s) data data' _ s'
           Halias Hrows Hrun).
Qed.

End RedrawFrame.

(** ** The general statements on the example document *)

(** A graph whose edges all go down a rank has no cycle. *)
Lemma ranked_acyclic (R : string -> string -> Prop) (rank : string -> nat) :
  (forall x y, R x y -> rank y < rank x) ->
  forall x, ~ reaches R x x.
Proof.
  intros Hrank.
  assert (Hchain : forall p x, p <> [] -> chain R x p ->
                               rank (List.last p x) < rank x).
  { induction p as [|y p IH]; intros x Hne Hp; [congruence|].
    destruct Hp as [Hxy Hp]. rewrite last_cons.
    destruct p as [|z p]; [exact (Hrank x y Hxy)|].
    specialize (IH y ltac:(discriminate) Hp).
    pose proof (Hrank x y Hxy). lia. }
  intros x (p & Hne & Hp & Hlast).
  pose proof (Hchain p x Hne Hp) as Hlt. rewrite Hlast in Hlt. lia.
Qed.

Lemma model_abc_acyclic : acyclic Demo.model_abc.
Proof.
  unfold acyclic.
  apply (ranked_acyclic (refers_to Demo.model_abc) Demo.rank_abc).
  intros x y (name & e & Hin & Hlbl & Hinput).
  repeat (destruct Hin as [Heq|Hin];
          [inversion Heq; subst; clear Heq;
           simpl in Hlbl, Hinput;
           repeat (destruct Hlbl as [<-|Hlbl]);
           repeat (destruct Hinput as [<-|Hinput]);
           try contradiction; vm_compute; lia|]).
  destruct Hin.
Qed.

(** Both closures of [a] in [model_abc] are returned, and their members
    are the names reached from [a]. *)
Lemma closures_of_acyclic_document_witness :
  exists fuel, forall fuel', fuel <= fuel' ->
    (exists l, forward_entries fuel' Demo.model_abc (One "a") true = Ret l
               /\ forall b, In b l
                            <-> b = "a" \/ reaches (feeds Demo.model_abc) "a" b)
    /\ (exists l, backward_entries fuel' Demo.model_abc (One "a") true = Ret l
                  /\ forall b, In b l
                     <-> b = "a" \/ reaches (refers_to Demo.model_abc) "a" b).
Proof.
  exact (closures_of_acyclic_document Demo.model_abc "a" eq_refl
           model_abc_acyclic).
Defined.

(** Redrawing [model_abc] from [b] leaves the column [a] of the table as
    it was. *)
Lemma redraw_from_frame_witness :
  exists data' s',
    redraw_from Demo.E 5 (One "b") Demo.data_abc true VNone []
                (Demo.engine Demo.model_abc) = (Ret data', s')
    /\ column (LStr "a") (columns data') = Some [VInt 7; VInt 7; VInt 7]
    /\ column (LStr "b") (columns data') = Some [VInt 0; VInt 0; VInt 0].
Proof.
  set (run := redraw_from Demo.E 5 (One "b") Demo.data_abc true VNone []
                          (Demo.engine Demo.model_abc)).
  set (data' := Frame 3 [(LStr "a", [VInt 7; VInt 7; VInt 7]);
                         (LStr "b", [VInt 0; VInt 0; VInt 0]);
                         (LStr "c", [VInt 1; VInt 1; VInt 1])]).
  assert (Hrun : run = (Ret data', snd run)) by (vm_compute; reflexivity).
  exists data', (snd run). split; [exact Hrun|]. split; [|reflexivity].
  destruct (redraw_from_frame Demo.E 5 "b" Demo.data_abc data' VNone []
              (Demo.engine Demo.model_abc) (snd run))
    as (closure & Hcl & _ & Hframe).
  - intros name e Hin. simpl in Hin.
    repeat (destruct Hin as [Heq|Hin];
            [inversion Heq; subst; left; reflexivity|]).
    destruct Hin.
  - simpl. lia.
  - reflexivity.
  - exact Hrun.
  - inversion Hcl; subst closure.
    rewrite (Hframe (LStr "a")); [reflexivity|].
    intros n Hn. inversion Hn; subst n. simpl. intuition discriminate.
Defined.

(** Whatever makes [change_model] fail, the failure commits nothing. *)
Lemma change_model_failure_atomic (E : env) (s s' : state (world E))
  (overrides : Dict.t value) (e : exn) :
  self_model s < length (heap s) ->
  change_model E overrides s = (Raise e, s') ->
  self_model s' = self_model s /\ stored s' = stored s.
Proof.
  intros Hvalid Hrun.
  pose proof (get_model_keeps_stored E
                (default (VDict []) (Dict.get "funcs" overrides))
                (Dict.remove "funcs" overrides) s Hvalid) as Hu.
  unfold change_model, get_model_call, bind in Hrun.
  destruct (get_model E _ (Dict.remove "funcs" overrides) s)
    as [[r|e0|] s1]; simpl in *; inversion Hrun; subst; exact Hu.
Qed.

(** * Further properties of the module *)

(** ** The closure methods, for any names *)

Lemma expand_never_raises (series : list (string * string)) (fuel : nat)
  (leads acc : list string) (e : exn) :
  expand fuel series leads acc <> Raise e.
Proof.
  revert leads acc. induction fuel as [|fuel IH]; intros leads acc;
    destruct leads; simpl; try discriminate. apply IH.
Qed.

(** What the loop returns when started from a list of names. *)
Lemma expand_reaches_from (series : list (string * string))
  (R : string -> string -> Prop) (fuel : nat) (names acc l : list string) :
  (forall x y, In (x, y) series <-> R x y) ->
  expand fuel series (loc_isin series names) acc = Ret l ->
  forall b, In b l <-> In b acc \/ exists a, In a names /\ reaches R a b.
Proof.
  intros Hedge Hret b. rewrite (expand_In series _ _ _ _ Hret b).
  apply or_iff_compat_l. split.
  - intros [k Hk]. change (In b (frontier series (S k) names)) in Hk.
    apply frontier_chain in Hk as (x & p & Hx & Hlen & Hp & Hlast).
    exists x. split; [exact Hx|]. exists p.
    split; [destruct p; discriminate|]. split; [|exact Hlast].
    apply (chain_ext _ R x p) in Hp; [exact Hp|]. intros; apply Hedge; auto.
  - intros (a & Ha & p & Hne & Hp & Hlast).
    destruct p as [|y p]; [congruence|]. exists (length p).
    change (In b (frontier series (S (length p)) names)).
    apply frontier_chain. exists a, (y :: p).
    split; [exact Ha|]. split; [reflexivity|]. split; [|exact Hlast].
    apply (chain_ext R); [|exact Hp]. intros; apply Hedge; auto.
Qed.

(** Whenever a closure method returns, for one name or for several, with
    or without the names themselves, its list holds exactly the given
    names (if asked for) and the names reached from one of them:
    forwards along "is an input of", backwards along "refers to". *)
Theorem closure_members (model : document) (fuel : nat) (name : name_arg)
  (incl_input : bool) :
  (forall l, forward_entries fuel model name incl_input = Ret l ->
     forall b, In b l <->
       (incl_input = true /\ In b (atleast_1d name))
       \/ exists a, In a (atleast_1d name) /\ reaches (feeds model) a b)
  /\ (forall l, backward_entries fuel model name incl_input = Ret l ->
     forall b, In b l <->
       (incl_input = true /\ In b (atleast_1d name))
       \/ exists a, In a (atleast_1d name)
                    /\ reaches (refers_to model) a b).
Proof.
  unfold forward_entries, backward_entries.
  destruct (get_modeldf model) as [rows| |] eqn:Hrows;
    [|split; discriminate|split; discriminate].
  split; intros l Hl b.
  - rewrite (expand_reaches_from _ (feeds model) _ _ _ _
               (fun x y => entry_inputof_feeds model rows x y Hrows) Hl b).
    destruct incl_input; simpl; intuition discriminate.
  - rewrite (expand_reaches_from _ (refers_to model) _ _ _ _
               (fun x y => depends_on_refers_to model rows x y Hrows) Hl b).
    destruct incl_input; simpl; intuition discriminate.
Qed.

(** In [model_diamond], the forward closure of [a] holds [d]. *)
Lemma closure_members_witness :
  In "d" ["a"; "b"; "c"; "d"; "d"]
  <-> (true = true /\ In "d" ["a"])
      \/ exists a, In a ["a"]
                   /\ reaches (feeds Examples.model_diamond) a "d".
Proof.
  exact (proj1 (closure_members Examples.model_diamond 5 (One "a") true)
               ["a"; "b"; "c"; "d"; "d"] eq_refl "d").
Defined.

(** A loop that meets a cycle never empties its frontier. *)
Lemma expand_diverges (series : list (string * string)) (fuel : nat)
  (names acc : list string) (b : string) (i j : nat) :
  In b (frontier series i names) ->
  In b (frontier series (S j) [b]) ->
  expand fuel series (loc_isin series names) acc = Diverge.
Proof.
  intros Hreach Hcycle.
  destruct (expand fuel series (loc_isin series names) acc) as [l|e|] eqn:Hrun;
    [|exfalso; exact (expand_never_raises _ _ _ _ _ Hrun)|reflexivity].
  exfalso. apply expand_ret_empty in Hrun as (n & _ & Hn).
  change (frontier series (S n) names = []) in Hn.
  pose proof (frontier_recurs series b (S j) Hcycle (S n)) as Hrec.
  assert (Hin : In b (frontier series (i + S n * S j) names)).
  { rewrite frontier_plus.
    apply (frontier_mono series (S n * S j) [b]); [|exact Hrec].
    intros y [<-|[]]. exact Hreach. }
  rewrite (frontier_empty_later series (S n) (i + S n * S j) names Hn) in Hin;
    [destruct Hin | nia].
Qed.

Lemma reaches_frontier (series : list (string * string))
  (R : string -> string -> Prop) (a b : string) :
  (forall x y, In (x, y) series <-> R x y) ->
  reaches R a b -> exists j, In b (frontier series (S j) [a]).
Proof.
  intros Hedge (p & Hne & Hp & Hlast).
  destruct p as [|y p]; [congruence|]. exists (length p).
  apply frontier_chain. exists a, (y :: p).
  split; [left; reflexivity|]. split; [reflexivity|]. split; [|exact Hlast].
  apply (chain_ext R); [|exact Hp]. intros; apply Hedge; auto.
Qed.

(** The closure methods have no guard against cycles: when a name lies
    on a cycle of references, or leads to one, the loop started from it
    never ends, whatever the number of turns allowed.  Forwards that is
    every name the cycle depends on, backwards every name that depends
    on the cycle. *)
Theorem closure_diverges_on_cycle (model : document) (fuel : nat)
  (a b c : string) (incl_input : bool) :
  has_kwargs_column model = true ->
  reaches (feeds model) b b ->
  (a = b \/ reaches (feeds model) a b) ->
  (c = b \/ reaches (refers_to model) c b) ->
  forward_entries fuel model (One a) incl_input = Diverge
  /\ backward_entries fuel model (One c) incl_input = Diverge.
Proof.
  intros Hcol Hbb Hab Hcb. unfold forward_entries, backward_entries.
  destruct (get_modeldf model) as [rows| |] eqn:Hrows;
    try (unfold get_modeldf in Hrows; rewrite Hcol in Hrows; discriminate).
  simpl. split.
  - pose proof (fun x y => entry_inputof_feeds model rows x y Hrows)
      as Hedge.
    destruct (reaches_frontier _ _ b b Hedge Hbb) as [j Hj].
    destruct Hab as [->|Hab].
    + apply (expand_diverges _ fuel [b] _ b 0 j); [left; reflexivity|exact Hj].
    + destruct (reaches_frontier _ _ a b Hedge Hab) as [i Hi].
      exact (expand_diverges _ fuel [a] _ b (S i) j Hi Hj).
  - pose proof (fun x y => depends_on_refers_to model rows x y Hrows)
      as Hedge.
    pose proof (reaches_reverse (feeds model) b b Hbb) as Hbb'.
    destruct (reaches_frontier _ (refers_to model) b b Hedge Hbb') as [j Hj].
    destruct Hcb as [->|Hcb].
    + apply (expand_diverges _ fuel [b] _ b 0 j); [left; reflexivity|exact Hj].
    + destruct (reaches_frontier _ _ c b Hedge Hcb) as [i Hi].
      exact (expand_diverges _ fuel [c] _ b (S i) j Hi Hj).
Qed.

(** [a] and [b] of [model_loop] refer to each other. *)
Lemma closure_diverges_on_cycle_witness :
  forward_entries 1000 Examples.model_loop (One "a") true = Diverge
  /\ backward_entries 1000 Examples.model_loop (One "a") true = Diverge.
Proof.
  apply (closure_diverges_on_cycle Examples.model_loop 1000 "a" "a" "a" true).
  - reflexivity.
  - exists ["b"; "a"]. split; [discriminate|]. split; [|reflexivity].
    split; [|split; [|exact I]].
    + exists "b", (Entry (VFun 1) (KwDict [("loc", VStr "@a")]) AsAbsent).
      simpl. auto.
    + exists "a", (Entry (VFun 1) (KwDict [("loc", VStr "@b")]) AsAbsent).
      simpl. auto.
  - left. reflexivity.
  - left. reflexivity.
Defined.

(** Asked for the closure of one name without the name itself, a
    closure method that returns never lists that name, and it leaves the
    engine as it found it. *)
Theorem closure_excludes_name (E : env) (fuel : nat) (a : string)
  (s s' : state (world E)) (l : list string) :
  (get_forward_entries E fuel (One a) false s = (Ret l, s')
   \/ get_backward_entries E fuel (One a) false s = (Ret l, s')) ->
  ~ In a l /\ s' = s.
Proof.
  intros [Hrun|Hrun].
  - rewrite get_forward_entries_run in Hrun.
    inversion Hrun as [[Hl Hs]]. split; [|reflexivity].
    unfold forward_entries in Hl.
    destruct (get_modeldf (stored s)) as [rows| |]; try discriminate.
    exact (not_in_own_closure _ _ _ _ Hl).
  - change (get_backward_entries E fuel (One a) false s)
      with (backward_entries fuel (stored s) (One a) false, s) in Hrun.
    inversion Hrun as [[Hl Hs]]. split; [|reflexivity].
    unfold backward_entries in Hl.
    destruct (get_modeldf (stored s)) as [rows| |]; try discriminate.
    exact (not_in_own_closure _ _ _ _ Hl).
Qed.

Lemma closure_excludes_name_witness :
  ~ In "a" ["b"; "c"; "d"; "d"]
  /\ Demo.engine Examples.model_diamond = Demo.engine Examples.model_diamond.
Proof.
  apply (closure_excludes_name Demo.E 5 "a").
  left. reflexivity.
Defined.

(** ** The output names of a document *)

Lemma unique_in_order_In (seen l : list string) (x : string) :
  In x (unique_in_order seen l) <-> In x l /\ ~ In x seen.
Proof.
  revert seen. induction l as [|y l IH]; intros seen; simpl; [tauto|].
  destruct (mem_str y seen) eqn:Hmem.
  - apply mem_str_In in Hmem. rewrite IH. split.
    + tauto.
    + intros [[<-|Hx] Hn]; [contradiction|tauto].
  - assert (Hy : ~ In y seen)
      by (intros H; apply mem_str_In in H; congruence).
    simpl. rewrite IH. simpl. split.
    + intros [<-|[Hx Hn]]; [tauto|]. split; [tauto|]. intros H. apply Hn. auto.
    + intros [[<-|Hx] Hn]; [tauto|].
      destruct (string_dec y x) as [->|Hne]; [tauto|].
      right. split; [exact Hx|]. intros [H|H]; [congruence|contradiction].
Qed.

Lemma unique_in_order_NoDup (seen l : list string) :
  List.NoDup (unique_in_order seen l).
Proof.
  revert seen. induction l as [|y l IH]; intros seen; simpl.
  - apply List.NoDup_nil.
  - destruct (mem_str y seen); [apply IH|].
    apply List.NoDup_cons; [|apply IH].
    intros H. apply unique_in_order_In in H as [_ H]. apply H. left.
    reflexivity.
Qed.

Lemma explode_input_not_nil (l : list string) : explode_input l <> [].
Proof. destruct l; discriminate. Qed.

(** The index of the model table holds the output names of the
    entries. *)
Lemma modeldf_index (model : document) (rows : list modeldf_row)
  (x : string) :
  get_modeldf model = Ret rows ->
  In x (map fst rows) <->
  exists name e, In (name, e) model /\ In x (entry_labels name e).
Proof.
  unfold get_modeldf. destruct (has_kwargs_column model); [|discriminate].
  intros Hrows. inversion Hrows; subst rows; clear Hrows.
  rewrite in_map_iff. split.
  - intros ([x' i] & Hx & Hin). simpl in Hx. subst x'.
    apply in_flat_map in Hin as ([name e] & Hmodel & Hin). simpl in Hin.
    apply in_flat_map in Hin as (lbl & Hlbl & Hin).
    apply in_map_iff in Hin as (i' & Heq & _). inversion Heq; subst. eauto.
  - intros (name & e & Hmodel & Hlbl).
    destruct (explode_input (entry_inputs e)) as [|i rest] eqn:Hex;
      [exfalso; exact (explode_input_not_nil _ Hex)|].
    exists (x, i). split; [reflexivity|].
    apply in_flat_map. exists (name, e). split; [exact Hmodel|]. simpl.
    apply in_flat_map. exists x. split; [exact Hlbl|].
    rewrite Hex. left. reflexivity.
Qed.

Lemma entries_spec_of (model : document) (names : list string)
  (rows : list modeldf_row) :
  get_modeldf model = Ret rows ->
  entries model = Ret names ->
  List.NoDup names
  /\ forall x, In x names <->
               exists name e, In (name, e) model
                              /\ In x (entry_labels name e).
Proof.
  intros Hrows. unfold entries. rewrite Hrows.
  intros H. inversion H; subst names; clear H.
  split; [apply unique_in_order_NoDup|].
  intros x. rewrite unique_in_order_In, (modeldf_index model rows x Hrows).
  simpl. tauto.
Qed.

(** [self.entries], when the model table can be built, lists every
    output name of the document (each alias, or the entry name where
    there is none) and lists none of them twice. *)
Theorem entries_are_output_names (model : document) (names : list string) :
  entries model = Ret names ->
  List.NoDup names
  /\ forall x, In x names <->
               exists name e, In (name, e) model
                              /\ In x (entry_labels name e).
Proof.
  unfold entries. destruct (get_modeldf model) as [rows| |] eqn:Hrows;
    try discriminate.
  intros H. inversion H; subst names; clear H.
  split; [apply unique_in_order_NoDup|].
  intros x. rewrite unique_in_order_In, (modeldf_index model rows x Hrows).
  simpl. tauto.
Qed.

(** [model_shared_alias] has two entries and three aliases, two of them
    equal: its output names are [x] and [y]. *)
Lemma entries_are_output_names_witness :
  List.NoDup ["x"; "y"]
  /\ forall x, In x ["x"; "y"] <->
               exists name e, In (name, e) Examples.model_shared_alias
                              /\ In x (entry_labels name e).
Proof.
  exact (entries_are_output_names Examples.model_shared_alias ["x"; "y"]
           eq_refl).
Defined.

(** ** Documents without any kwargs *)

(** When no entry of the stored document has the key ["kwargs"], the
    model table cannot be built: [self.entries], both closure methods,
    [redraw_from] and [to_graph] raise [KeyError("kwargs")], whatever
    their arguments, and leave the engine as it was. *)
Theorem no_kwargs_column_raises (E : env) (s : state (world E)) :
  has_kwargs_column (stored s) = false ->
  entries (stored s) = Raise (KeyError "kwargs")
  /\ (forall fuel name incl_input,
        get_forward_entries E fuel name incl_input s
        = (Raise (KeyError "kwargs"), s))
  /\ (forall fuel name incl_input,
        get_backward_entries E fuel name incl_input s
        = (Raise (KeyError "kwargs"), s))
  /\ (forall fuel name data incl_name size overrides,
        redraw_from E fuel name data incl_name size overrides s
        = (Raise (KeyError "kwargs"), s))
  /\ (forall engine k,
        to_graph engine (stored s) <> inr (Ret k)).
Proof.
  intros Hcol.
  assert (Hdf : get_modeldf (stored s) = Raise (KeyError "kwargs"))
    by (unfold get_modeldf; rewrite Hcol; reflexivity).
  assert (Hfw : forall fuel name incl_input,
             get_forward_entries E fuel name incl_input s
             = (Raise (KeyError "kwargs"), s)).
  { intros. rewrite get_forward_entries_run. unfold forward_entries.
    rewrite Hdf. reflexivity. }
  split; [unfold entries; rewrite Hdf; reflexivity|].
  split; [exact Hfw|]. split; [|split].
  - intros.
    change (get_backward_entries E fuel name incl_input s)
      with (backward_entries fuel (stored s) name incl_input, s).
    unfold backward_entries. rewrite Hdf. reflexivity.
  - intros. unfold redraw_from.
    destruct (Nat.ltb 1 (length (atleast_1d name))) eqn:Hlen.
    + destruct (atleast_1d name) as [|n names]; [discriminate|].
      simpl forward_closures. unfold bind. rewrite Hfw. reflexivity.
    + unfold bind. rewrite Hfw. reflexivity.
  - intros engine k. unfold to_graph, entries. rewrite Hdf.
    destruct (String.eqb engine "networkx"); [discriminate|].
    destruct (mem_str engine ["graphviz"; "pygraphviz"]); discriminate.
Qed.

Lemma no_kwargs_column_raises_witness :
  redraw_from Demo.E 5 (Many ["a"; "b"]) Demo.data_x true VNone []
              (Demo.engine Demo.model_plain)
  = (Raise (KeyError "kwargs"), Demo.engine Demo.model_plain).
Proof.
  exact (proj1 (proj2 (proj2 (proj2
           (no_kwargs_column_raises Demo.E (Demo.engine Demo.model_plain)
              eq_refl))))
           5 (Many ["a"; "b"]) Demo.data_x true VNone []).
Defined.

(** ** The graph export *)

(** [to_graph] refuses an engine other than networkx, graphviz and
    pygraphviz before it looks at the document.  When it builds a graph,
    that is networkx's exactly for the engine ["networkx"]; it first adds
    one node per output name, each once, and then one edge per reference,
    from the name referred to to the output that uses it. *)
Theorem to_graph_calls (engine : string) (model : document) :
  (mem_str engine ["networkx"; "graphviz"; "pygraphviz"] = false ->
   exists msg, to_graph engine model = inl msg)
  /\ (forall kind calls,
        to_graph engine model = inr (Ret (kind, calls)) ->
        (kind = Networkx <-> engine = "networkx")
        /\ exists names edges,
             calls = map AddNode names
                     ++ map (fun p => AddEdge (fst p) (snd p)) edges
             /\ List.NoDup names
             /\ (forall x, In x names <->
                           exists name e, In (name, e) model
                                          /\ In x (entry_labels name e))
             /\ (forall a b, In (a, b) edges <-> feeds model a b)).
Proof.
  unfold to_graph. split.
  - simpl. destruct (String.eqb engine "networkx"); [discriminate|].
    simpl. destruct (String.eqb engine "graphviz"); [discriminate|].
    destruct (String.eqb engine "pygraphviz"); [discriminate|].
    simpl. eauto.
  - intros kind calls Hrun.
    assert (Hbody : exists k,
      (k = Networkx <-> engine = "networkx")
      /\ match entries model with
         | Ret names =>
             match get_modeldf model with
             | Ret rows =>
                 Ret (k, map AddNode names
                         ++ map (fun p => AddEdge (fst p) (snd p))
                                (entry_inputof rows))
             | Raise e => Raise e
             | Diverge => Diverge
             end
         | Raise e => Raise e
         | Diverge => Diverge
         end = Ret (kind, calls)).
    { destruct (String.eqb_spec engine "networkx") as [->|Hne].
      - exists Networkx. inversion Hrun. split; [tauto|reflexivity].
      - destruct (mem_str engine ["graphviz"; "pygraphviz"]);
          [|discriminate].
        exists Graphviz. inversion Hrun.
        split; [split; [discriminate|contradiction]|reflexivity]. }
    destruct Hbody as (k & Hk & Hbody).
    destruct (entries model) as [names| |] eqn:Hentries; try discriminate.
    destruct (get_modeldf model) as [rows| |] eqn:Hrows; try discriminate.
    inversion Hbody; subst kind calls; clear Hbody.
    split; [exact Hk|]. exists names, (entry_inputof rows).
    destruct (entries_spec_of model names rows Hrows Hentries)
      as [Hnodup Hnames].
    split; [reflexivity|]. split; [exact Hnodup|]. split; [exact Hnames|].
    intros a b. apply (entry_inputof_feeds model rows a b Hrows).
Qed.

(** The graphviz export of [model_abc]: three nodes, two edges. *)
Lemma to_graph_calls_witness :
  to_graph "graphviz" Demo.model_abc
  = inr (Ret (Graphviz, [AddNode "a"; AddNode "b"; AddNode "c";
                         AddEdge "a" "b"; AddEdge "b" "c"]))
  /\ ((Graphviz = Networkx <-> "graphviz" = "networkx")
      /\ exists names edges,
           [AddNode "a"; AddNode "b"; AddNode "c";
            AddEdge "a" "b"; AddEdge "b" "c"]
           = map AddNode names
             ++ map (fun p => AddEdge (fst p) (snd p)) edges
           /\ List.NoDup names
           /\ (forall x, In x names <->
                         exists name e, In (name, e) Demo.model_abc
                                        /\ In x (entry_labels name e))
           /\ (forall a b, In (a, b) edges <-> feeds Demo.model_abc a b)).
Proof.
  split; [reflexivity|].
  exact (proj2 (to_graph_calls "graphviz" Demo.model_abc) _ _ eq_refl).
Defined.

(** ** Inspection of the functions *)

Lemma get_modeldf_returns_or_raises (model : document) :
  get_modeldf model <> Diverge.
Proof. unfold get_modeldf. destruct (has_kwargs_column model); discriminate. Qed.

Lemma engine_attr_never_diverges (E : env) (model : document) (a : string) :
  engine_attr E model a <> Diverge.
Proof.
  pose proof (get_modeldf_returns_or_raises model) as Hdf.
  unfold engine_attr, entries.
  repeat match goal with
         | |- context [if ?c then _ else _] => destruct c
         end;
    try (destruct (get_modeldf model); congruence).
  destruct (self_attr E a); discriminate.
Qed.

Lemma owner_attr_never_diverges (E : env) (a : string) :
  owner_attr E a <> Diverge.
Proof. unfold owner_attr. destruct (obj_attr E a); discriminate. Qed.

Lemma parse_never_diverges (E : env) (model : document) (name : string)
  (func : value) :
  _parse_input_func E model name func <> Diverge.
Proof.
  unfold _parse_input_func, attribute.
  destruct (callable func); [discriminate|].
  assert (H1 : forall a, engine_attr E model a <> Diverge)
    by apply engine_attr_never_diverges.
  assert (H2 : forall a, owner_attr E a <> Diverge)
    by apply owner_attr_never_diverges.
  pose proof (H1 ("draw_" ++ name)%string) as H3.
  pose proof (H2 ("draw_" ++ name)%string) as H4.
  destruct (engine_attr E model ("draw_" ++ name)) as [[?|]| |];
    destruct (owner_attr E ("draw_" ++ name)) as [[?|]| |];
    try congruence;
    destruct func as [| | |src| | | |]; try discriminate;
    try (specialize (H1 src); specialize (H2 src);
         destruct (engine_attr E model src) as [[?|]| |];
         destruct (owner_attr E src) as [[?|]| |]; try congruence;
         try discriminate; destruct (py_eval E name src); discriminate).
Qed.

Lemma set_fresh {V : Type} (k : string) (v : V) (d : Dict.t V) :
  ~ In k (map fst d) -> Dict.set k v d = d ++ [(k, v)].
Proof.
  induction d as [|[k' v'] d IH]; simpl; [reflexivity|].
  intros Hn. destruct (String.eqb_spec k k') as [->|Hne]; [tauto|].
  rewrite IH by tauto. reflexivity.
Qed.

Lemma inspect_entries_returns (E : env) (model : document)
  (valdefault : value)
  (items : list (string * entry)) (acc d : Dict.t inspection) :
  List.NoDup (map fst acc ++ map fst items) ->
  inspect_entries E model valdefault items acc = Ret d ->
  exists d',
    d = acc ++ d'
    /\ Forall2 (fun ke kp =>
                  fst kp = fst ke
                  /\ exists f,
                       _parse_input_func E model (fst ke) (func (snd ke)) = Ret f
                       /\ snd kp = match argspec E f with
                                   | Some a => Args a
                                   | None => Unknown valdefault
                                   end) items d'.
Proof.
  revert acc. induction items as [|[k m] rest IH]; intros acc Hnd Hrun.
  - inversion Hrun; subst. exists []. rewrite app_nil_r. auto.
  - simpl in Hrun.
    destruct (_parse_input_func E model k (func m)) as [f| |] eqn:Hf;
      try discriminate.
    simpl in Hnd.
    assert (Hfresh : ~ In k (map fst acc)).
    { apply List.NoDup_remove_2 in Hnd. intros H. apply Hnd.
      apply in_or_app. auto. }
    rewrite (set_fresh k _ acc Hfresh) in Hrun.
    apply IH in Hrun as (d' & -> & Hall).
    + eexists. split; [rewrite <- app_assoc; reflexivity|].
      constructor; [|exact Hall]. simpl. eauto.
    + rewrite map_app. simpl. rewrite <- app_assoc. exact Hnd.
Qed.

Lemma inspect_entries_raises (E : env) (model : document)
  (valdefault : value)
  (items : list (string * entry)) (acc : Dict.t inspection)
  (name : string) (e : entry) (err : exn) :
  In (name, e) items ->
  _parse_input_func E model name (func e) = Raise err ->
  exists err', inspect_entries E model valdefault items acc = Raise err'.
Proof.
  revert acc. induction items as [|[k m] rest IH]; intros acc Hin Herr;
    [destruct Hin|].
  simpl. destruct (_parse_input_func E model k (func m)) as [f|err0|] eqn:Hf.
  - destruct Hin as [Heq|Hin]; [inversion Heq; subst; congruence|].
    exact (IH _ Hin Herr).
  - eauto.
  - exfalso. exact (parse_never_diverges E model k (func m) Hf).
Qed.

(** [get_func_parameters] only reads: it changes neither the documents
    nor the log of calls.  On a document with pairwise different entry
    names it returns one item per entry, in document order, holding the
    argument names of the entry's resolved function, or [valdefault]
    where inspection fails; and it raises as soon as the function of
    some entry cannot be resolved. *)
Theorem get_func_parameters_inspects (E : env) (valdefault : value)
  (s : state (world E)) :
  unique_keys (stored s) ->
  snd (get_func_parameters E valdefault s) = s
  /\ (forall d, fst (get_func_parameters E valdefault s) = Ret d ->
        Forall2 (fun ke kp =>
                   fst kp = fst ke
                   /\ exists f,
                        _parse_input_func E (stored s) (fst ke) (func (snd ke)) = Ret f
                        /\ snd kp = match argspec E f with
                                    | Some a => Args a
                                    | None => Unknown valdefault
                                    end) (stored s) d)
  /\ (forall name e err,
        In (name, e) (stored s) ->
        _parse_input_func E (stored s) name (func e) = Raise err ->
        exists err', fst (get_func_parameters E valdefault s) = Raise err').
Proof.
  intros Hkeys. split; [reflexivity|]. split.
  - intros d Hrun.
    change (inspect_entries E (stored s) valdefault (stored s) [] = Ret d) in Hrun.
    destruct (inspect_entries_returns E (stored s) valdefault (stored s) [] d Hkeys Hrun)
      as (d' & -> & Hall). exact Hall.
  - intros name e err Hin Herr.
    exact (inspect_entries_raises E (stored s) valdefault (stored s) [] name e err
             Hin Herr).
Qed.

(** In [model_abc], only the function of [b] and [c] can be inspected. *)
Lemma get_func_parameters_inspects_witness :
  get_func_parameters Demo.E (VStr "unknown") (Demo.engine Demo.model_abc)
  = (Ret [("a", Unknown (VStr "unknown"));
          ("b", Args ["loc"; "scale"; "size"]);
          ("c", Args ["loc"; "scale"; "size"])],
     Demo.engine Demo.model_abc)
  /\ snd (get_func_parameters Demo.E (VStr "unknown")
                              (Demo.engine Demo.model_abc))
     = Demo.engine Demo.model_abc.
Proof.
  split; [reflexivity|].
  refine (proj1 (get_func_parameters_inspects Demo.E (VStr "unknown")
                   (Demo.engine Demo.model_abc) _)).
  unfold unique_keys. simpl.
  repeat (apply List.NoDup_cons; [simpl; intuition discriminate|]).
  apply List.NoDup_nil.
Defined.

(** ** Names that can be referred to *)

Lemma split_pieces_clean (sep : ascii) (s : string) :
  Forall (fun piece => contains_char sep piece = false) (split sep s).
Proof.
  induction s as [|c s IH]; simpl.
  - constructor; [reflexivity|constructor].
  - destruct (Ascii.eqb c sep) eqn:Hc.
    + constructor; [reflexivity|exact IH].
    + destruct (split sep s) as [|h t].
      * constructor; [simpl; rewrite Hc; reflexivity|constructor].
      * inversion IH as [|? ? Hh Ht]; subst.
        constructor; [simpl; rewrite Hc; exact Hh|exact Ht].
Qed.

Lemma split_hd_prefix (sep : ascii) (s : string) :
  exists rest, s = (hd EmptyString (split sep s) ++ rest)%string.
Proof.
  induction s as [|c s [rest IH]]; simpl.
  - exists EmptyString. reflexivity.
  - destruct (Ascii.eqb c sep).
    + exists (String c s). reflexivity.
    + destruct (split sep s) as [|h t] eqn:Hs.
      * exfalso. exact (split_not_nil sep s Hs).
      * simpl in *. exists rest. rewrite IH at 1. reflexivity.
Qed.

Lemma last_in_list (l : list string) (d : string) :
  l <> [] -> In (List.last l d) l.
Proof.
  induction l as [|x l IH]; [congruence|]. intros _.
  destruct l as [|y l]; [left; reflexivity|].
  right. apply IH. discriminate.
Qed.

(** The name taken from a reference never holds ["@"] or a space: a
    column whose name has one of them cannot be referred to. *)
Theorem ref_name_clean (s : string) :
  contains_char "@" (ref_name s) = false
  /\ contains_char " " (ref_name s) = false.
Proof.
  unfold ref_name.
  set (tail := List.last (split "@" s) EmptyString).
  assert (Htail : contains_char "@" tail = false).
  { pose proof (split_pieces_clean "@" s) as Hall.
    rewrite List.Forall_forall in Hall. apply Hall.
    apply last_in_list, split_not_nil. }
  split.
  - destruct (split_hd_prefix " " tail) as [rest Hrest].
    rewrite Hrest, contains_char_append in Htail.
    apply orb_false_iff in Htail. tauto.
  - pose proof (split_pieces_clean " " tail) as Hall.
    destruct (split " " tail) as [|h t] eqn:Hs;
      [exfalso; exact (split_not_nil _ _ Hs)|].
    inversion Hall as [|? ? Hh Ht]; subst. exact Hh.
Qed.

(** ** Copies made by the registry *)

Lemma Forall2_same {A : Type} (P : A -> A -> Prop) (l : list A) :
  (forall x, P x x) -> Forall2 P l l.
Proof. intros HP. induction l; constructor; auto. Qed.

Lemma Forall2_compose {A : Type} (P Q R : A -> A -> Prop)
  (l1 l2 l3 : list A) :
  (forall x y z, P x y -> Q y z -> R x z) ->
  Forall2 P l1 l2 -> Forall2 Q l2 l3 -> Forall2 R l1 l3.
Proof.
  intros HPQ H12. revert l3. induction H12 as [|x y l1 l2 Hxy _ IH];
    intros l3 H23; inversion H23; subst; constructor; eauto.
Qed.

(** What one assignment [doc[k] = e'] changes, entry by entry, when
    [e'] is the entry under [k] with a dict for its kwargs. *)
Lemma set_entrywise (doc : document) (k : string) (e : entry)
  (d : Dict.t value) :
  Dict.get k doc = Some e ->
  Forall2 (fun old new =>
             fst new = fst old
             /\ alias (snd new) = alias (snd old)
             /\ ((exists d0, kwargs (snd old) = KwDict d0) ->
                 exists d1, kwargs (snd new) = KwDict d1))
          doc (Dict.set k (Entry (func e) (KwDict d) (alias e)) doc).
Proof.
  intros Hget. induction doc as [|[k0 e0] doc IH]; [discriminate|].
  simpl in *. destruct (String.eqb_spec k k0) as [->|Hne].
  - inversion Hget; subst e0. constructor.
    + simpl. repeat split; eauto.
    + apply Forall2_same. intros [? ?]. simpl. auto.
  - constructor; [simpl; auto|]. apply IH. exact Hget.
Qed.

(** A merge leaves a dict where there was one. *)
Lemma apply_override_dict (doc doc' : document) (k : string) (v : value)
  (k' : string) :
  apply_override doc k v = Ret doc' ->
  (k' = k \/ exists e d, Dict.get k' doc = Some e /\ kwargs e = KwDict d) ->
  exists e' d', Dict.get k' doc' = Some e' /\ kwargs e' = KwDict d'.
Proof.
  unfold apply_override.
  destruct (Dict.get k doc) as [e0|] eqn:Hget; [|discriminate].
  intros Hstep Hwhy.
  assert (Hset : forall d1,
    exists e' d', Dict.get k' (Dict.set k (Entry (func e0) (KwDict d1)
                                              (alias e0)) doc) = Some e'
                  /\ kwargs e' = KwDict d').
  { intros d1. destruct (String.eqb_spec k k') as [<-|Hne].
    - rewrite get_set_eq. eauto.
    - rewrite get_set_ne by exact Hne.
      destruct Hwhy as [->|(e & d & He & Hd)]; [congruence|eauto]. }
  destruct (kwargs e0), v; inversion Hstep; subst; apply Hset.
Qed.

Lemma apply_overrides_entrywise (doc doc' : document)
  (overrides : Dict.t value) :
  apply_overrides doc overrides = Ret doc' ->
  Forall2 (fun old new =>
             fst new = fst old
             /\ alias (snd new) = alias (snd old)
             /\ ((exists d0, kwargs (snd old) = KwDict d0) ->
                 exists d1, kwargs (snd new) = KwDict d1))
          doc doc'
  /\ forall k,
       In k (map fst overrides)
       \/ (exists e d, Dict.get k doc = Some e /\ kwargs e = KwDict d) ->
       exists e' d', Dict.get k doc' = Some e' /\ kwargs e' = KwDict d'.
Proof.
  revert doc. induction overrides as [|[k v] rest IH]; intros doc Hrun.
  - inversion Hrun; subst. split.
    + apply Forall2_same. intros [? ?]. simpl. auto.
    + intros k [[]|H]. exact H.
  - simpl in Hrun.
    destruct (apply_override doc k v) as [doc1| |] eqn:Hstep;
      try discriminate.
    assert (Hone : Forall2 (fun old new =>
                     fst new = fst old
                     /\ alias (snd new) = alias (snd old)
                     /\ ((exists d0, kwargs (snd old) = KwDict d0) ->
                         exists d1, kwargs (snd new) = KwDict d1))
                   doc doc1).
    { unfold apply_override in Hstep.
      destruct (Dict.get k doc) as [e|] eqn:Hget; [|discriminate].
      destruct (kwargs e), v; inversion Hstep; subst;
        apply (set_entrywise doc k e); auto. }
    destruct (IH doc1 Hrun) as [Hall Hdict]. split.
    + refine (Forall2_compose _ _ _ doc doc1 doc' _ Hone Hall).
      intros x y z (Hk1 & Ha1 & Hd1) (Hk2 & Ha2 & Hd2).
      repeat split; try congruence. auto.
    + intros k' Hwhy. apply Hdict.
      destruct Hwhy as [[Heq|Hin]|Hd]; [right|left; exact Hin|right].
      * simpl in Heq. apply (apply_override_dict doc doc1 k v k' Hstep).
        left. congruence.
      * apply (apply_override_dict doc doc1 k v k' Hstep). right. exact Hd.
Qed.

(** Whenever [get_model] returns, what it returns is a new object, and
    that object has as many entries as the stored document, under the
    same names and in the same order, each with the alias it had and
    with a dict for its kwargs where it had one; and under every name
    that an override gives, the kwargs is a dict. *)
Theorem get_model_keeps_entries (E : env) (funcs : value)
  (overrides : Dict.t value) (s s' : state (world E))
  (r : nat) :
  get_model E funcs overrides s = (Ret r, s') ->
  r = length (heap s)
  /\ Forall2 (fun old new =>
                fst new = fst old
                /\ alias (snd new) = alias (snd old)
                /\ ((exists d0, kwargs (snd old) = KwDict d0) ->
                    exists d1, kwargs (snd new) = KwDict d1))
             (stored s) (object_at r s')
  /\ forall k, In k (map fst overrides) ->
       exists e' d', Dict.get k (object_at r s') = Some e'
                     /\ kwargs e' = KwDict d'.
Proof.
  intros Hrun. pose proof (get_model_spec E funcs overrides s) as Hspec.
  rewrite Hrun in Hspec. simpl in Hspec.
  destruct (apply_overrides (stored s) overrides) as [doc'|e|] eqn:Happly;
    [|discriminate|contradiction].
  destruct Hspec as [Hr Hdoc]. inversion Hr; subst r.
  split; [reflexivity|]. rewrite Hdoc.
  destruct (apply_overrides_entrywise _ _ _ Happly) as [Hall Hdict].
  split; [exact Hall|]. intros k Hk. apply Hdict. left. exact Hk.
Qed.

(** An override of [a] in [model_plain], whose entry has no kwargs: one
    entry comes back, under the name [a], with a dict for its kwargs. *)
Lemma get_model_keeps_entries_witness :
  exists s',
    get_model Demo.E (VDict []) [("a", VDict [("scale", VInt 2)])]
              (Demo.engine Demo.model_plain) = (Ret 1, s')
    /\ map fst (object_at 1 s') = ["a"]
    /\ exists e' d', Dict.get "a" (object_at 1 s') = Some e'
                     /\ kwargs e' = KwDict d'.
Proof.
  eexists. split; [reflexivity|].
  destruct (get_model_keeps_entries Demo.E (VDict [])
              [("a", VDict [("scale", VInt 2)])]
              (Demo.engine Demo.model_plain) _ 1 eq_refl)
    as (_ & _ & Hdict).
  split; [reflexivity|]. apply Hdict. simpl. auto.
Defined.

(** ** The single-entry draw *)

Section DrawParamFacts.
Context (E : env).

Lemma lift_inv {A : Type} (o : outcome A) (s s' : state (world E))
  (o' : outcome A) :
  lift (E := E) o s = (o', s') -> o' = o /\ s' = s.
Proof. unfold lift. intros H. inversion H. auto. Qed.

Lemma ret_inv {A : Type} (a : A) (s s' : state (world E)) (o : outcome A) :
  ret (E := E) a s = (o, s') -> o = Ret a /\ s' = s.
Proof. unfold ret. intros H. inversion H. auto. Qed.

Lemma call_ret_inv (f : value) (kw : Dict.t value) (v : value)
  (s s' : state (world E)) :
  call E f kw s = (Ret v, s') ->
  calls s' = calls s ++ [(f, kw)] /\ callable f = true.
Proof.
  assert (Hother : (if callable f
                    then let (r, w) := invoke E f kw (outside s) in
                         (r, State (heap s) (self_model s)
                                   (calls s ++ [(f, kw)]) w)
                    else (Raise TypeError, s)) = (Ret v, s') ->
                   calls s' = calls s ++ [(f, kw)] /\ callable f = true).
  { destruct (callable f); [|discriminate].
    destruct (invoke E f kw (outside s)) as [o w]. intros H.
    inversion H; subst. simpl. auto. }
  destruct f; try exact Hother.
  unfold call, change_model, get_model_call, bind.
  match goal with
  | |- context [get_model E ?fs ?ov ?s0] =>
      pose proof (get_model_log E fs ov s0) as [Hlog _];
      destruct (get_model E fs ov s0) as [[r|e|] s1]
  end; simpl in *; intros H; inversion H; subst; simpl; auto.
Qed.

Lemma draw_from_pdf_log (pdf xx size : value) (s : state (world E)) :
  calls (snd (draw_from_pdf E pdf xx size s)) = calls s
  /\ heap (snd (draw_from_pdf E pdf xx size s)) = heap s.
Proof.
  unfold draw_from_pdf, bind.
  destruct xx; simpl;
    try (destruct (weighted_choice E pdf _ size (outside s)) as [o w];
         simpl; auto).
  unfold lift. destruct (eval_r E s0) as [x| |]; simpl; auto.
  destruct (weighted_choice E pdf x size (outside s)) as [o w]. simpl. auto.
Qed.

(** What a returning [draw_param] has done: resolved the function,
    built the arguments it declares, and called it once. *)
Lemma draw_param_logs (name : string) (prop : Dict.t value) (v : value)
  (s s' : state (world E)) :
  draw_param E name prop s = (Ret v, s') ->
  exists f prop3,
    _parse_input_func E (stored s) name
      (default VNone (Dict.get "func" prop)) = Ret f
    /\ (let args := match argspec E f with Some a => a | None => ["size"] end in
        let prop1 := if mem_str "size" args
                     then [("size", default VNone (Dict.get "size" prop))]
                     else [] in
        let prop2 := if mem_str "func" args && negb (is_none f)
                     then Dict.set "func" f prop1 else prop1 in
        prop3 = prop2 \/ exists xx', prop3 = Dict.set "xx" xx' prop2)
    /\ calls s' = calls s
                  ++ [(f, Dict.merge prop3
                            (Dict.remove "xx" (Dict.remove "size"
                               (Dict.remove "func" prop))))]
    /\ callable f = true.
Proof.
  unfold draw_param.
  destruct (Dict.mem "name" prop || Dict.mem "self" prop); [discriminate|].
  intros Hrun.
  apply bind_ret_inv in Hrun as (m & s0 & Hm & Hrun).
  unfold get_self_model in Hm. inversion Hm; subst m s0. clear Hm.
  apply bind_ret_inv in Hrun as (model & s0 & Hm & Hrun).
  unfold read in Hm. inversion Hm; subst model s0. clear Hm.
  fold (stored s) in Hrun.
  apply bind_ret_inv in Hrun as (f & s1 & Hparse & Hrun).
  apply lift_inv in Hparse as [Hf ->].
  apply bind_ret_inv in Hrun as (prop3 & s2 & Hprops & Hrun).
  apply bind_ret_inv in Hrun as (draw_ & s3 & Hcall & Hrun).
  exists f, prop3. split; [congruence|].
  assert (Hs2 : s2 = s /\
      (let args := match argspec E f with Some a => a | None => ["size"] end in
       let prop1 := if mem_str "size" args
                    then [("size", default VNone (Dict.get "size" prop))]
                    else [] in
       let prop2 := if mem_str "func" args && negb (is_none f)
                    then Dict.set "func" f prop1 else prop1 in
       prop3 = prop2 \/ exists xx', prop3 = Dict.set "xx" xx' prop2)).
  { simpl.
    match type of Hprops with
    | (if ?c then _ else _) _ = _ => destruct c
    end.
    - apply bind_ret_inv in Hprops as (xx' & s1' & Hxx & Hprops).
      apply ret_inv in Hprops as [Hp ->]. inversion Hp; subst prop3.
      split; [|right; eauto].
      destruct (default VNone (Dict.get "xx" prop));
        try (apply ret_inv in Hxx as [_ ->]; reflexivity).
      apply lift_inv in Hxx as [_ ->]. reflexivity.
    - apply ret_inv in Hprops as [Hp ->]. inversion Hp; subst prop3.
      split; [reflexivity|left; reflexivity]. }
  destruct Hs2 as [-> Hshape]. split; [exact Hshape|].
  apply call_ret_inv in Hcall as (Hcalls & Hcallable).
  assert (Hend : calls s' = calls s3 /\ heap s' = heap s3).
  { match type of Hrun with
    | (if ?c then _ else _) _ = _ => destruct c
    end.
    - destruct draw_ as [| | |[|a [|b [|? ?]]]| |[|xx_ [|pdf_ [|? ?]]]| |];
        try discriminate;
        match type of Hrun with
        | draw_from_pdf E ?p ?x ?z s3 = _ =>
            pose proof (draw_from_pdf_log p x z s3) as Hlog;
            rewrite Hrun in Hlog; exact Hlog
        end.
    - apply ret_inv in Hrun as [_ ->]. auto. }
  destruct Hend as [Hc Hh]. split; [congruence|exact Hcallable].
Qed.

End DrawParamFacts.

(** ** More on dicts *)

Section DictKeys.
Context {V : Type}.

Lemma get_In (k : string) (v : V) (d : Dict.t V) :
  Dict.get k d = Some v -> In (k, v) d.
Proof.
  induction d as [|[k0 v0] d IH]; simpl; [discriminate|].
  destruct (String.eqb_spec k k0) as [->|Hne].
  - intros H. inversion H. auto.
  - auto.
Qed.

Lemma get_None_iff (k : string) (d : Dict.t V) :
  Dict.get k d = None <-> ~ In k (map fst d).
Proof.
  induction d as [|[k0 v0] d IH]; simpl; [tauto|].
  destruct (String.eqb_spec k k0) as [->|Hne].
  - split; [discriminate|tauto].
  - rewrite IH. intuition congruence.
Qed.

Lemma In_get (k : string) (v : V) (d : Dict.t V) :
  unique_keys d -> In (k, v) d -> Dict.get k d = Some v.
Proof.
  unfold unique_keys. induction d as [|[k0 v0] d IH]; simpl; [tauto|].
  intros Hnd Hin. inversion Hnd as [|? ? Hfresh Hnd']; subst.
  destruct (String.eqb_spec k k0) as [->|Hne].
  - destruct Hin as [Heq|Hin]; [congruence|].
    exfalso. apply Hfresh. apply in_map_iff. exists (k0, v). auto.
  - destruct Hin as [Heq|Hin]; [congruence|auto].
Qed.

Lemma unique_keys_rev (d : Dict.t V) : unique_keys d -> unique_keys (rev d).
Proof.
  unfold unique_keys. rewrite map_rev. apply List.NoDup_rev.
Qed.

Lemma get_rev_unique (k : string) (d : Dict.t V) :
  unique_keys d -> Dict.get k (rev d) = Dict.get k d.
Proof.
  intros Hu. destruct (Dict.get k d) as [v|] eqn:Hget.
  - apply In_get; [apply unique_keys_rev, Hu|].
    apply in_rev. rewrite rev_involutive. apply get_In, Hget.
  - apply get_None_iff. rewrite map_rev, <- in_rev.
    apply get_None_iff, Hget.
Qed.

Lemma get_rev_None (k : string) (d : Dict.t V) :
  Dict.get k d = None -> Dict.get k (rev d) = None.
Proof.
  intros H. apply get_None_iff. rewrite map_rev, <- in_rev.
  apply get_None_iff, H.
Qed.

Lemma get_remove (k k' : string) (d : Dict.t V) :
  Dict.get k' (Dict.remove k d)
  = if String.eqb k k' then None else Dict.get k' d.
Proof.
  unfold Dict.remove. induction d as [|[k0 v0] d IH]; simpl.
  - destruct (String.eqb k k'); reflexivity.
  - destruct (String.eqb_spec k k0) as [->|Hne]; simpl.
    + rewrite IH. destruct (String.eqb_spec k0 k') as [->|Hne'];
        [reflexivity|].
      destruct (String.eqb_spec k' k0); [congruence|reflexivity].
    + destruct (String.eqb_spec k' k0) as [->|Hne'].
      * destruct (String.eqb_spec k k0); [congruence|reflexivity].
      * exact IH.
Qed.

Lemma unique_keys_remove (k : string) (d : Dict.t V) :
  unique_keys d -> unique_keys (Dict.remove k d).
Proof.
  unfold unique_keys, Dict.remove.
  induction d as [|[k0 v0] d IH]; simpl; [auto|].
  intros Hnd. inversion Hnd as [|? ? Hfresh Hnd']; subst.
  destruct (negb (String.eqb k k0)); simpl; [|auto].
  apply List.NoDup_cons; [|auto].
  intros Hin. apply Hfresh. apply in_map_iff in Hin as ([k1 v1] & Hk & Hin).
  apply filter_In in Hin as [Hin _]. apply in_map_iff. eauto.
Qed.

Lemma set_keys (k : string) (v : V) (d : Dict.t V) :
  map fst (Dict.set k v d)
  = if Dict.mem k d then map fst d else map fst d ++ [k].
Proof.
  unfold Dict.mem. induction d as [|[k0 v0] d IH]; simpl; [reflexivity|].
  destruct (String.eqb_spec k k0) as [->|Hne]; simpl; [reflexivity|].
  rewrite IH. destruct (Dict.get k d); reflexivity.
Qed.

Lemma unique_keys_set (k : string) (v : V) (d : Dict.t V) :
  unique_keys d -> unique_keys (Dict.set k v d).
Proof.
  unfold unique_keys. rewrite set_keys. unfold Dict.mem.
  destruct (Dict.get k d) eqn:Hget; [auto|].
  intros Hnd. apply get_None_iff in Hget.
  induction (map fst d) as [|x l IH]; simpl.
  - apply List.NoDup_cons; [intros []|apply List.NoDup_nil].
  - inversion Hnd as [|? ? Hx Hl]; subst.
    apply List.NoDup_cons.
    + rewrite in_app_iff. simpl in *. intuition congruence.
    + apply IH; [|exact Hl]. simpl in Hget. tauto.
Qed.

Lemma unique_keys_merge (d upd : Dict.t V) :
  unique_keys d -> unique_keys (Dict.merge d upd).
Proof.
  unfold Dict.merge. revert d.
  induction upd as [|[k v] upd IH]; intros d Hu; simpl; [exact Hu|].
  apply IH, unique_keys_set, Hu.
Qed.

End DictKeys.

Section DrawParamClaims.
Context (E : env).

(** A call of [draw_param] that returns has invoked the resolved
    function once.  It passed [size] exactly when the function declares
    an argument of that name, or cannot be inspected; and every keyword
    argument other than [func], [size] and [xx] went through as given. *)
Theorem draw_param_arguments (name : string) (prop : Dict.t value)
  (v : value) (s s' : state (world E)) :
  unique_keys prop ->
  draw_param E name prop s = (Ret v, s') ->
  exists f kw,
    _parse_input_func E (stored s) name
      (default VNone (Dict.get "func" prop)) = Ret f
    /\ calls s' = calls s ++ [(f, kw)]
    /\ Dict.mem "size" kw
       = mem_str "size" (match argspec E f with
                         | Some a => a
                         | None => ["size"]
                         end)
    /\ forall k, k <> "func" -> k <> "size" -> k <> "xx" ->
                 Dict.get k kw = Dict.get k prop.
Proof.
  intros Hu Hrun.
  destruct (draw_param_logs E name prop v s s' Hrun)
    as (f & prop3 & Hf & Hshape & Hcalls & _).
  exists f. eexists. split; [exact Hf|]. split; [exact Hcalls|].
  set (args := match argspec E f with Some a => a | None => ["size"] end)
    in *.
  set (kw0 := Dict.remove "xx" (Dict.remove "size" (Dict.remove "func" prop))).
  simpl in Hshape.
  set (prop1 := if mem_str "size" args
                then [("size", default VNone (Dict.get "size" prop))]
                else []) in *.
  set (prop2 := if mem_str "func" args && negb (is_none f)
                then Dict.set "func" f prop1 else prop1) in *.
  assert (Hp1 : forall k, Dict.get k prop1
                = if String.eqb k "size" && mem_str "size" args
                  then Some (default VNone (Dict.get "size" prop))
                  else None).
  { intros k. unfold prop1. destruct (mem_str "size" args); simpl.
    - destruct (String.eqb k "size"); reflexivity.
    - rewrite andb_false_r. reflexivity. }
  assert (Hp2 : forall k, k <> "func" -> Dict.get k prop2 = Dict.get k prop1).
  { intros k Hk. unfold prop2.
    destruct (mem_str "func" args && negb (is_none f)); [|reflexivity].
    apply get_set_ne. congruence. }
  assert (Hp3 : forall k, k <> "func" -> k <> "xx" ->
                          Dict.get k prop3 = Dict.get k prop1).
  { intros k Hk Hx. destruct Hshape as [->|[xx' ->]].
    - apply Hp2, Hk.
    - rewrite get_set_ne by congruence. apply Hp2, Hk. }
  split.
  - unfold Dict.mem. rewrite get_merge.
    assert (Hnone : Dict.get "size" kw0 = None)
      by (unfold kw0; rewrite !get_remove; reflexivity).
    rewrite (get_rev_None _ _ Hnone), Hp3, Hp1 by discriminate.
    simpl. destruct (mem_str "size" args); reflexivity.
  - intros k Hf' Hs Hx. rewrite get_merge.
    assert (Hkw0 : Dict.get k (rev kw0) = Dict.get k prop).
    { rewrite get_rev_unique
        by (unfold kw0; repeat apply unique_keys_remove; exact Hu).
      unfold kw0. rewrite !get_remove.
      destruct (String.eqb_spec "xx" k); [congruence|].
      destruct (String.eqb_spec "size" k); [congruence|].
      destruct (String.eqb_spec "func" k); [congruence|reflexivity]. }
    rewrite Hkw0. destruct (Dict.get k prop); [reflexivity|].
    rewrite Hp3, Hp1 by assumption.
    destruct (String.eqb_spec k "size"); [congruence|reflexivity].
Qed.

End DrawParamClaims.

(** Callable 2 declares [loc], [scale] and [size]: it is handed the
    three. *)
Lemma draw_param_arguments_witness :
  exists f kw,
    _parse_input_func Demo.E Demo.model_abc "b"
      (default VNone (Dict.get "func" [("size", VInt 2); ("loc", VInt 0);
                                       ("scale", VInt 1); ("func", VFun 2)]))
    = Ret f
    /\ calls (snd (draw_param Demo.E "b"
                     [("size", VInt 2); ("loc", VInt 0); ("scale", VInt 1);
                      ("func", VFun 2)] (Demo.engine Demo.model_abc)))
       = calls (Demo.engine Demo.model_abc) ++ [(f, kw)]
    /\ Dict.mem "size" kw
       = mem_str "size" (match argspec Demo.E f with
                         | Some a => a
                         | None => ["size"]
                         end)
    /\ forall k, k <> "func" -> k <> "size" -> k <> "xx" ->
                 Dict.get k kw
                 = Dict.get k [("size", VInt 2); ("loc", VInt 0);
                               ("scale", VInt 1); ("func", VFun 2)].
Proof.
  refine (draw_param_arguments Demo.E "b"
            [("size", VInt 2); ("loc", VInt 0); ("scale", VInt 1);
             ("func", VFun 2)] (VSeq [VInt 0; VInt 0])
            (Demo.engine Demo.model_abc) _ _ _).
  - unfold unique_keys. simpl.
    repeat (apply List.NoDup_cons; [simpl; intuition discriminate|]).
    apply List.NoDup_nil.
  - vm_compute. reflexivity.
Defined.

(** ** References in the draw loop *)

Lemma is_reference_target (v : value) :
  is_reference v = true <-> reference_target v <> None.
Proof.
  destruct v; simpl; try (split; [discriminate|congruence]).
  destruct (contains_char "@" s); split; congruence.
Qed.

Lemma frame_values_inv (key : string) (data : DataFrame) (cells : value) :
  frame_values key data = Ret cells ->
  exists col, column (LStr key) (columns data) = Some col
              /\ cells = VSeq col.
Proof.
  unfold frame_values. destruct (column (LStr key) (columns data));
    intros H; inversion H. eauto.
Qed.

Section ReferenceLoop.
Context (E : env).

(** The loop over the kwargs neither calls anything nor touches the
    world. *)
Lemma resolve_references_log (shared : bool) (r : nat) (name : string)
  (data : DataFrame) (items : list (string * value))
  (inprop : Dict.t value) (size : value) (s : state (world E)) :
  calls (snd (resolve_references E shared r name data items inprop size s))
  = calls s
  /\ outside (snd (resolve_references E shared r name data items inprop
                                      size s))
     = outside s.
Proof.
  revert inprop size s. induction items as [|[k v] rest IH];
    intros inprop size s; simpl; [auto|].
  destruct (reference_target v) as [key|]; [|apply IH].
  unfold bind, lift. destruct (frame_values key data) as [cells| |];
    simpl; auto.
  destruct shared; simpl.
  - match goal with
    | |- context [resolve_references E true r name data rest ?i ?z ?s1] =>
        destruct (IH i z s1) as [Hc Ho]
    end.
    destruct (resolve_references E true r name data rest _ _ _)
      as [[?| |] s2]; simpl in *; auto.
  - destruct (IH (Dict.set k cells inprop) VNone s) as [Hc Ho].
    destruct (resolve_references E false r name data rest _ _ _)
      as [[?| |] s2]; simpl in *; auto.
Qed.

Lemma resolve_references_result (shared : bool) (r : nat) (name : string)
  (data : DataFrame) (items : list (string * value))
  (inprop inprop' : Dict.t value) (size size' : value)
  (s s' : state (world E)) :
  List.NoDup (map fst items) ->
  resolve_references E shared r name data items inprop size s
  = (Ret (inprop', size'), s') ->
  size' = (if existsb (fun kv => is_reference (snd kv)) items
           then VNone else size)
  /\ forall k,
       Dict.get k inprop'
       = match Dict.get k items with
         | Some v =>
             match reference_target v with
             | Some key => option_map VSeq (column (LStr key) (columns data))
             | None => Dict.get k inprop
             end
         | None => Dict.get k inprop
         end.
Proof.
  revert inprop size s. induction items as [|[k0 v0] rest IH];
    intros inprop size s Hnd Hrun.
  - inversion Hrun; subst. simpl. auto.
  - simpl in Hnd. inversion Hnd as [|? ? Hfresh Hnd']; subst.
    apply get_None_iff in Hfresh. simpl in Hrun. simpl existsb.
    destruct (reference_target v0) as [key|] eqn:Htarget.
    + assert (Href : is_reference v0 = true)
        by (apply is_reference_target; congruence).
      rewrite Href. simpl.
      apply bind_ret_inv in Hrun as (cells & s1 & Hcells & Hrun).
      apply lift_inv in Hcells as [Hcells ->]. symmetry in Hcells.
      apply frame_values_inv in Hcells as (col & Hcol & ->).
      apply bind_ret_inv in Hrun as (u & s2 & _ & Hrun).
      destruct (IH _ _ _ Hnd' Hrun) as [Hsize Hget].
      split; [destruct (existsb _ rest); exact Hsize|].
      intros k. rewrite Hget. simpl.
      destruct (String.eqb_spec k k0) as [->|Hne].
      * rewrite Hfresh, Htarget, Hcol, get_set_eq. reflexivity.
      * rewrite get_set_ne by congruence. reflexivity.
    + assert (Href : is_reference v0 = false).
      { destruct (is_reference v0) eqn:H; [|reflexivity].
        apply is_reference_target in H. congruence. }
      rewrite Href. simpl.
      destruct (IH _ _ _ Hnd' Hrun) as [Hsize Hget].
      split; [exact Hsize|].
      intros k. rewrite Hget. simpl.
      destruct (String.eqb_spec k k0) as [->|Hne]; [|reflexivity].
      rewrite Hfresh, Htarget. reflexivity.
Qed.

(** When some value of the kwargs refers to a column the table does not
    have, the loop raises [KeyError] for such a column, and nothing has
    been called. *)
Lemma resolve_references_missing (shared : bool) (r : nat) (name : string)
  (data : DataFrame) (items : list (string * value))
  (inprop : Dict.t value) (size : value) (s : state (world E)) :
  (exists k v key, In (k, v) items /\ reference_target v = Some key
                   /\ column (LStr key) (columns data) = None) ->
  exists key',
    fst (resolve_references E shared r name data items inprop size s)
    = Raise (KeyError key')
    /\ column (LStr key') (columns data) = None.
Proof.
  revert inprop size s. induction items as [|[k0 v0] rest IH];
    intros inprop size s (k & v & key & Hin & Htarget & Hcol);
    [destruct Hin|].
  simpl. destruct (reference_target v0) as [key0|] eqn:Ht0.
  - unfold bind, lift, frame_values.
    destruct (column (LStr key0) (columns data)) as [col|] eqn:Hc0; simpl.
    + assert (Hrest : exists k v key,
                 In (k, v) rest /\ reference_target v = Some key
                 /\ column (LStr key) (columns data) = None).
      { destruct Hin as [Heq|Hin]; [|eauto 7].
        inversion Heq; subst. congruence. }
      destruct shared; simpl.
      * match goal with
        | |- context [resolve_references E true r name data rest ?i ?z ?s1] =>
            destruct (IH i z s1 Hrest) as (key' & Hraise & Hmiss)
        end.
        exists key'. split; [|exact Hmiss].
        destruct (resolve_references E true r name data rest _ _ _)
          as [[?| |] s2]; simpl in *; congruence.
      * destruct (IH (Dict.set k0 (VSeq col) inprop) VNone s Hrest)
          as (key' & Hraise & Hmiss).
        exists key'. split; [|exact Hmiss].
        destruct (resolve_references E false r name data rest _ _ _)
          as [[?| |] s2]; simpl in *; congruence.
    + eauto.
  - apply IH. destruct Hin as [Heq|Hin]; [|eauto 7].
    inversion Heq; subst. congruence.
Qed.

(** When the loop over the kwargs [d] of an entry comes through: every
    reference has been replaced by the cells of the column it names,
    which the table has; every literal is kept; no key is added; and the
    size is [None] if some value was a reference, the requested size
    otherwise. *)
Theorem references_are_substituted (shared : bool) (r : nat)
  (name : string) (data : DataFrame) (d d' : Dict.t value)
  (size size' : value) (s s' : state (world E)) :
  unique_keys d ->
  resolve_references E shared r name data d d size s
  = (Ret (d', size'), s') ->
  size' = (if existsb (fun kv => is_reference (snd kv)) d
           then VNone else size)
  /\ (forall k v key,
        Dict.get k d = Some v -> reference_target v = Some key ->
        exists col, column (LStr key) (columns data) = Some col
                    /\ Dict.get k d' = Some (VSeq col))
  /\ (forall k v,
        Dict.get k d = Some v -> reference_target v = None ->
        Dict.get k d' = Some v)
  /\ (forall k, Dict.get k d = None -> Dict.get k d' = None).
Proof.
  intros Hu Hrun.
  destruct (resolve_references_result shared r name data d d d' size size'
              s s' Hu Hrun) as [Hsize Hget].
  split; [exact Hsize|]. split; [|split].
  - intros k v key Hk Htarget.
    assert (Hcol : exists col,
               column (LStr key) (columns data) = Some col).
    { destruct (column (LStr key) (columns data)) as [col|] eqn:Hcol;
        [eauto|].
      destruct (resolve_references_missing shared r name data d d size s)
        as (key' & Hraise & _).
      - exists k, v, key. split; [apply get_In, Hk|auto].
      - rewrite Hrun in Hraise. discriminate. }
    destruct Hcol as [col Hcol]. exists col. split; [exact Hcol|].
    rewrite Hget, Hk, Htarget, Hcol. reflexivity.
  - intros k v Hk Htarget. rewrite Hget, Hk, Htarget. reflexivity.
  - intros k Hk. rewrite Hget, Hk. reflexivity.
Qed.

(** An entry that refers to a column the working table lacks -- because
    the entry it names comes later in the document, was skipped, or does
    not exist -- makes its turn of the draw loop raise [KeyError] for
    such a column before any function is called. *)
Theorem missing_column_stops_entry (r : nat) (size : value)
  (name : string) (e : entry) (d : Dict.t value) (data : DataFrame)
  (s : state (world E)) :
  kwargs e = KwDict d ->
  (exists k v key, In (k, v) d /\ reference_target v = Some key
                   /\ column (LStr key) (columns data) = None) ->
  exists key',
    fst (draw_entry E r size name e data s) = Raise (KeyError key')
    /\ column (LStr key') (columns data) = None
    /\ calls (snd (draw_entry E r size name e data s)) = calls s
    /\ outside (snd (draw_entry E r size name e data s)) = outside s.
Proof.
  intros Hkw Hmissing.
  destruct (resolve_references_missing true r name data d d size s Hmissing)
    as (key' & Hraise & Hcol).
  destruct (resolve_references_log true r name data d d size s) as [Hc Ho].
  exists key'.
  destruct (resolve_references E true r name data d d size s)
    as [[ps| |] s1] eqn:Hres; simpl in *; try discriminate.
  inversion Hraise; subst.
  assert (Hrun : draw_entry E r size name e data s
                 = (Raise (KeyError key'), s1)).
  { unfold draw_entry. rewrite Hkw. unfold bind at 1. rewrite Hres.
    reflexivity. }
  rewrite Hrun. simpl. auto.
Qed.

End ReferenceLoop.

(** Entry [b] of [model_abc] on a table of three rows with the column
    [a]: the reference is replaced by the column, the scale is kept. *)
Lemma references_are_substituted_witness :
  exists d' s',
    resolve_references Demo.E true 0 "b" Demo.data_abc
      [("loc", VStr "@a"); ("scale", VInt 1)]
      [("loc", VStr "@a"); ("scale", VInt 1)] (VInt 5)
      (Demo.engine Demo.model_abc)
    = (Ret (d', VNone), s')
    /\ Dict.get "scale" d' = Some (VInt 1)
    /\ Dict.get "loc" d' = Some (VSeq [VInt 7; VInt 7; VInt 7]).
Proof.
  eexists. eexists. split; [vm_compute; reflexivity|].
  split; [|reflexivity].
  refine (proj1 (proj2 (proj2
    (references_are_substituted Demo.E true 0 "b" Demo.data_abc
       [("loc", VStr "@a"); ("scale", VInt 1)] _ (VInt 5) VNone
       (Demo.engine Demo.model_abc) _ _ _))) "scale" (VInt 1) eq_refl eq_refl).
  - unfold unique_keys. simpl.
    repeat (apply List.NoDup_cons; [simpl; intuition discriminate|]).
    apply List.NoDup_nil.
  - vm_compute. reflexivity.
Defined.

(** Entry [b] of [model_abc] on the table that has only the column [x]:
    the column [a] is missing. *)
Lemma missing_column_stops_entry_witness :
  exists key',
    fst (draw_entry Demo.E 0 (VInt 3) "b"
           (Entry (VFun 2) (KwDict [("loc", VStr "@a"); ("scale", VInt 1)])
                  AsAbsent)
           Demo.data_x (Demo.engine Demo.model_abc))
    = Raise (KeyError key')
    /\ column (LStr key') (columns Demo.data_x) = None
    /\ calls (snd (draw_entry Demo.E 0 (VInt 3) "b"
           (Entry (VFun 2) (KwDict [("loc", VStr "@a"); ("scale", VInt 1)])
                  AsAbsent)
           Demo.data_x (Demo.engine Demo.model_abc)))
       = calls (Demo.engine Demo.model_abc)
    /\ outside (snd (draw_entry Demo.E 0 (VInt 3) "b"
           (Entry (VFun 2) (KwDict [("loc", VStr "@a"); ("scale", VInt 1)])
                  AsAbsent)
           Demo.data_x (Demo.engine Demo.model_abc)))
       = outside (Demo.engine Demo.model_abc).
Proof.
  apply (missing_column_stops_entry Demo.E 0 (VInt 3) "b" _
           [("loc", VStr "@a"); ("scale", VInt 1)]); [reflexivity|].
  exists "loc", (VStr "@a"), "a". simpl. auto.
Defined.

(** ** The calls of a draw *)

Section DrawCalls.
Context (E : env).

Lemma resolve_references_keys (shared : bool) (r : nat) (name : string)
  (data : DataFrame) (items : list (string * value))
  (inprop inprop' : Dict.t value) (size size' : value)
  (s s' : state (world E)) :
  incl (map fst items) (map fst inprop) ->
  resolve_references E shared r name data items inprop size s
  = (Ret (inprop', size'), s') ->
  map fst inprop' = map fst inprop.
Proof.
  revert inprop size s. induction items as [|[k v] rest IH];
    intros inprop size s Hincl Hrun.
  - inversion Hrun; subst. reflexivity.
  - simpl in Hrun.
    assert (Hrest : incl (map fst rest) (map fst inprop))
      by (intros x Hx; apply Hincl; right; exact Hx).
    destruct (reference_target v) as [key|]; [|exact (IH _ _ _ Hrest Hrun)].
    apply bind_ret_inv in Hrun as (cells & s1 & _ & Hrun).
    apply bind_ret_inv in Hrun as (u & s2 & _ & Hrun).
    assert (Hkeys : map fst (Dict.set k cells inprop) = map fst inprop).
    { rewrite set_keys. unfold Dict.mem.
      destruct (Dict.get k inprop) eqn:Hget; [reflexivity|].
      apply get_None_iff in Hget. exfalso. apply Hget, Hincl. left.
      reflexivity. }
    rewrite <- Hkeys. apply (IH _ _ _ (ltac:(rewrite Hkeys; exact Hrest)) Hrun).
Qed.

(** One turn of the draw loop that comes through has made one call, of
    a callable. *)
Lemma draw_entry_logs (r : nat) (size : value) (name : string) (e : entry)
  (data data' : DataFrame) (s s' : state (world E)) :
  draw_entry E r size name e data s = (Ret data', s') ->
  exists f kw,
    calls s' = calls s ++ [(f, kw)] /\ callable f = true.
Proof.
  intros Hrun. unfold draw_entry in Hrun.
  set (inprop0 := match kwargs e with KwDict d => d | _ => [] end) in *.
  set (shared := match kwargs e with KwDict _ => true | _ => false end) in *.
  apply bind_ret_inv in Hrun as ([inprop' size'] & s1 & Hres & Hrun).
  pose proof (resolve_references_log E shared r name data inprop0 inprop0
                size s) as [Hc1 _].
  rewrite Hres in Hc1. simpl in Hc1.
  apply bind_ret_inv in Hrun as (u & s2 & Hwrite & Hrun).
  assert (Hc2 : calls s2 = calls s1).
  { destruct shared;
      [unfold write_kwargs in Hwrite; inversion Hwrite; reflexivity
      |apply ret_inv in Hwrite as [_ ->]; reflexivity]. }
  apply bind_ret_inv in Hrun as (draw_ & s3 & Hparam & Hrun).
  apply bind_ret_inv in Hrun as (samples & s4 & Harr & Hrun).
  apply lift_inv in Harr as [_ ->]. apply lift_inv in Hrun as [_ ->].
  destruct (draw_param_logs E name _ draw_ s2 s3 Hparam)
    as (f & prop3 & _ & _ & Hcalls & Hcallable).
  exists f. eexists. split; [|exact Hcallable].
  rewrite Hcalls, Hc2, Hc1. reflexivity.
Qed.

Lemma draw_loop_logs (r : nat) (size : value)
  (limit_to_entries : option (list string))
  (items : list (string * entry)) (data data' : DataFrame)
  (s s' : state (world E)) :
  draw_loop E r size limit_to_entries items data s = (Ret data', s') ->
  exists new,
    calls s' = calls s ++ new
    /\ Forall2 (fun ke c => callable (fst c) = true)
               (match limit_to_entries with
                | Some l => List.filter (fun ke => mem_str (fst ke) l) items
                | None => items
                end) new.
Proof.
  revert data s. induction items as [|[name e] rest IH];
    intros data s Hrun.
  - inversion Hrun; subst. exists []. rewrite app_nil_r.
    split; [reflexivity|]. destruct limit_to_entries; constructor.
  - simpl in Hrun.
    assert (Hturn : forall s0 d0,
      bind (draw_entry E r size name e d0)
           (fun data1 => draw_loop E r size limit_to_entries rest data1) s0
      = (Ret data', s') ->
      exists c new',
        calls s' = calls s0 ++ c :: new'
        /\ callable (fst c) = true
        /\ Forall2 (fun ke c => callable (fst c) = true)
               (match limit_to_entries with
                | Some l => List.filter (fun ke => mem_str (fst ke) l) rest
                | None => rest
                end) new').
    { intros s0 d0 H.
      apply bind_ret_inv in H as (data1 & s1 & Hentry & Hloop).
      destruct (draw_entry_logs r size name e d0 data1 s0 s1 Hentry)
        as (f & kw & Hc & Hf).
      destruct (IH data1 s1 Hloop) as (new' & Hc' & Hall).
      exists (f, kw), new'. split; [|auto].
      rewrite Hc', Hc, <- app_assoc. reflexivity. }
    destruct limit_to_entries as [l|]; simpl in *.
    + destruct (mem_str name l); simpl in *.
      * destruct (Hturn s data Hrun) as (c & new' & Hc & Hf & Hall).
        exists (c :: new'). split; [exact Hc|]. constructor; assumption.
      * exact (IH data s Hrun).
    + destruct (Hturn s data Hrun) as (c & new' & Hc & Hf & Hall).
      exists (c :: new'). split; [exact Hc|]. constructor; assumption.
Qed.

(** A draw that returns a table (for a size other than 0) has made
    exactly one call for each entry it did not skip, and each was the
    call of a callable. *)
Theorem draw_calls_each_entry_once (size : value)
  (limit_to_entries : option (list string)) (data : option DataFrame)
  (data' : DataFrame) (s s' : state (world E)) :
  is_zero size = false ->
  draw E size limit_to_entries data [] s = (Ret data', s') ->
  exists new,
    calls s' = calls s ++ new
    /\ length new
       = length (match limit_to_entries with
                 | Some l =>
                     List.filter (fun ke => mem_str (fst ke) l) (stored s)
                 | None => stored s
                 end)
    /\ Forall (fun c => callable (fst c) = true) new.
Proof.
  intros Hsize Hrun. rewrite draw_run, Hsize in Hrun. simpl in Hrun.
  destruct (draw_loop_logs _ size limit_to_entries (stored s) _ data' _ s'
              Hrun) as (new & Hc & Hall).
  exists new. split; [exact Hc|]. split.
  - clear Hc Hrun. induction Hall; simpl; congruence.
  - clear Hc Hrun. induction Hall; constructor; assumption.
Qed.

End DrawCalls.

(** A draw of three rows from [model_abc]: three calls. *)
Lemma draw_calls_each_entry_once_witness :
  exists new,
    calls (snd (draw Demo.E (VInt 3) None None []
                     (Demo.engine Demo.model_abc)))
    = calls (Demo.engine Demo.model_abc) ++ new
    /\ length new = 3
    /\ Forall (fun c => callable (fst c) = true) new.
Proof.
  refine (draw_calls_each_entry_once Demo.E (VInt 3) None None
            (Frame 3 [(LStr "a", [VInt 0; VInt 0; VInt 0]);
                      (LStr "b", [VInt 1; VInt 1; VInt 1]);
                      (LStr "c", [VInt 2; VInt 2; VInt 2])])
            (Demo.engine Demo.model_abc) _ eq_refl _).
  vm_compute. reflexivity.
Defined.

(** ** Draws that select nothing *)

Section NothingSelected.
Context (E : env).

Lemma draw_loop_all_skipped (r : nat) (size : value) (limit : list string)
  (items : list (string * entry)) (data : DataFrame) (s : state (world E)) :
  (forall name e, In (name, e) items -> ~ In name limit) ->
  draw_loop E r size (Some limit) items data s = (Ret data, s).
Proof.
  induction items as [|[name e] rest IH]; intros Hout; [reflexivity|].
  simpl. destruct (mem_str name limit) eqn:Hmem.
  - apply mem_str_In in Hmem. exfalso.
    exact (Hout name e (or_introl eq_refl) Hmem).
  - simpl. apply IH. intros n x H. apply (Hout n x). right. exact H.
Qed.

(** When [limit_to_entries] names no entry of the document, a draw (for
    a size other than 0) gives back the table it was given, or an empty
    one, and calls nothing. *)
Theorem draw_nothing_selected (size : value) (limit : list string)
  (data : option DataFrame) (s : state (world E)) :
  is_zero size = false ->
  (forall name e, In (name, e) (stored s) -> ~ In name limit) ->
  fst (draw E size (Some limit) data [] s)
  = Ret (match data with Some d => d | None => empty_frame end)
  /\ calls (snd (draw E size (Some limit) data [] s)) = calls s
  /\ outside (snd (draw E size (Some limit) data [] s)) = outside s.
Proof.
  intros Hsize Hout. rewrite draw_run, Hsize. simpl.
  rewrite draw_loop_all_skipped by exact Hout. simpl. auto.
Qed.

(** [redraw_from] of an empty list of names, on a document that has a
    kwargs column and for a size other than 0: the table comes back as
    it was given, and nothing is called. *)
Theorem redraw_from_no_names (fuel : nat) (data : DataFrame)
  (incl_name : bool) (size : value)
  (overrides : Dict.t value) (s : state (world E)) :
  has_kwargs_column (stored s) = true ->
  is_zero size = false ->
  fst (redraw_from E fuel (Many []) data incl_name size overrides s)
  = Ret data
  /\ calls (snd (redraw_from E fuel (Many []) data incl_name size
                             overrides s)) = calls s
  /\ outside (snd (redraw_from E fuel (Many []) data incl_name size
                               overrides s)) = outside s.
Proof.
  intros Hcol Hsize.
  assert (Hrun : redraw_from E fuel (Many []) data incl_name size overrides s
                 = draw E size (Some []) (Some data) [] s).
  { unfold redraw_from. simpl. unfold bind at 1.
    rewrite get_forward_entries_run. unfold forward_entries, get_modeldf.
    rewrite Hcol. simpl. rewrite loc_isin_nil.
    destruct fuel; destruct incl_name; reflexivity. }
  rewrite Hrun, draw_run, Hsize. simpl.
  rewrite draw_loop_all_skipped by (intros ? ? ? []). simpl. auto.
Qed.

End NothingSelected.

Lemma draw_nothing_selected_witness :
  fst (draw Demo.E (VInt 3) (Some ["x"; "y"]) (Some Demo.data_x) []
            (Demo.engine Demo.model_abc))
  = Ret Demo.data_x
  /\ calls (snd (draw Demo.E (VInt 3) (Some ["x"; "y"]) (Some Demo.data_x) []
                      (Demo.engine Demo.model_abc))) = []
  /\ outside (snd (draw Demo.E (VInt 3) (Some ["x"; "y"]) (Some Demo.data_x)
                        [] (Demo.engine Demo.model_abc))) = 0.
Proof.
  apply (draw_nothing_selected Demo.E (VInt 3) ["x"; "y"] (Some Demo.data_x)
           (Demo.engine Demo.model_abc)); [reflexivity|].
  intros name e Hin. simpl in Hin.
  repeat (destruct Hin as [Heq|Hin];
          [inversion Heq; subst; simpl; intuition discriminate|]).
  destruct Hin.
Defined.

Lemma redraw_from_no_names_witness :
  fst (redraw_from Demo.E 0 (Many []) Demo.data_x true VNone []
                   (Demo.engine Demo.model_abc))
  = Ret Demo.data_x
  /\ calls (snd (redraw_from Demo.E 0 (Many []) Demo.data_x true VNone []
                             (Demo.engine Demo.model_abc))) = []
  /\ outside (snd (redraw_from Demo.E 0 (Many []) Demo.data_x true VNone []
                               (Demo.engine Demo.model_abc))) = 0.
Proof.
  exact (redraw_from_no_names Demo.E 0 Demo.data_x true VNone []
           (Demo.engine Demo.model_abc) eq_refl eq_refl).
Defined.

(** ** Overrides at the call and overrides committed *)

Section Alike.
Context (E : env).

Lemma alike_ret {A : Type} (a : A) : alike E (ret a) (ret a).
Proof. intros s1 s2 H. simpl. auto. Qed.

Lemma alike_raise {A : Type} (e : exn) :
  alike E (raise (A := A) e) (raise e).
Proof. intros s1 s2 H. simpl. auto. Qed.

Lemma alike_lift {A : Type} (o : outcome A) : alike E (lift o) (lift o).
Proof. intros s1 s2 H. simpl. auto. Qed.

Lemma alike_bind {A B : Type} (m1 m2 : M E A) (k1 k2 : A -> M E B) :
  alike E m1 m2 -> (forall a, alike E (k1 a) (k2 a)) ->
  alike E (bind m1 k1) (bind m2 k2).
Proof.
  intros Hm Hk s1 s2 Hs. destruct (Hm s1 s2 Hs) as [Ho Hs']. unfold bind.
  destruct (m1 s1) as [o1 t1], (m2 s2) as [o2 t2]. simpl in *. subst o2.
  destruct o1 as [a| |]; simpl; auto. apply Hk, Hs'.
Qed.

(** The same, when the continuation is only known to agree on the
    values the first part can return. *)
Lemma alike_bind_post {A B : Type} (m1 m2 : M E A) (k1 k2 : A -> M E B)
  (Q : A -> Prop) :
  alike E m1 m2 ->
  (forall s a s', m1 s = (Ret a, s') -> Q a) ->
  (forall a, Q a -> alike E (k1 a) (k2 a)) ->
  alike E (bind m1 k1) (bind m2 k2).
Proof.
  intros Hm HQ Hk s1 s2 Hs. destruct (Hm s1 s2 Hs) as [Ho Hs'].
  unfold bind. pose proof (HQ s1) as HQ1.
  destruct (m1 s1) as [o1 t1], (m2 s2) as [o2 t2]. simpl in *. subst o2.
  destruct o1 as [a| |]; simpl; auto. apply Hk; [|exact Hs'].
  exact (HQ1 a t1 eq_refl).
Qed.

Lemma alike_pointwise {A : Type} (m1 m1' m2 m2' : M E A) :
  (forall s, m1 s = m1' s) -> (forall s, m2 s = m2' s) ->
  alike E m1' m2' -> alike E m1 m2.
Proof. intros H1 H2 H s1 s2 Hs. rewrite H1, H2. apply H, Hs. Qed.

(** Writes into the store do not show. *)
Lemma alike_writes (b1 b2 : bool) (r1 r2 : nat) (n1 n2 : string)
  (d1 d2 : Dict.t value) :
  alike E (if b1 then write_kwargs E r1 n1 d1 else ret tt)
          (if b2 then write_kwargs E r2 n2 d2 else ret tt).
Proof.
  intros s1 s2 [Hc Ho]. destruct b1, b2; simpl; unfold same_outside; auto.
Qed.

(** A callable from outside only sees the world. *)
Lemma alike_call (f : nat) (kw : Dict.t value) :
  alike E (call E (VFun f) kw) (call E (VFun f) kw).
Proof.
  intros s1 s2 [Hc Ho]. unfold call. simpl. rewrite Ho.
  destruct (invoke E (VFun f) kw (outside s2)) as [o w]. simpl.
  unfold same_outside. simpl. rewrite Hc. auto.
Qed.

Lemma alike_draw_from_pdf (pdf xx size : value) :
  alike E (draw_from_pdf E pdf xx size) (draw_from_pdf E pdf xx size).
Proof.
  unfold draw_from_pdf. apply alike_bind.
  - destruct xx; try apply alike_ret. apply alike_lift.
  - intros xx' s1 s2 [Hc Ho]. rewrite Ho.
    destruct (weighted_choice E pdf xx' size (outside s2)) as [o w].
    simpl. unfold same_outside. auto.
Qed.

(** [draw_param] for a function given as a callable, once the resolver
    has handed it back: nothing of the store is looked at. *)
Lemma draw_param_given (name : string) (prop : Dict.t value) (f : nat)
  (s : state (world E)) :
  Dict.get "func" prop = Some (VFun f) ->
  draw_param E name prop s
  = (if Dict.mem "name" prop || Dict.mem "self" prop then raise TypeError
     else
       let size := default VNone (Dict.get "size" prop) in
       let xx := default VNone (Dict.get "xx" prop) in
       let kw := Dict.remove "xx" (Dict.remove "size"
                   (Dict.remove "func" prop)) in
       let func_arguments :=
         match argspec E (VFun f) with Some a => a | None => ["size"] end in
       let prop1 := if mem_str "size" func_arguments
                    then [("size", size)] else [] in
       let prop2 := if mem_str "func" func_arguments
                    then Dict.set "func" (VFun f) prop1 else prop1 in
       bind (if mem_str "xx" func_arguments && negb (is_none xx) then
               bind (match xx with
                     | VStr src => lift (eval_r E src)
                     | _ => ret xx
                     end)
                    (fun xx' => ret (Dict.set "xx" xx' prop2))
             else ret prop2)
            (fun prop3 =>
       bind (call E (VFun f) (Dict.merge prop3 kw))
            (fun draw_ =>
       if mem_str "xx" func_arguments then
         match draw_ with
         | VSeq [xx_; pdf_] => draw_from_pdf E pdf_ xx_ size
         | VStr (String a (String b EmptyString)) =>
             draw_from_pdf E (VStr (String b EmptyString))
                           (VStr (String a EmptyString)) size
         | VSeq _ | VStr _ => raise (ValueError "cannot unpack")
         | _ => raise TypeError
         end
       else ret draw_))) s.
Proof.
  intros Hf. unfold draw_param.
  destruct (Dict.mem "name" prop || Dict.mem "self" prop); [reflexivity|].
  unfold bind at 1 2 3. unfold get_self_model, read, lift.
  rewrite Hf. simpl. rewrite andb_true_r. reflexivity.
Qed.

Lemma alike_draw_param (name : string) (prop : Dict.t value) (f : nat) :
  Dict.get "func" prop = Some (VFun f) ->
  alike E (draw_param E name prop) (draw_param E name prop).
Proof.
  intros Hf.
  refine (alike_pointwise _ _ _ _
            (fun s => draw_param_given name prop f s Hf)
            (fun s => draw_param_given name prop f s Hf) _).
  destruct (Dict.mem "name" prop || Dict.mem "self" prop);
    [apply alike_raise|].
  cbv zeta. apply alike_bind.
  - match goal with |- context [if ?c then _ else _] => destruct c end;
      [|apply alike_ret].
    apply alike_bind; [|intros; apply alike_ret].
    destruct (default VNone (Dict.get "xx" prop)); try apply alike_ret.
    apply alike_lift.
  - intros prop3. apply alike_bind; [apply alike_call|]. intros draw_.
    match goal with |- context [if ?c then _ else _] => destruct c end;
      [|apply alike_ret].
    destruct draw_ as [| | |[|a [|b [|? ?]]]| |[|xx_ [|pdf_ [|? ?]]]| |];
      try apply alike_raise; apply alike_draw_from_pdf.
Qed.

Lemma alike_resolve_references (shared : bool) (r1 r2 : nat)
  (name : string) (data : DataFrame) (items : list (string * value))
  (inprop : Dict.t value) (size : value) :
  alike E (resolve_references E shared r1 name data items inprop size)
          (resolve_references E shared r2 name data items inprop size).
Proof.
  revert inprop size. induction items as [|[k v] rest IH];
    intros inprop size; simpl; [apply alike_ret|].
  destruct (reference_target v); [|apply IH].
  apply alike_bind; [apply alike_lift|]. intros cells.
  apply alike_bind; [apply alike_writes|]. intros _. apply IH.
Qed.

Lemma alike_draw_entry (r1 r2 : nat) (size : value) (name : string)
  (e : entry) (data : DataFrame) (f : nat) :
  func e = VFun f ->
  (forall d, kwargs e = KwDict d -> unique_keys d) ->
  alike E (draw_entry E r1 size name e data)
          (draw_entry E r2 size name e data).
Proof.
  intros Hf Hu. unfold draw_entry.
  set (inprop0 := match kwargs e with KwDict d => d | _ => [] end).
  set (shared := match kwargs e with KwDict _ => true | _ => false end).
  assert (Hu0 : unique_keys inprop0).
  { unfold inprop0. destruct (kwargs e) eqn:Hkw;
      try apply List.NoDup_nil. apply Hu. reflexivity. }
  apply (alike_bind_post _ _ _ _
           (fun ps => map fst (fst ps) = map fst inprop0));
    [apply alike_resolve_references| |].
  - intros s [inprop' size'] s' Hres.
    exact (resolve_references_keys E shared r1 name data inprop0 inprop0
             inprop' size size' s s' (fun x H => H) Hres).
  - intros ps Hkeys.
    apply alike_bind; [apply alike_writes|]. intros _.
    apply alike_bind; [|intros draw_; apply alike_bind;
                        [apply alike_lift|intros; apply alike_lift]].
    apply (alike_draw_param name _ f).
    rewrite get_merge, get_rev_unique, get_set_eq, Hf; [reflexivity|].
    apply unique_keys_set.
    exact (eq_ind_r (fun l => List.NoDup l) Hu0 Hkeys).
Qed.

(** The draw loop shows the same whichever copy it works on. *)
Lemma alike_draw_loop (r1 r2 : nat) (size : value)
  (limit_to_entries : option (list string))
  (items : list (string * entry)) (data : DataFrame) :
  given_callables items ->
  (forall name e d, In (name, e) items -> kwargs e = KwDict d ->
                    unique_keys d) ->
  alike E (draw_loop E r1 size limit_to_entries items data)
          (draw_loop E r2 size limit_to_entries items data).
Proof.
  revert data. induction items as [|[name e] rest IH]; intros data Hg Hu;
    simpl; [apply alike_ret|].
  assert (IH' : forall d, alike E
            (draw_loop E r1 size limit_to_entries rest d)
            (draw_loop E r2 size limit_to_entries rest d)).
  { intros d. apply IH.
    - intros n x H. apply (Hg n x). right. exact H.
    - intros n x d0 H. apply (Hu n x d0). right. exact H. }
  match goal with |- context [if ?c then _ else _] => destruct c end;
    [apply IH'|].
  destruct (Hg name e (or_introl eq_refl)) as [f Hf].
  apply alike_bind; [|exact IH'].
  apply (alike_draw_entry r1 r2 size name e data f Hf).
  intros d. apply (Hu name e d). left. reflexivity.
Qed.

(** [_draw] on the document at [model]: one copy, then the short cut
    or the loop on the copy. *)
Lemma _draw_run (model : nat) (size : value)
  (limit_to_entries : option (list string)) (data : option DataFrame)
  (s : state (world E)) :
  _draw E model size limit_to_entries data s
  = let s2 := State (heap s ++ [object_at model s])
                    (self_model s) (calls s) (outside s) in
    if is_zero size then
      (match object_at model s with
       | [] => Raise (ValueError "need at least one array to concatenate")
       | _ :: _ =>
           Ret (frame_of_columns
                  (flat_map (fun ke => hstack_labels (fst ke) (snd ke))
                            (object_at model s)))
       end, s2)
    else draw_loop E (length (heap s)) size limit_to_entries
                   (object_at model s)
                   (match data with Some d => d | None => empty_frame end)
                   s2.
Proof.
  unfold _draw, bind, deepcopy, read. simpl.
  assert (H : object_at (length (heap s))
                (State (heap s ++ [object_at model s])
                       (self_model s) (calls s) (outside s))
              = object_at model s).
  { unfold object_at at 1. simpl. rewrite lookup_app_r by apply le_n.
    rewrite Nat.sub_diag. reflexivity. }
  rewrite H. destruct (is_zero size); [|reflexivity].
  destruct (object_at model s); reflexivity.
Qed.

(** A merge changes no function and leaves the parameter names of
    every kwargs pairwise different. *)
Lemma set_given (doc : document) (k : string) (e : entry)
  (d : Dict.t value) :
  Dict.get k doc = Some e -> unique_keys d ->
  given_callables doc /\ (forall name e0 d0, In (name, e0) doc ->
                            kwargs e0 = KwDict d0 -> unique_keys d0) ->
  let doc' := Dict.set k (Entry (func e) (KwDict d) (alias e)) doc in
  given_callables doc' /\ (forall name e0 d0, In (name, e0) doc' ->
                             kwargs e0 = KwDict d0 -> unique_keys d0).
Proof.
  intros Hget Hd [Hg Hu]. simpl.
  assert (Hin : forall name e0,
    In (name, e0) (Dict.set k (Entry (func e) (KwDict d) (alias e)) doc) ->
    In (name, e0) doc
    \/ e0 = Entry (func e) (KwDict d) (alias e)).
  { clear Hg Hu. induction doc as [|[k0 x] doc IH]; [discriminate|].
    simpl in *. intros name e0.
    destruct (String.eqb k k0).
    - intros [H|H]; [right; congruence|left; right; exact H].
    - intros [H|H]; [left; left; exact H|].
      destruct (IH Hget name e0 H); auto. }
  assert (He : In (k, e) doc) by (apply get_In; exact Hget).
  split.
  - intros name e0 H. destruct (Hin name e0 H) as [H0| ->].
    + exact (Hg name e0 H0).
    + simpl. exact (Hg k e He).
  - intros name e0 d0 H Hkw. destruct (Hin name e0 H) as [H0| ->].
    + exact (Hu name e0 d0 H0 Hkw).
    + simpl in Hkw. inversion Hkw; subst. exact Hd.
Qed.

Lemma apply_overrides_given (doc doc' : document)
  (overrides : Dict.t value) :
  apply_overrides doc overrides = Ret doc' ->
  given_callables doc /\ (forall name e0 d0, In (name, e0) doc ->
                            kwargs e0 = KwDict d0 -> unique_keys d0) ->
  given_callables doc' /\ (forall name e0 d0, In (name, e0) doc' ->
                             kwargs e0 = KwDict d0 -> unique_keys d0).
Proof.
  revert doc. induction overrides as [|[k v] rest IH]; intros doc Hrun Hwf.
  - inversion Hrun; subst. exact Hwf.
  - simpl in Hrun.
    destruct (apply_override doc k v) as [doc1| |] eqn:Hstep;
      try discriminate.
    apply (IH doc1 Hrun). unfold apply_override in Hstep.
    destruct (Dict.get k doc) as [e|] eqn:Hget; [|discriminate].
    destruct (kwargs e) eqn:Hkw, v; inversion Hstep; subst;
      apply (set_given doc k e); auto; apply unique_keys_merge.
    + apply List.NoDup_nil.
    + apply (proj2 Hwf k e d). apply get_In; exact Hget. exact Hkw.
Qed.

(** Overrides given to [draw] and overrides committed by [change_model]
    before a plain [draw] come to the same, for a document whose
    functions are given as callables from outside and whose kwargs have
    pairwise different parameter names: when [change_model] accepts the
    overrides, both draws end with the same outcome (the same table, or
    the same exception), the same calls and the same world. *)
Theorem draw_with_overrides_is_commit_then_draw (size : value)
  (limit_to_entries : option (list string)) (data : option DataFrame)
  (overrides : Dict.t value) (s s1 : state (world E)) :
  well_keyed (stored s) ->
  given_callables (stored s) ->
  change_model E overrides s = (Ret tt, s1) ->
  fst (draw E size limit_to_entries data overrides s)
  = fst (draw E size limit_to_entries data [] s1)
  /\ same_outside (snd (draw E size limit_to_entries data overrides s))
                  (snd (draw E size limit_to_entries data [] s1)).
Proof.
  intros [_ Hu] Hg Hchange. unfold change_model, get_model_call, bind in Hchange.
  pose proof (get_model_log E (default (VDict []) (Dict.get "funcs" overrides))
                (Dict.remove "funcs" overrides) s) as Hlog.
  pose proof (get_model_spec E (default (VDict []) (Dict.get "funcs" overrides))
                (Dict.remove "funcs" overrides) s) as Hspec.
  destruct (get_model E _ (Dict.remove "funcs" overrides) s)
    as [[r| |] s0] eqn:Hget; try discriminate.
  unfold assign_self_model in Hchange. inversion Hchange; subst s1.
  simpl in Hlog. clear Hchange.
  assert (Hwf : given_callables (object_at r s0)
                /\ (forall name e0 d0, In (name, e0) (object_at r s0) ->
                      kwargs e0 = KwDict d0 -> unique_keys d0)).
  { simpl in Hspec.
    destruct (apply_overrides (stored s) (Dict.remove "funcs" overrides))
      as [doc'| |] eqn:Happly; [|discriminate|contradiction].
    destruct Hspec as [Hr Hdoc]. inversion Hr; subst r. rewrite Hdoc.
    apply (apply_overrides_given _ _ _ Happly). split; assumption. }
  assert (Hdraw : draw E size limit_to_entries data overrides s
                  = _draw E r size limit_to_entries data s0)
    by (unfold draw, get_model_call, bind; rewrite Hget; reflexivity).
  rewrite Hdraw, _draw_run, draw_run. simpl.
  change (stored (State (heap s0) r (calls s0) (outside s0)))
    with (object_at r s0).
  destruct (is_zero size).
  - simpl. unfold same_outside. simpl. auto.
  - apply alike_draw_loop; [exact (proj1 Hwf)|exact (proj2 Hwf)|].
    unfold same_outside. simpl. auto.
Qed.

End Alike.

(** [draw(size=3, b={"scale": 2})] on [model_abc], against
    [change_model(b={"scale": 2})] followed by [draw(size=3)]. *)
Lemma draw_with_overrides_is_commit_then_draw_witness :
  fst (draw Demo.E (VInt 3) None None [("b", VDict [("scale", VInt 2)])]
            (Demo.engine Demo.model_abc))
  = fst (draw Demo.E (VInt 3) None None []
              (snd (change_model Demo.E [("b", VDict [("scale", VInt 2)])]
                                 (Demo.engine Demo.model_abc)))).
Proof.
  refine (proj1 (draw_with_overrides_is_commit_then_draw Demo.E (VInt 3)
                   None None [("b", VDict [("scale", VInt 2)])]
                   (Demo.engine Demo.model_abc) _ _ _ eq_refl)).
  - split.
    + unfold unique_keys. simpl.
      repeat (apply List.NoDup_cons; [simpl; intuition discriminate|]).
      apply List.NoDup_nil.
    + intros name e d Hin Hkw. simpl in Hin.
      repeat (destruct Hin as [Heq|Hin];
              [inversion Heq; subst; inversion Hkw; subst;
               unfold unique_keys; simpl;
               repeat (apply List.NoDup_cons;
                       [simpl; intuition discriminate|]);
               apply List.NoDup_nil|]).
      destruct Hin.
  - intros name e Hin. simpl in Hin.
    repeat (destruct Hin as [Heq|Hin]; [inversion Heq; subst; eauto|]).
    destruct Hin.
Defined.

(** With a function given by name the two can differ.  In
    [{"a": {"func": "entries"}}] no entry has kwargs: [draw(a={})] looks
    the name up on the stored document, where the property [entries]
    raises [KeyError]; after [change_model(a={})] the stored document
    has a kwargs, the property returns an array, and the draw ends with
    the [TypeError] of calling it. *)
Lemma draw_with_overrides_by_name :
  fst (draw Demo.E VNone None None [("a", VDict [])]
            (Demo.engine Examples.model_by_name))
  = Raise (KeyError "kwargs")
  /\ fst (draw Demo.E VNone None None []
               (snd (change_model Demo.E [("a", VDict [])]
                                  (Demo.engine Examples.model_by_name))))
     = Raise TypeError.
Proof. split; reflexivity. Qed.

(** ** The short cut for a size of 0, and the empty document *)

Section ShortCut.
Context (E : env).

Lemma hstack_labels_all (model : document) :
  (forall name e, In (name, e) model -> alias e <> AsNone) ->
  flat_map (fun ke => hstack_labels (fst ke) (snd ke)) model
  = map LStr (flat_map (fun ke => entry_labels (fst ke) (snd ke)) model).
Proof.
  induction model as [|[name e] rest IH]; intros Hall; [reflexivity|].
  simpl. rewrite map_app, IH, hstack_labels_exploded.
  - reflexivity.
  - apply (Hall name e). left. reflexivity.
  - intros n x H. apply (Hall n x). right. exact H.
Qed.

(** [draw(size=0)] on a document that has entries, none with the alias
    [None]: whatever [limit_to_entries] and [data] are, the result is the
    table without rows whose columns are the output names of the entries
    in document order, a repeated name giving a repeated column; and
    nothing is called. *)
Theorem draw_size_zero_table (limit_to_entries : option (list string))
  (data : option DataFrame) (s : state (world E)) :
  stored s <> [] ->
  (forall name e, In (name, e) (stored s) -> alias e <> AsNone) ->
  fst (draw E (VInt 0) limit_to_entries data [] s)
  = Ret (Frame 0 (map (fun x => (LStr x, []))
                      (flat_map (fun ke => entry_labels (fst ke) (snd ke))
                                (stored s))))
  /\ calls (snd (draw E (VInt 0) limit_to_entries data [] s)) = calls s
  /\ outside (snd (draw E (VInt 0) limit_to_entries data [] s)) = outside s.
Proof.
  intros Hne Hall. rewrite draw_run. simpl.
  rewrite (hstack_labels_all (stored s) Hall).
  destruct (stored s); [congruence|]. simpl.
  unfold frame_of_columns. rewrite map_map. auto.
Qed.

(** The empty document: [draw(size=0)] raises [ValueError] (there is
    nothing for [np.hstack] to join), while a draw of any other size
    gives back the table it was given, or an empty one. *)
Theorem draw_empty_document (size : value)
  (limit_to_entries : option (list string)) (data : option DataFrame)
  (s : state (world E)) :
  stored s = [] ->
  fst (draw E size limit_to_entries data [] s)
  = if is_zero size
    then Raise (ValueError "need at least one array to concatenate")
    else Ret (match data with Some d => d | None => empty_frame end).
Proof.
  intros Hempty. rewrite draw_run, Hempty. simpl.
  destruct (is_zero size); reflexivity.
Qed.

End ShortCut.

(** The columns for [model_shared_alias] are [x], [y] and [x] again. *)
Lemma draw_size_zero_table_witness :
  fst (draw Demo.E (VInt 0) (Some ["nothing"]) (Some Demo.data_x) []
            (Demo.engine Examples.model_shared_alias))
  = Ret (Frame 0 [(LStr "x", []); (LStr "y", []); (LStr "x", [])])
  /\ calls (snd (draw Demo.E (VInt 0) (Some ["nothing"]) (Some Demo.data_x)
                      [] (Demo.engine Examples.model_shared_alias))) = []
  /\ outside (snd (draw Demo.E (VInt 0) (Some ["nothing"])
                        (Some Demo.data_x) []
                        (Demo.engine Examples.model_shared_alias))) = 0.
Proof.
  apply (draw_size_zero_table Demo.E (Some ["nothing"]) (Some Demo.data_x)
           (Demo.engine Examples.model_shared_alias)); [discriminate|].
  intros name e Hin. simpl in Hin.
  repeat (destruct Hin as [Heq|Hin]; [inversion Heq; subst; discriminate|]).
  destruct Hin.
Defined.

Lemma draw_empty_document_witness :
  fst (draw Demo.E (VInt 0) None None [] (Demo.engine []))
  = Raise (ValueError "need at least one array to concatenate")
  /\ fst (draw Demo.E (VInt 4) None None [] (Demo.engine []))
     = Ret empty_frame.
Proof.
  split.
  - exact (draw_empty_document Demo.E (VInt 0) None None (Demo.engine [])
             eq_refl).
  - exact (draw_empty_document Demo.E (VInt 4) None None (Demo.engine [])
             eq_refl).
Defined.

(** ** The examples for the registry *)

(** [get_model(b={"scale": 2, "low": 0})] on [model_abc]. *)
Lemma get_model_override_one_witness :
  exists r s' e' d',
    get_model Demo.E (VDict [])
              [("b", VDict [("scale", VInt 2); ("low", VInt 0)])]
              (Demo.engine Demo.model_abc) = (Ret r, s')
    /\ Dict.get "b" (object_at r s') = Some e'
    /\ kwargs e' = KwDict d'
    /\ alias e' = AsAbsent
    /\ (forall p x,
          Dict.get p (rev [("scale", VInt 2); ("low", VInt 0)]) = Some x ->
          Dict.get p d' = Some x)
    /\ (forall p,
          Dict.get p (rev [("scale", VInt 2); ("low", VInt 0)]) = None ->
          Dict.get p d'
          = Dict.get p [("loc", VStr "@a"); ("scale", VInt 1)]).
Proof.
  exact (get_model_override_one Demo.E (VDict []) "b"
           [("scale", VInt 2); ("low", VInt 0)]
           (Entry (VFun 2) (KwDict [("loc", VStr "@a"); ("scale", VInt 1)])
                  AsAbsent)
           [("loc", VStr "@a"); ("scale", VInt 1)]
           (Demo.engine Demo.model_abc) eq_refl eq_refl).
Defined.

(** [change_model(a={"low": 5}, zz={})] on [model_a]: the first override
    has been merged into the copy when the second fails, and the stored
    document shows none of it. *)
Lemma change_model_failure_atomic_witness :
  fst (change_model Demo.E [("a", VDict [("low", VInt 5)]); ("zz", VDict [])]
                    (Demo.engine Demo.model_a))
  = Raise (KeyError "zz")
  /\ self_model (snd (change_model Demo.E
                        [("a", VDict [("low", VInt 5)]); ("zz", VDict [])]
                        (Demo.engine Demo.model_a))) = 0
  /\ stored (snd (change_model Demo.E
                    [("a", VDict [("low", VInt 5)]); ("zz", VDict [])]
                    (Demo.engine Demo.model_a))) = Demo.model_a.
Proof.
  split; [reflexivity|].
  apply (change_model_failure_atomic Demo.E (Demo.engine Demo.model_a) _
           [("a", VDict [("low", VInt 5)]); ("zz", VDict [])]
           (KeyError "zz")).
  - simpl. lia.
  - vm_compute. reflexivity.
Defined.

(** ** Forwards against backwards *)

(** The two closures are converse to each other: when both methods
    return, [b] is in the forward closure of [a] exactly when [a] is in
    the backward closure of [b] (the closures taken without the start
    name). *)
Theorem closures_are_converse (model : document) (fuel fuel' : nat)
  (a b : string) (forwards backwards : list string) :
  forward_entries fuel model (One a) false = Ret forwards ->
  backward_entries fuel' model (One b) false = Ret backwards ->
  In b forwards <-> In a backwards.
Proof.
  unfold forward_entries, backward_entries.
  destruct (get_modeldf model) as [rows| |] eqn:Hrows; try discriminate.
  intros Hf Hb.
  rewrite (expand_reaches_from _ (feeds model) _ _ _ _
             (fun x y => entry_inputof_feeds model rows x y Hrows) Hf b).
  rewrite (expand_reaches_from _ (refers_to model) _ _ _ _
             (fun x y => depends_on_refers_to model rows x y Hrows) Hb a).
  simpl. split.
  - intros [[]|(x & [<-|[]] & Hreach)]. right. exists b.
    split; [left; reflexivity|].
    exact (reaches_reverse (feeds model) a b Hreach).
  - intros [[]|(x & [<-|[]] & Hreach)]. right. exists a.
    split; [left; reflexivity|].
    exact (reaches_reverse (refers_to model) b a Hreach).
Qed.

(** In [model_diamond], [d] is forward of [a] and [a] backward of [d]. *)
Lemma closures_are_converse_witness :
  In "d" ["b"; "c"; "d"; "d"] <-> In "a" ["b"; "c"; "a"; "a"].
Proof.
  exact (closures_are_converse Examples.model_diamond 5 5 "a" "d"
           ["b"; "c"; "d"; "d"] ["b"; "c"; "a"; "a"] eq_refl eq_refl).
Defined.
